(** * mk: a shallow embedding of the build tool and its checked properties

    The first part follows the Go sources file by file:
    - [GoStr]   the few functions of Go's [strings] and [utf8] packages that
                the program uses;
    - [Regexp]  a backtracking matcher for the regular expressions that the
                program builds itself (leftmost-first, greedy iteration,
                capture groups);
    - [Expand]  expand.go, with [isValidVarName] of rules.go;
    - [Rules]   rules.go and the construction of target patterns in parse.go;
    - [Graph]   graph.go;
    - [Mk]      mk.go;
    - [Attribs] the attributes of a rule, rules.go;
    - [Recipe]  recipe.go;
    - [Slots]   the subprocess slots of mk.go;
    - [Token], [Lex]  lex.go;
    - [Parse]   parse.go.
    The second part holds the predicates and the examples that the
    properties are stated with, the third part the properties and their
    proofs.

    Go strings are byte sequences and are modelled as [list ascii].  The
    sources decode runes only to compare them with ASCII delimiters or to
    classify them as letters and digits; the model works byte by byte and
    classifies ASCII letters and digits only, so it agrees with the program
    on ASCII input.  Times are integers (nanoseconds since the epoch).
    Nodes are named by their target and rules by their index in the rule
    set, where the program holds pointers. *)

From Stdlib Require Import ZArith Ascii String List Lia Bool.
From stdpp Require Import gmap strings list fin_maps relations.
Import ListNotations.

Local Open Scope Z_scope.

(** A Go string. *)
Abbreviation gostring := (list ascii).

(** String literals of the examples. *)
Definition str (x : string) : gostring := list_ascii_of_string x.

(* ===================================================================== *)
(** * Outcomes of Go code *)
(* ===================================================================== *)

(** A Go function returns, panics (a slice expression or an index out of
    range), ends the program through [mkError] ([Exit]) or keeps running;
    loops that the sources do not bound are run with fuel.  [Unmodelled]
    marks the one input on which the model does not follow the program: a
    namelist reference whose texts contain the end of quotation [\E]. *)
Inductive result (A : Type) : Type :=
| Ok (a : A)
| Panic
| Exit
| OutOfFuel
| Unmodelled.
Arguments Ok {A} a.
Arguments Panic {A}.
Arguments Exit {A}.
Arguments OutOfFuel {A}.
Arguments Unmodelled {A}.

Definition bind {A B} (x : result A) (f : A -> result B) : result B :=
  match x with
  | Ok a => f a
  | Panic => Panic
  | Exit => Exit
  | OutOfFuel => OutOfFuel
  | Unmodelled => Unmodelled
  end.

Notation "'let*' x ':=' e 'in' k" := (bind e (fun x => k))
  (at level 10, x name, e at level 100, k at level 200).
Notation "'let*' ' p ':=' e 'in' k" := (bind e (fun x => match x with p => k end))
  (at level 10, p pattern, e at level 100, k at level 200).

(* ===================================================================== *)
(** * Go strings: slices and the functions of package strings *)
(* ===================================================================== *)

Module GoStr.

Local Open Scope nat_scope.

Definition eqb (a b : gostring) : bool := bool_decide (a = b).

Definition mem (c : ascii) (chars : gostring) : bool :=
  existsb (Ascii.eqb c) chars.

(** [s[i:]]; panics when [i > len(s)]. *)
Definition sliceFrom (s : gostring) (i : nat) : result gostring :=
  if i <=? length s then Ok (drop i s) else Panic.

(** [s[:j]]; panics when [j > len(s)]. *)
Definition sliceTo (s : gostring) (j : nat) : result gostring :=
  if j <=? length s then Ok (take j s) else Panic.

(** [s[i:j]]; panics unless [i <= j <= len(s)]. *)
Definition slice (s : gostring) (i j : nat) : result gostring :=
  if (i <=? j) && (j <=? length s) then Ok (take (j - i) (drop i s)) else Panic.

(** [strings.IndexAny(s, chars)]; [None] stands for [-1]. *)
Fixpoint IndexAny (s chars : gostring) : option nat :=
  match s with
  | [] => None
  | c :: s' => if mem c chars then Some 0 else S <$> IndexAny s' chars
  end.

(** [strings.IndexRune(s, c)] for an ASCII [c]. *)
Definition IndexRune (s : gostring) (c : ascii) : option nat := IndexAny s [c].

(** [strings.HasPrefix]. *)
Fixpoint HasPrefix (s prefix : gostring) {struct prefix} : bool :=
  match prefix, s with
  | [], _ => true
  | p :: prefix', c :: s' => Ascii.eqb p c && HasPrefix s' prefix'
  | _ :: _, [] => false
  end.

(** [strings.Index(s, substr)]. *)
Fixpoint Index (s substr : gostring) : option nat :=
  if HasPrefix s substr then Some 0
  else match s with
       | [] => None
       | _ :: s' => S <$> Index s' substr
       end.

(** [strings.Contains]. *)
Definition Contains (s substr : gostring) : bool :=
  match Index s substr with Some _ => true | None => false end.

(** [strings.Join]. *)
Fixpoint Join (elems : list gostring) (sep : gostring) : gostring :=
  match elems with
  | [] => []
  | [e] => e
  | e :: rest => e ++ sep ++ Join rest sep
  end.

(** A decoded rune: a byte, or [utf8.RuneError] of width 0 at the end of the
    string. *)
Definition rune := option ascii.

(** [utf8.DecodeRuneInString]. *)
Definition DecodeRuneInString (s : gostring) : rune * nat :=
  match s with
  | [] => (None, 0)
  | c :: _ => (Some c, 1)
  end.

(** [string(c)] for a rune; [utf8.RuneError] is encoded as EF BF BD. *)
Definition runeString (c : rune) : gostring :=
  match c with
  | Some a => [a]
  | None => [ascii_of_nat 239; ascii_of_nat 191; ascii_of_nat 189]
  end.

Definition runeIs (c : rune) (a : ascii) : bool :=
  match c with Some b => Ascii.eqb b a | None => false end.

(** [unicode.IsLetter], [unicode.IsDigit], on ASCII. *)
Definition IsLetter (c : rune) : bool :=
  match c with
  | Some a => let n := nat_of_ascii a in
              ((65 <=? n) && (n <=? 90)) || ((97 <=? n) && (n <=? 122))
  | None => false
  end.

Definition IsDigit (c : rune) : bool :=
  match c with
  | Some a => let n := nat_of_ascii a in (48 <=? n) && (n <=? 57)
  | None => false
  end.

End GoStr.

(* ===================================================================== *)
(** * Regular expressions *)
(* ===================================================================== *)

(** The program compiles three kinds of expressions itself: the namelist
    pattern of expand.go, the pattern [^\Qa\E( .* )\Qb\E$] of a namelist
    reference and the pattern [^left( .* )right$] of a suffix rule.  All start
    with [^], so a match is tried at the start of the text only, and
    [FindStringSubmatch] returns the leftmost-first match of Go's regexp
    package: the one a backtracking matcher with greedy iteration finds. *)
Module Regexp.

Local Open Scope nat_scope.

Inductive regexp :=
| Lit (c : ascii)               (* a literal byte *)
| Class (p : ascii -> bool)     (* a character class, or [.] *)
| Cat (r1 r2 : regexp)
| Empty
| Star (r : regexp)             (* greedy [r*] *)
| Plus (r : regexp)             (* greedy [r+] *)
| Group (n : nat) (r : regexp)  (* capture group number [n] *)
| EndText.                      (* [$] without the multi-line flag *)

(** The submatches: index 0 is the whole match, index [n] is group [n]. *)
Abbreviation captures := (list gostring).

Abbreviation cont := (gostring -> captures -> option captures).

(** Greedy iteration of a matcher [m]: another round first, the rest of the
    expression when that fails.  A round that consumes nothing is not
    repeated. *)
Fixpoint star_loop (m : gostring -> captures -> cont -> option captures)
    (fuel : nat) (s : gostring) (caps : captures) (k : cont) : option captures :=
  match fuel with
  | 0 => k s caps
  | S fuel' =>
      match m s caps (fun s' caps' =>
                        if length s' <? length s
                        then star_loop m fuel' s' caps' k else None) with
      | Some res => Some res
      | None => k s caps
      end
  end.

(** [rmatch r s caps k]: match [r] at the head of [s], then continue with
    [k] on the rest; alternatives are tried in priority order. *)
Fixpoint rmatch (r : regexp) (s : gostring) (caps : captures) (k : cont)
  : option captures :=
  match r with
  | Lit c =>
      match s with
      | c' :: s' => if Ascii.eqb c c' then k s' caps else None
      | [] => None
      end
  | Class p =>
      match s with
      | c' :: s' => if p c' then k s' caps else None
      | [] => None
      end
  | Cat r1 r2 => rmatch r1 s caps (fun s' caps' => rmatch r2 s' caps' k)
  | Empty => k s caps
  | Star r1 => star_loop (rmatch r1) (length s) s caps k
  | Plus r1 =>
      rmatch r1 s caps (fun s' caps' => star_loop (rmatch r1) (length s') s' caps' k)
  | Group n r1 =>
      rmatch r1 s caps
        (fun s' caps' => k s' (<[n := take (length s - length s') s]> caps'))
  | EndText =>
      match s with
      | [] => k s caps
      | _ :: _ => None
      end
  end.

(** Number of capture groups. *)
Fixpoint NumSubexp (r : regexp) : nat :=
  match r with
  | Cat r1 r2 => NumSubexp r1 `max` NumSubexp r2
  | Star r1 | Plus r1 => NumSubexp r1
  | Group n r1 => n `max` NumSubexp r1
  | _ => 0
  end.

(** [Regexp.FindStringSubmatch] for an expression anchored with [^];
    [None] is the nil slice. *)
Definition FindStringSubmatch (r : regexp) (s : gostring) : option captures :=
  rmatch r s (repeat [] (S (NumSubexp r)))
    (fun s' caps => Some (<[0 := take (length s - length s') s]> caps)).

(** A literal text. *)
Fixpoint lits (a : gostring) : regexp :=
  match a with
  | [] => Empty
  | c :: a' => Cat (Lit c) (lits a')
  end.

(** Character classes. *)
Definition isNot (c : ascii) : ascii -> bool := fun x => negb (Ascii.eqb x c).

(** [\s]: tab, newline, form feed, carriage return, space. *)
Definition space : ascii -> bool :=
  fun x => GoStr.mem x [ascii_of_nat 9; ascii_of_nat 10; ascii_of_nat 12;
                        ascii_of_nat 13; ascii_of_nat 32].

(** [.] without the [s] flag: anything but a newline. *)
Definition dot : ascii -> bool := isNot (ascii_of_nat 10).

(** [( .* )] between two literal texts, up to the end of the text:
    [^a( .* )b$] with [a] and [b] quoted. *)
Definition stemPattern (a b : gostring) : regexp :=
  Cat (lits a) (Cat (Group 1 (Star (Class dot))) (Cat (lits b) EndText)).

End Regexp.

(* ===================================================================== *)
(** * expand.go: string substitution and expansion *)
(* ===================================================================== *)

Module Expand.
Import GoStr.

Local Open Scope char_scope.
Local Open Scope nat_scope.

(** The double quote. *)
Definition dquote : ascii := Eval vm_compute in ascii_of_nat 34.
Definition tab : ascii := Eval vm_compute in ascii_of_nat 9.

(** rules.go, [isValidVarName]: the loop from byte [i] on. *)
Fixpoint isValidVarName_from (first : bool) (v : gostring) : bool :=
  match v with
  | [] => true
  | a :: v' =>
      let c : rune := Some a in
      if (first && negb (IsLetter c || runeIs c "_"))
         || negb (IsLetter c || IsDigit c || runeIs c "_")
      then false
      else isValidVarName_from false v'
  end.

Definition isValidVarName (v : gostring) : bool := isValidVarName_from true v.

(** The namelist pattern of [expandSigil] (line 185), piece by piece:
    ^  \s*  ([^:]+)  \s*  :  \s*  ([^%]* )  %  ([^=]* )  \s*  =  \s*
    ([^%]* )  %  ([^%]* )  \s*
    with groups 1 to 5 for the name and the texts a, b, c and d. *)
Definition namelist_pattern : Regexp.regexp :=
  let ws := Regexp.Star (Regexp.Class Regexp.space) in
  let upto c := Regexp.Star (Regexp.Class (Regexp.isNot c)) in
  Regexp.Cat ws
   (Regexp.Cat (Regexp.Group 1 (Regexp.Plus (Regexp.Class (Regexp.isNot ":"))))
   (Regexp.Cat ws
   (Regexp.Cat (Regexp.Lit ":")
   (Regexp.Cat ws
   (Regexp.Cat (Regexp.Group 2 (upto "%"))
   (Regexp.Cat (Regexp.Lit "%")
   (Regexp.Cat (Regexp.Group 3 (upto "="))
   (Regexp.Cat ws
   (Regexp.Cat (Regexp.Lit "=")
   (Regexp.Cat ws
   (Regexp.Cat (Regexp.Group 4 (upto "%"))
   (Regexp.Cat (Regexp.Lit "%")
   (Regexp.Cat (Regexp.Group 5 (upto "%")) ws))))))))))))).

(** [regexp.MustCompile] of [^\Q] a [\E( .* )\Q] b [\E$].  A quoted text
    is literal up to the first [\E].  The model covers the texts without
    [\E]; for the others it gives [None]: what follows the first [\E] is
    parsed as an expression again, and [MustCompile] panics on the stray [\E]
    that this leaves unless the text reopens the quotation. *)
Definition compileQuoted (a b : gostring) : option Regexp.regexp :=
  if Contains a ["\"; "E"] || Contains b ["\"; "E"] then None
  else Some (Regexp.stemPattern a b).

(** The loop of lines 212-219 over the values. *)
Definition expandValue (pat : Regexp.regexp) (c d value : gostring) : gostring :=
  match Regexp.FindStringSubmatch pat value with
  | Some value_match => Join [c; value_match !!! 1; d] []
  | None => value
  end.

(** Lines 226-234: the end of the longest variable name at the head of
    [input], scanning from byte [j]. *)
Fixpoint scanName (input : gostring) (j : nat) : nat :=
  match input with
  | [] => j
  | a :: rest =>
      let c : rune := Some a in
      if negb (IsLetter c || runeIs c "_" || ((0 <? j) && IsDigit c)) then j
      else scanName rest (j + 1)
  end.

(** [expandSigil]: expand something starting after a [$].  The result is
    the list of parts and the number of bytes consumed. *)
Definition expandSigil (input : gostring) (vars : gmap gostring (list gostring))
  : result (list gostring * nat) :=
  let '(c, w) := DecodeRuneInString input in
  (* lines 244-253, shared by the bracketed and the bare form *)
  let tail (varname : gostring) (offset : nat) :=
    if isValidVarName varname then
      match vars !! varname with
      | Some varvals => Ok (varvals, offset)
      | None => let* pre := sliceTo input offset in Ok (["$" :: pre], offset)
      end
    else Ok (["$" :: input], length input) in
  if runeIs c "$" then Ok ([["$"]], 2)
  else if runeIs c "{" then
    let* rest := sliceFrom input w in
    match IndexRune rest "}" with
    | None => Ok (["$" :: input], length input)
    | Some j =>
        let* varname := slice input w (w + j) in
        let offset := w + j + 1 in
        match Regexp.FindStringSubmatch namelist_pattern varname with
        | Some mat =>
            if isValidVarName (mat !!! 1) then
              let varname := mat !!! 1 in
              let '(a, b, c, d) := (mat !!! 2, mat !!! 3, mat !!! 4, mat !!! 5) in
              match vars !! varname with
              | None => Ok ([], offset)
              | Some values =>
                  match compileQuoted a b with
                  | None => Unmodelled
                  | Some pat => Ok (map (expandValue pat c d) values, offset)
                  end
              end
            else tail varname offset
        | None => tail varname offset
        end
    end
  else
    let i := 0 in
    let j := scanName input i in
    if i <? j then
      let* varname := slice input i j in
      tail varname j
    else Ok (["$" :: input], length input).

(** [expandEscape]: expand following a backslash. *)
Definition expandEscape (input : gostring) : gostring * nat :=
  let '(c, w) := DecodeRuneInString input in
  if runeIs c tab || runeIs c " " then (runeString c, w)
  else ("\" :: runeString c, w).

(** [expandSingleQuoted]. *)
Definition expandSingleQuoted (input : gostring) : result (gostring * nat) :=
  match Index input ["'"] with
  | None => Ok (input, length input)
  | Some j => let* pre := sliceTo input j in Ok (pre, j + 1)
  end.

Section WithShell.

(** The words that [lexWords] reads from the output of [sh] run on a
    command: the subprocess of [expandBackQuoted]. *)
Variable shellWords : gostring -> list gostring.

(** [expandBackQuoted]. *)
Definition expandBackQuoted (input : gostring) : result (list gostring * nat) :=
  match Index input ["`"] with
  | None => Ok ([input], length input)
  | Some j => let* cmd := sliceTo input j in Ok (shellWords cmd, j + 1)
  end.

(** The loop of [expandDoubleQuoted]; [expand] is the function it calls on
    the quoted text. *)
Fixpoint expandDoubleQuoted_loop (expand : gostring -> result (list gostring))
    (fuel : nat) (input : gostring) (j : nat) : result (gostring * nat) :=
  match fuel with
  | 0 => OutOfFuel
  | S fuel' =>
      let* rest := sliceFrom input j in
      match IndexAny rest [dquote; "\"] with
      | None => Ok (input, length input)
      | Some j =>
          let* rest := sliceFrom input j in
          let '(c, w) := DecodeRuneInString rest in
          let j := j + w in
          if runeIs c dquote then
            let* quoted := sliceTo input j in
            let* parts := expand quoted in
            Ok (Join parts [" "], j + w)
          else if runeIs c "\" then
            if j + w <? length input then
              let j := j + w in
              let* rest := sliceFrom input j in
              let '(_, w) := DecodeRuneInString rest in
              let j := j + w in
              expandDoubleQuoted_loop expand fuel' input j
            else Ok (input, length input)
          else expandDoubleQuoted_loop expand fuel' input j
      end
  end.

(** Lines 124-128. *)
Definition finishParts (parts : list gostring) (expanded : gostring) : list gostring :=
  if 0 <? length expanded then parts ++ [expanded] else parts.

(** The loop of [expand]; [dq] is [expandDoubleQuoted]. *)
Fixpoint expand_loop (dq : gostring -> result (gostring * nat))
    (fuel : nat) (input : gostring) (vars : gmap gostring (list gostring))
    (expandBackticks : bool) (i : nat) (parts : list gostring)
    (expanded : gostring) : result (list gostring) :=
  match fuel with
  | 0 => OutOfFuel
  | S fuel' =>
      if i <? length input then
        let* rest := sliceFrom input i in
        match IndexAny rest [dquote; "'"; "`"; "$"; "\"] with
        | None => Ok (finishParts parts (expanded ++ rest))
        | Some j =>
            let j := j + i in
            let* seg := slice input i j in
            let expanded := expanded ++ seg in
            let* rest := sliceFrom input j in
            let '(c, w) := DecodeRuneInString rest in
            let i := j + w in
            let* rest := sliceFrom input i in
            let* '(parts, expanded, off) :=
              if runeIs c "\" then
                let '(out, off) := expandEscape rest in
                Ok (parts, expanded ++ out, off)
              else if runeIs c dquote then
                let* '(out, off) := dq rest in
                Ok (parts, expanded ++ out, off)
              else if runeIs c "'" then
                let* '(out, off) := expandSingleQuoted rest in
                Ok (parts, expanded ++ out, off)
              else if runeIs c "`" then
                if expandBackticks then
                  let* '(outparts, off) := expandBackQuoted rest in
                  match outparts with
                  | [] => Ok (parts, expanded, off)
                  | o :: os =>
                      let outparts := (expanded ++ o) :: os in
                      Ok (parts ++ List.removelast outparts, List.last outparts [], off)
                  end
                else Ok (parts, expanded ++ input, length input)
              else if runeIs c "$" then
                let* '(outparts, off) := expandSigil rest vars in
                match outparts with
                | [] => Ok (parts, expanded, off)
                | o :: os =>
                    let firstpart := expanded ++ o in
                    match os with
                    | [] => Ok (parts, firstpart, off)
                    | _ :: _ =>
                        Ok ((parts ++ [firstpart]) ++ List.removelast os, List.last os [], off)
                    end
                end
              else Ok (parts, expanded, 0) in
            expand_loop dq fuel' input vars expandBackticks (i + off) parts expanded
        end
      else Ok (finishParts parts expanded)
  end.

(** [expand]: expand a word.  [expand] and [expandDoubleQuoted] call each
    other; [fuel] bounds the depth of these calls and the iterations of
    their loops. *)
Fixpoint expand (fuel : nat) (input : gostring)
    (vars : gmap gostring (list gostring)) (expandBackticks : bool)
  : result (list gostring) :=
  match fuel with
  | 0 => OutOfFuel
  | S fuel' =>
      expand_loop
        (fun quoted =>
           expandDoubleQuoted_loop
             (fun inner => expand fuel' inner vars expandBackticks) fuel' quoted 0)
        fuel' input vars expandBackticks 0 [] []
  end.

End WithShell.

(** The loop of [expandRecipeSigils]. *)
Fixpoint expandRecipeSigils_loop (fuel : nat) (input : gostring)
    (vars : gmap gostring (list gostring)) (i : nat) (expanded : gostring)
  : result gostring :=
  match fuel with
  | 0 => OutOfFuel
  | S fuel' =>
      if i <? length input then
        let* rest := sliceFrom input i in
        match IndexAny rest ["$"; "\"] with
        | None => Ok (expanded ++ rest)
        | Some off =>
            let* seg := slice input i (i + off) in
            let expanded := expanded ++ seg in
            let i := i + off in
            let* rest := sliceFrom input i in
            let '(c, w) := DecodeRuneInString rest in
            if runeIs c "$" then
              let i := i + w in
              let* rest := sliceFrom input i in
              let* '(ex, k) := expandSigil rest vars in
              expandRecipeSigils_loop fuel' input vars (i + k) (expanded ++ Join ex [" "])
            else if runeIs c "\" then
              let i := i + w in
              let* rest := sliceFrom input i in
              let '(c, w) := DecodeRuneInString rest in
              let expanded :=
                if runeIs c "$" then expanded ++ ["$"]
                else expanded ++ "\" :: runeString c in
              expandRecipeSigils_loop fuel' input vars (i + w) expanded
            else expandRecipeSigils_loop fuel' input vars i expanded
        end
      else Ok expanded
  end.

(** [expandRecipeSigils]: every iteration of the loop consumes a byte, so
    [len(input) + 1] rounds are enough. *)
Definition expandRecipeSigils (input : gostring)
    (vars : gmap gostring (list gostring)) : result gostring :=
  expandRecipeSigils_loop (S (length input)) input vars 0 [].

(** The loop of [expandSuffixes] (lines 319-339).  [j] is the index that
    [strings.IndexAny] finds in [input[i:]]; the code uses it as an index
    into [input]. *)
Fixpoint expandSuffixes_loop (fuel : nat) (input stem : gostring) (i : nat)
    (expanded : gostring) : result gostring :=
  match fuel with
  | 0 => OutOfFuel
  | S fuel' =>
      if i <? length input then
        let* rest := sliceFrom input i in
        match IndexAny rest ["\"; "%"] with
        | None => Ok (expanded ++ rest)
        | Some j =>
            let* rest := sliceFrom input j in
            let '(c, w) := DecodeRuneInString rest in
            let* seg := slice input i j in
            let expanded := expanded ++ seg in
            if runeIs c "%" then
              expandSuffixes_loop fuel' input stem (j + w) (expanded ++ stem)
            else
              let j := j + w in
              let* rest := sliceFrom input j in
              let '(c, w) := DecodeRuneInString rest in
              if runeIs c "%" then
                expandSuffixes_loop fuel' input stem (j + w) (expanded ++ ["%"])
              else expandSuffixes_loop fuel' input stem i expanded
        end
      else Ok expanded
  end.

(** [expandSuffixes]: expand all unescaped [%] characters. *)
Definition expandSuffixes (fuel : nat) (input stem : gostring) : result gostring :=
  expandSuffixes_loop fuel input stem 0 [].

End Expand.

(* ===================================================================== *)
(** * rules.go: rules and rule sets *)
(* ===================================================================== *)

Module Rules.
Import GoStr.

Local Open Scope char_scope.
Local Open Scope nat_scope.

Record attribSet := {
  delFailed : bool;       (* delete targets when the recipe fails *)
  nonstop : bool;         (* don't stop if the recipe fails *)
  forcedTimestamp : bool; (* update timestamp whether the recipe does or not *)
  nonVirtual : bool;      (* a meta-rule that will only match files *)
  quiet : bool;           (* don't print the recipe *)
  regex : bool;           (* regular expression meta-rule *)
  update : bool;          (* treat the targets as if they were updated *)
  virtual : bool;         (* rule is virtual (does not match files) *)
  exclusive : bool        (* don't execute concurrently with any other rule *)
}.

(** The zero value of [attribSet]. *)
Definition noAttribs : attribSet :=
  {| delFailed := false; nonstop := false; forcedTimestamp := false;
     nonVirtual := false; quiet := false; regex := false; update := false;
     virtual := false; exclusive := false |}.

(** Target patterns.  [rpat] is [None] for the nil pointer. *)
Record pattern := {
  isSuffix : bool;               (* is a suffix '%' rule *)
  spat : gostring;               (* simple string pattern *)
  rpat : option Regexp.regexp    (* non-nil if this is a regexp pattern *)
}.

(** [pattern.match]: the submatches, or [None] (nil) when the pattern does
    not match.  A literal pattern matches with an empty, non-nil slice. *)
Definition pattern_match (p : pattern) (target : gostring) : option (list gostring) :=
  match rpat p with
  | Some re => Regexp.FindStringSubmatch re target
  | None => if eqb target (spat p) then Some [] else None
  end.

Record rule := {
  targets : list pattern;   (* non-empty array of targets *)
  attributes : attribSet;   (* rule attributes *)
  prereqs : list gostring;  (* possibly empty prerequisites *)
  shell : list gostring;    (* command used to execute the recipe *)
  recipe : gostring;        (* recipe source *)
  command : list gostring;  (* command attribute *)
  isMeta : bool;            (* is this a meta rule *)
  file : gostring;          (* file where the rule is defined *)
  line : Z                  (* line number on which the rule is defined *)
}.

(** The loop of [equivRecipe] over [r1.shell] (lines 119-123); it runs when
    both lists have the same length. *)
Fixpoint equivShell (s1 s2 : list gostring) : bool :=
  match s1, s2 with
  | x :: s1', y :: s2' => if negb (eqb x y) then false else equivShell s1' s2'
  | _, _ => true
  end.

(** [equivRecipe]: equivalent recipes. *)
Definition equivRecipe (r1 r2 : rule) : bool :=
  if negb (eqb (recipe r1) (recipe r2)) then false
  else if negb (length (shell r1) =? length (shell r2)) then false
  else equivShell (shell r1) (shell r2).

(** A set of rules. *)
Record ruleSet := {
  vars : gmap gostring (list gostring);
  rules : list rule;
  (* map a target to an array of indexes into rules *)
  targetRules : gmap gostring (list nat)
}.

(** The loop of [add] over the targets of the new rule, whose index is [k]
    (lines 191-196). *)
Fixpoint addTargets (k : nat) (ts : list pattern) (tr : gmap gostring (list nat))
  : gmap gostring (list nat) :=
  match ts with
  | [] => tr
  | p :: ts' =>
      let tr' :=
        match rpat p with
        | None => <[spat p := default [] (tr !! spat p) ++ [k]]> tr
        | Some _ => tr
        end in
      addTargets k ts' tr'
  end.

(** [ruleSet.add]: add a rule to the rule set. *)
Definition add (rs : ruleSet) (r : rule) : ruleSet :=
  let rules' := rules rs ++ [r] in
  let k := length rules' - 1 in
  {| vars := vars rs; rules := rules';
     targetRules := addTargets k (targets r) (targetRules rs) |}.

(** parse.go, [parse]: the rule set a parse starts from, with the
    environment as variables. *)
Definition emptyRuleSet (env : gmap gostring (list gostring)) : ruleSet :=
  {| vars := env; rules := []; targetRules := ∅ |}.

Section WithCompile.

(** [regexp.Compile] on the text of a rule with the [R] attribute; [None] is
    a syntax error. *)
Variable regexpCompile : gostring -> option Regexp.regexp.

(** parse.go, lines 620-651 of the concatenated source: the pattern of one
    target text, and whether it makes the rule a meta rule.  [None] is the
    fatal error of an invalid regular expression.  For a suffix target the
    expression compiled from the quoted texts left and right of the first
    [%] is the stem pattern of these texts. *)
Definition targetPattern (regexAttr : bool) (targetstr : gostring)
  : option (pattern * bool) :=
  if regexAttr then
    match regexpCompile ("^" :: targetstr ++ ["$"]) with
    | None => None
    | Some re => Some ({| isSuffix := false; spat := targetstr; rpat := Some re |}, false)
    end
  else
    match IndexRune targetstr "%" with
    | Some idx =>
        let left := if 0 <? idx then take idx targetstr else [] in
        let right := if idx <? length targetstr - 1
                     then drop (idx + 1) targetstr else [] in
        Some ({| isSuffix := true; spat := targetstr;
                 rpat := Some (Regexp.stemPattern left right) |}, true)
    | None => Some ({| isSuffix := false; spat := targetstr; rpat := None |}, false)
    end.

(** The loop of [parseRecipe] over the expanded target texts (lines 616-653):
    the targets of the rule and its [isMeta] flag, which starts as the [R]
    attribute (lines 608-610). *)
Fixpoint parseTargets (regexAttr : bool) (targetstrs : list gostring)
    (acc : list pattern) (isMeta : bool) : option (list pattern * bool) :=
  match targetstrs with
  | [] => Some (acc, isMeta)
  | t :: rest =>
      match targetPattern regexAttr t with
      | None => None
      | Some (p, meta) => parseTargets regexAttr rest (acc ++ [p]) (isMeta || meta)
      end
  end.

End WithCompile.

End Rules.

(* ===================================================================== *)
(** * graph.go: the dependency graph *)
(* ===================================================================== *)

(** Current status of a node in the build. *)
Inductive nodeStatus :=
| nodeStatusReady
| nodeStatusStarted
| nodeStatusNop
| nodeStatusDone
| nodeStatusFailed.

Global Instance nodeStatus_eq_dec : EqDecision nodeStatus.
Proof. solve_decision. Defined.

Module Graph.
Import GoStr.

Local Open Scope char_scope.
Local Open Scope nat_scope.

(** mk.go: the maximum number of times a rule may be applied. *)
Definition maxRuleCnt : nat := 1.

(** An edge in the graph.  Nodes are named by their target and rules by
    their index in [rs.rules]; [v = None] is the nil node. *)
Record edge := {
  v : option gostring;      (* node this edge directs to *)
  stem : gostring;          (* stem matched for meta-rule applications *)
  matches : list gostring;  (* regular expression matches *)
  togo : bool;              (* this edge is going to be pruned *)
  r : nat                   (* the rule *)
}.

Definition nodeFlagCycle : N := 2.
Definition nodeFlagReady : N := 4.
Definition nodeFlagProbable : N := 256.
Definition nodeFlagVacuous : N := 512.

(** A node in the dependency graph. *)
Record node := {
  node_r : option nat;      (* rule to be applied *)
  name : gostring;          (* target name *)
  prog : gostring;          (* custom program to compare times *)
  t : Z;                    (* file modification time *)
  exists_ : bool;           (* does a non-virtual target exist *)
  prereqs : list edge;      (* prerequisite rules *)
  status : nodeStatus;      (* current state of the node in the build *)
  listeners : list nat;     (* channels to notify of completion *)
  flags : N                 (* bitwise combination of node flags *)
}.

Definition setFlag (f : N) (u : node) : node :=
  {| node_r := node_r u; name := name u; prog := prog u; t := t u;
     exists_ := exists_ u; prereqs := prereqs u; status := status u;
     listeners := listeners u; flags := N.lor (flags u) f |}.

Definition addEdge (e : edge) (u : node) : node :=
  {| node_r := node_r u; name := name u; prog := prog u; t := t u;
     exists_ := exists_ u; prereqs := prereqs u ++ [e]; status := status u;
     listeners := listeners u; flags := flags u |}.

Definition setPrereqs (es : list edge) (u : node) : node :=
  {| node_r := node_r u; name := name u; prog := prog u; t := t u;
     exists_ := exists_ u; prereqs := es; status := status u;
     listeners := listeners u; flags := flags u |}.

Definition setTogo (e : edge) : edge :=
  {| v := v e; stem := stem e; matches := matches e; togo := true; r := r e |}.

(** [togo]: the edges of a node that are not marked (lines 529-548). *)
Definition togoEdges (es : list edge) : list edge :=
  filter (fun e => togo e = false) es.

(** ** Ambiguous rules *)

(** The state of the loop of [ambiguous] over the edges of a node: the
    edges, the index of [le] among them and [bad]. *)
Record ambiguity := {
  edges : list edge;
  le : option nat;
  bad : nat
}.

(** One round of the loop of [ambiguous] (lines 607-639) on edge number [i],
    after the visit of the node the edge leads to.  Printing is left out.
    An edge always carries a rule, so [le.r == nil] is never true. *)
Definition ambiguousStep (rules : list Rules.rule) (a : ambiguity) (i : nat)
  : result ambiguity :=
  match edges a !! i with
  | None => Panic
  | Some e =>
      match rules !! r e with
      | None => Panic
      | Some er =>
          if eqb (Rules.recipe er) [] then Ok a
          else
            match le a with
            | None => Ok {| edges := edges a; le := Some i; bad := bad a |}
            | Some l =>
                match edges a !! l with
                | None => Panic
                | Some el =>
                    match rules !! r el with
                    | None => Panic
                    | Some ler =>
                        (* lines 619-629 *)
                        let check (a : ambiguity) (ler : Rules.rule) :=
                          (* lines 630-637 *)
                          if negb (Rules.equivRecipe ler er)
                          then Ok {| edges := edges a; le := le a; bad := 1 |}
                          else Ok a in
                        if negb (Rules.equivRecipe ler er) then
                          if Rules.isMeta ler && negb (Rules.isMeta er) then
                            check {| edges := <[l := setTogo el]> (edges a);
                                     le := Some i; bad := bad a |} er
                          else if negb (Rules.isMeta ler) && Rules.isMeta er then
                            Ok {| edges := <[i := setTogo e]> (edges a);
                                  le := le a; bad := bad a |}
                          else check a ler
                        else check a ler
                    end
                end
            end
      end
  end.


(** ** Walks over the graph *)

(** The nodes of a graph, by target name ([graph.nodes]). *)
Abbreviation nodemap := (gmap gostring node).

Definition hasFlag (f : N) (u : node) : bool := negb (N.land (flags u) f =? 0)%N.

Definition clearFlag (f : N) (u : node) : node :=
  {| node_r := node_r u; name := name u; prog := prog u; t := t u;
     exists_ := exists_ u; prereqs := prereqs u; status := status u;
     listeners := listeners u; flags := N.ldiff (flags u) f |}.

Definition clearTogo (e : edge) : edge :=
  {| v := v e; stem := stem e; matches := matches e; togo := false; r := r e |}.

(** [u.prereqs[i]]; a missing node or an index out of range panics. *)
Definition edgeAt (g : nodemap) (u : gostring) (i : nat) : result edge :=
  match g !! u with
  | None => Panic
  | Some n => match prereqs n !! i with
              | None => Panic
              | Some e => Ok e
              end
  end.

(** A loop [for i := range u.prereqs] whose body works on the graph. *)
Fixpoint forEdges {S : Type} (body : nat -> S -> result S) (range : list nat) (s : S)
  : result S :=
  match range with
  | [] => Ok s
  | i :: range' => let* s' := body i s in forEdges body range' s'
  end.

(** [cyclecheck] (lines 589-601): a node met again while its flag is set,
    with at least one edge, is a fatal error. *)
Fixpoint cyclecheck (fuel : nat) (g : nodemap) (u : gostring) : result nodemap :=
  match fuel with
  | 0 => OutOfFuel
  | S fuel' =>
      match g !! u with
      | None => Panic
      | Some n =>
          if hasFlag nodeFlagCycle n && (0 <? length (prereqs n)) then Exit
          else
            let g := alter (setFlag nodeFlagCycle) u g in
            let* g :=
              forEdges (fun i g =>
                          let* e := edgeAt g u i in
                          match v e with
                          | Some w => cyclecheck fuel' g w
                          | None => Ok g
                          end)
                       (seq 0 (length (prereqs n))) g in
            Ok (alter (clearFlag nodeFlagCycle) u g)
      end
  end.

(** The second loop of [vacuous] (lines 568-578): an edge that is not marked
    unmarks every edge of the same rule. *)
Definition keepSiblings (es : list edge) (i : nat) : list edge :=
  match es !! i with
  | Some e =>
      if negb (togo e)
      then map (fun f => if r e =? r f then clearTogo f else f) es
      else es
  | None => es
  end.

(** [vacuous] (lines 551-586): remove the vacuous children of a node. *)
Fixpoint vacuous (fuel : nat) (rules : list Rules.rule) (g : nodemap) (u : gostring)
  : result (bool * nodemap) :=
  match fuel with
  | 0 => OutOfFuel
  | S fuel' =>
      match g !! u with
      | None => Panic
      | Some n =>
          let vac := (N.land (flags n) nodeFlagProbable =? 0)%N in
          if hasFlag nodeFlagReady n then Ok (vac, g)
          else
            let g := alter (setFlag nodeFlagReady) u g in
            let* '(vac, g) :=
              forEdges (fun i '(vac, g) =>
                          let* e := edgeAt g u i in
                          match v e with
                          | None => Ok (false, g)
                          | Some w =>
                              let* '(vacw, g) := vacuous fuel' rules g w in
                              if vacw then
                                match rules !! r e with
                                | None => Panic
                                | Some rl =>
                                    if Rules.isMeta rl
                                    then Ok (vac,
                                             alter (fun n => setPrereqs
                                                      (alter setTogo i (prereqs n)) n) u g)
                                    else Ok (false, g)
                                end
                              else Ok (false, g)
                          end)
                       (seq 0 (length (prereqs n))) (vac, g) in
            let prune (n : node) :=
              let es := fold_left keepSiblings (seq 0 (length (prereqs n))) (prereqs n) in
              let n := setPrereqs (togoEdges es) n in
              if vac then setFlag nodeFlagVacuous n else n in
            Ok (vac, alter prune u g)
      end
  end.

(** The body of [ambiguous] (lines 604-644); [rec] is the call
    [g.ambiguous(e.v)].  Every round of the loop first visits the node the
    edge leads to, then runs [ambiguousStep] on the edges of [u]. *)
Definition ambiguousBody (rec : nodemap -> gostring -> result nodemap)
    (rules : list Rules.rule) (g : nodemap) (u : gostring) : result nodemap :=
  match g !! u with
  | None => Panic
  | Some n =>
      let* '(g, le, bad) :=
        forEdges (fun i '(g, le, bad) =>
                    let* e := edgeAt g u i in
                    let* g := match v e with
                              | Some w => rec g w
                              | None => Ok g
                              end in
                    match g !! u with
                    | None => Panic
                    | Some n =>
                        let* a := ambiguousStep rules
                                    {| edges := prereqs n; le := le; bad := bad |} i in
                        Ok (alter (setPrereqs (edges a)) u g,
                            Graph.le a, Graph.bad a)
                    end)
                 (seq 0 (length (prereqs n))) (g, None, 0) in
      if 0 <? bad then Exit
      else Ok (alter (fun n => setPrereqs (togoEdges (prereqs n)) n) u g)
  end.

(** [ambiguous]: deal with ambiguous rules, on the whole graph. *)
Fixpoint ambiguous (fuel : nat) (rules : list Rules.rule) (g : nodemap) (u : gostring)
  : result nodemap :=
  match fuel with
  | 0 => OutOfFuel
  | S fuel' => ambiguousBody (ambiguous fuel' rules) rules g u
  end.

(** ** Construction *)

Section WithFiles.

(** [os.Stat]: the modification time of a file that exists. *)
Variable stat : gostring -> option Z.

(** The global flag of [-a]. *)
Variable rebuildAll : bool.

(** [updateTimestamp] (errors other than a missing file are fatal and are
    not modelled). *)
Definition updateTimestamp (u : node) : node :=
  let u1 :=
    match stat (name u) with
    | Some mtime =>
        {| node_r := node_r u; name := name u; prog := prog u; t := mtime;
           exists_ := true; prereqs := prereqs u; status := status u;
           listeners := listeners u; flags := N.lor (flags u) nodeFlagProbable |}
    | None =>
        {| node_r := node_r u; name := name u; prog := prog u; t := 0%Z;
           exists_ := false; prereqs := prereqs u; status := status u;
           listeners := listeners u; flags := flags u |}
    end in
  if rebuildAll then setFlag nodeFlagProbable u1 else u1.

(** [newnode]. *)
Definition newnode (target : gostring) (nodes : gmap gostring node)
  : gmap gostring node :=
  let u := {| node_r := None; name := target; prog := []; t := 0%Z;
              exists_ := false; prereqs := []; status := nodeStatusReady;
              listeners := []; flags := 0%N |} in
  <[target := updateTimestamp u]> nodes.

(** The state of [applyrules]: the nodes of the graph, [rulecnt], and the
    log of the increments of [rulecnt] (rule and new count), a history
    variable. *)
Record build := {
  nodes : gmap gostring node;
  rulecnt : list nat;
  uses : list (nat * nat)
}.

(** [u.newedge(v, r)], with the stem and matches that the caller stores. *)
Definition newedge (u : gostring) (e : edge) (b : build) : build :=
  {| nodes := alter (addEdge e) u (nodes b); rulecnt := rulecnt b; uses := uses b |}.

Definition markProbable (u : gostring) (b : build) : build :=
  {| nodes := alter (setFlag nodeFlagProbable) u (nodes b);
     rulecnt := rulecnt b; uses := uses b |}.

(** [rulecnt[k] += 1]. *)
Definition incr (k : nat) (b : build) : result build :=
  match rulecnt b !! k with
  | None => Panic
  | Some c => Ok {| nodes := nodes b; rulecnt := <[k := c + 1]> (rulecnt b);
                    uses := uses b ++ [(k, c + 1)] |}
  end.

(** [rulecnt[k] -= 1]. *)
Definition decr (k : nat) (b : build) : result build :=
  match rulecnt b !! k with
  | None => Panic
  | Some c => Ok {| nodes := nodes b; rulecnt := <[k := c - 1]> (rulecnt b);
                    uses := uses b |}
  end.

(** [fmt.Sprintf("%d", i)]. *)
Fixpoint digits (fuel i : nat) (acc : gostring) : gostring :=
  match fuel with
  | 0 => acc
  | S fuel' =>
      let acc' := ascii_of_nat (48 + i mod 10) :: acc in
      if i <? 10 then acc' else digits fuel' (i / 10) acc'
  end.

Definition itoa (i : nat) : gostring := digits (S i) i [].

(** Lines 494-497: the variables [stem0], [stem1], ... of a regular
    expression match. *)
Fixpoint matchVars (i : nat) (matches : list gostring)
    (vars : gmap gostring (list gostring)) : gmap gostring (list gostring) :=
  match matches with
  | [] => vars
  | m :: rest => matchVars (S i) rest (<[str "stem" ++ itoa i := [m]]> vars)
  end.

Section Recursion.

(** The recursive call [applyrules(rs, g, prereq, rulecnt)]. *)
Variable rec : gostring -> build -> result build.

(** Lines 457-459: one edge per prerequisite of a concrete rule. *)
Fixpoint concreteEdges (u : gostring) (k : nat) (ps : list gostring) (b : build)
  : result build :=
  match ps with
  | [] => Ok b
  | p :: ps' =>
      let* b1 := rec p b in
      concreteEdges u k ps'
        (newedge u {| v := Some p; stem := []; matches := []; togo := false; r := k |} b1)
  end.

(** Lines 434-462: the rules listed for the target. *)
Fixpoint concreteLoop (rs : Rules.ruleSet) (u : gostring) (ks : list nat) (b : build)
  : result build :=
  match ks with
  | [] => Ok b
  | k :: ks' =>
      match rulecnt b !! k with
      | None => Panic
      | Some c =>
          if maxRuleCnt <? c then concreteLoop rs u ks' b
          else
            match Rules.rules rs !! k with
            | None => Panic
            | Some rl =>
                if Rules.isMeta rl then concreteLoop rs u ks' b
                else if eqb (Rules.recipe rl) [] && (length (Rules.prereqs rl) =? 0)
                then concreteLoop rs u ks' b
                else
                  let b := markProbable u b in
                  let* b := incr k b in
                  let* b :=
                    if length (Rules.prereqs rl) =? 0
                    then Ok (newedge u {| v := None; stem := []; matches := [];
                                          togo := false; r := k |} b)
                    else concreteEdges u k (Rules.prereqs rl) b in
                  let* b := decr k b in
                  concreteLoop rs u ks' b
            end
      end
  end.

(** Lines 508-519: one edge per prerequisite of a meta rule; the name of the
    prerequisite is expanded from the stem or from the matches. *)
Fixpoint metaEdges (fuel : nat) (regexAttr : bool) (u : gostring) (k : nat)
    (stem : gostring) (matches : list gostring)
    (match_vars : gmap gostring (list gostring)) (ps : list gostring) (b : build)
  : result build :=
  match ps with
  | [] => Ok b
  | p :: ps' =>
      let* prereq :=
        if regexAttr then Expand.expandRecipeSigils p match_vars
        else Expand.expandSuffixes fuel p stem in
      let* b1 := rec prereq b in
      metaEdges fuel regexAttr u k stem matches match_vars ps'
        (newedge u {| v := Some prereq; stem := stem; matches := matches;
                      togo := false; r := k |} b1)
  end.

(** Lines 482-522: the targets of a meta rule. *)
Fixpoint metaTargets (fuel : nat) (rl : Rules.rule) (u : gostring) (k : nat)
    (ts : list Rules.pattern) (b : build) : result build :=
  match ts with
  | [] => Ok b
  | p :: ts' =>
      match Rules.pattern_match p u with
      | None => metaTargets fuel rl u k ts' b
      | Some mat =>
          let regexAttr := Rules.regex (Rules.attributes rl) in
          let* '(stem, matches, match_vars) :=
            if regexAttr then Ok ([], mat, matchVars 0 mat ∅)
            else match mat !! 1 with
                 | Some st => Ok (st, [], ∅)
                 | None => Panic
                 end in
          let* b := incr k b in
          let* b :=
            if length (Rules.prereqs rl) =? 0
            then Ok (newedge u {| v := None; stem := stem; matches := matches;
                                  togo := false; r := k |} b)
            else metaEdges fuel regexAttr u k stem matches match_vars
                   (Rules.prereqs rl) b in
          let* b := decr k b in
          metaTargets fuel rl u k ts' b
      end
  end.

(** Lines 466-523: all rules, from index [k] on. *)
Fixpoint metaLoop (fuel : nat) (u : gostring) (k : nat) (rls : list Rules.rule)
    (b : build) : result build :=
  match rls with
  | [] => Ok b
  | rl :: rls' =>
      match rulecnt b !! k with
      | None => Panic
      | Some c =>
          if maxRuleCnt <=? c then metaLoop fuel u (S k) rls' b
          else if negb (Rules.isMeta rl) then metaLoop fuel u (S k) rls' b
          else if eqb (Rules.recipe rl) [] && (length (Rules.prereqs rl) =? 0)
          then metaLoop fuel u (S k) rls' b
          else
            let* b := metaTargets fuel rl u k (Rules.targets rl) b in
            metaLoop fuel u (S k) rls' b
      end
  end.

End Recursion.

(** [applyrules]: match the target to the rules and build its node, then
    those of its prerequisites.  [fuel] bounds the depth of the recursion
    and the loop of [expandSuffixes]. *)
Fixpoint applyrules (fuel : nat) (rs : Rules.ruleSet) (target : gostring)
    (b : build) : result build :=
  match fuel with
  | 0 => OutOfFuel
  | S fuel' =>
      match nodes b !! target with
      | Some _ => Ok b
      | None =>
          let b := {| nodes := newnode target (nodes b); rulecnt := rulecnt b;
                      uses := uses b |} in
          let* b := concreteLoop (applyrules fuel' rs) rs target
                      (default [] (Rules.targetRules rs !! target)) b in
          metaLoop (applyrules fuel' rs) fuel' target 0 (Rules.rules rs) b
      end
  end.

(** [buildgraph], up to the end of [applyrules]: an empty graph and a count
    of zero for every rule. *)
Definition buildgraph_applyrules (fuel : nat) (rs : Rules.ruleSet)
    (target : gostring) : result build :=
  applyrules fuel rs target
    {| nodes := ∅; rulecnt := repeat 0 (length (Rules.rules rs)); uses := [] |}.

(** A dependency graph. *)
Record graph := {
  root : gostring;   (* the initial target's node *)
  graph_nodes : nodemap
}.

(** [buildgraph]: create a dependency graph for the given target. *)
Definition buildgraph (fuel : nat) (rs : Rules.ruleSet) (target : gostring)
  : result graph :=
  let* b := buildgraph_applyrules fuel rs target in
  let* g := cyclecheck fuel (nodes b) target in
  let g := alter (setFlag nodeFlagProbable) target g in
  let* '(_, g) := vacuous fuel (Rules.rules rs) g target in
  let* g := ambiguous fuel (Rules.rules rs) g target in
  Ok {| root := target; graph_nodes := g |}.

End WithFiles.

End Graph.

(* ===================================================================== *)
(** * mk.go: the staleness decision of mkNode *)
(* ===================================================================== *)

Module Mk.

(** What the staleness check of [mkNode] reads of a prerequisite node: its
    modification time [t] and its [status]. *)
Record prereqView := { p_t : Z; p_status : nodeStatus }.

(** [time.Time.Before]. *)
Definition Before (a b : Z) : bool := a <? b.

(** The loop of mk.go lines 239-243 over the prerequisites: [uptodate] is
    cleared as soon as one prerequisite is newer than the target or has just
    been rebuilt. *)
Fixpoint prereqLoop (u_t : Z) (prereqs : list prereqView) (uptodate : bool) : bool :=
  match prereqs with
  | [] => uptodate
  | p :: rest =>
      let uptodate' :=
        if Before u_t (p_t p) || bool_decide (p_status p = nodeStatusDone)
        then false else uptodate in
      prereqLoop u_t rest uptodate'
  end.

(** mk.go lines 233-254.  [u_exists] and [u_t] are the node's fields after
    [u.updateTimestamp()]; [e_virtual] is [e.r.attributes.virtual];
    [isrebuildtarget] is the membership of [u.name] in [rebuildtargets]. *)
Definition uptodate (e_virtual u_exists : bool) (u_t : Z) (required : bool)
    (prereqs : list prereqView) (isrebuildtarget rebuildall : bool) : bool :=
  let uptodate :=
    if negb e_virtual then
      if negb u_exists && required then false
      else if u_exists || required then prereqLoop u_t prereqs true
      else if required then false
      else true
    else false in
  if isrebuildtarget || rebuildall then false else uptodate.


(** ** The status of a node during execution (mk.go lines 137-200) *)

(** A completion channel ([chan nodeStatus]), by identity. *)
Abbreviation chan := nat.

(** The fields of a node that [mkNode] and [mkNodePrereqs] guard with
    [u.mutex]. *)
Record nodeSt := { status : nodeStatus; listeners : list chan }.

(** mk.go lines 181-188: the claim at the entry of [mkNode].  [None] is the
    early [return]; otherwise the node is [Started]. *)
Definition mkNode_claim (u : nodeSt) : option nodeSt :=
  if negb (bool_decide (status u = nodeStatusReady))
     && negb (bool_decide (status u = nodeStatusNop))
  then None
  else Some {| status := nodeStatusStarted; listeners := listeners u |}.

(** mk.go lines 192-200: the deferred function.  It stores [finalstatus],
    sends the new status on every listener, in order, and empties the list.
    The second component lists the sends. *)
Definition mkNode_deferred (u : nodeSt) (finalstatus : nodeStatus)
  : nodeSt * list (chan * nodeStatus) :=
  let u1 := {| status := finalstatus; listeners := listeners u |} in
  ({| status := status u1; listeners := [] |},
   map (fun c => (c, status u1)) (listeners u1)).

(** The value of [finalstatus] when [mkNode] returns (lines 191, 203-210 and
    262-281), from what the body observed: the number of edges of the node,
    the staleness decision, the length of the recipe and the result of
    [dorecipe]. *)
Definition mkNode_finalstatus (nprereqs : nat) (uptodate : bool)
    (recipe_len : nat) (dorecipe_ok : bool) : nodeStatus :=
  let finalstatus := nodeStatusDone in
  if (nprereqs =? 0)%nat then nodeStatusNop
  else if negb uptodate && negb (bool_decide (finalstatus = nodeStatusFailed))
          && (0 <? recipe_len)%nat
  then (if negb dorecipe_ok then nodeStatusFailed else finalstatus)
  else if negb (bool_decide (finalstatus = nodeStatusFailed)) then nodeStatusNop
  else finalstatus.

(** mk.go lines 144-153: one iteration of the loop of [mkNodePrereqs] on a
    prerequisite, with the caller's channel [prereqstat].  The result is the
    prerequisite, whether [go mkNode] was issued, and the increment of
    [pending]. *)
Definition mkNodePrereqs_visit (p : nodeSt) (prereqstat : chan)
  : nodeSt * bool * nat :=
  match status p with
  | nodeStatusReady | nodeStatusNop =>
      ({| status := status p; listeners := listeners p ++ [prereqstat] |}, true, 1%nat)
  | nodeStatusStarted =>
      ({| status := status p; listeners := listeners p ++ [prereqstat] |}, false, 1%nat)
  | _ => (p, false, 0%nat)
  end.

(** One node and the goroutines that run [mkNode] on it.  Goroutines are
    anonymous: [entering] counts the calls of [mkNode] that have not yet taken
    the mutex at line 181, [running] those between the claim and the deferred
    function.  [sent] is the log of the messages sent on the channels and
    [subscribed] the log of the channels appended to [listeners]; both are
    history variables. *)
Record sys := {
  node : nodeSt;
  entering : nat;
  running : nat;
  sent : list (chan * nodeStatus);
  subscribed : list chan
}.

(** The node of a fresh graph: [Ready], no listener.  [main] calls [mkNode]
    on the root itself ([calls = 1]); any other node starts with no call. *)
Definition initial (calls : nat) : sys :=
  {| node := {| status := nodeStatusReady; listeners := [] |};
     entering := calls; running := 0%nat; sent := []; subscribed := [] |}.

Inductive step : sys -> sys -> Prop :=
| step_visit s c p' spawned pending :
    (* a parent runs an iteration of mkNodePrereqs on this node *)
    mkNodePrereqs_visit (node s) c = (p', spawned, pending) ->
    step s {| node := p';
              entering := (entering s + (if spawned then 1 else 0))%nat;
              running := running s;
              sent := sent s;
              subscribed := subscribed s ++ repeat c pending |}
| step_claim s u' :
    (* a call of mkNode takes the mutex and claims the node *)
    (0 < entering s)%nat ->
    mkNode_claim (node s) = Some u' ->
    step s {| node := u'; entering := (entering s - 1)%nat;
              running := S (running s);
              sent := sent s; subscribed := subscribed s |}
| step_return s :
    (* a call of mkNode takes the mutex and returns at line 184 *)
    (0 < entering s)%nat ->
    mkNode_claim (node s) = None ->
    step s {| node := node s; entering := (entering s - 1)%nat;
              running := running s;
              sent := sent s; subscribed := subscribed s |}
| step_finish s nprereqs uptodate recipe_len ok u' msgs :
    (* a call of mkNode that claimed the node runs its deferred function *)
    (0 < running s)%nat ->
    mkNode_deferred (node s)
      (mkNode_finalstatus nprereqs uptodate recipe_len ok) = (u', msgs) ->
    step s {| node := u'; entering := entering s;
              running := (running s - 1)%nat;
              sent := sent s ++ msgs; subscribed := subscribed s |}.

Inductive reachable : sys -> Prop :=
| reachable_root : reachable (initial 1)
| reachable_inner : reachable (initial 0)
| reachable_step s s' : reachable s -> step s s' -> reachable s'.




(** ** The command line and the subprocess slots (mk.go lines 70-98, 318-332) *)

(** The variables that [main] registers with package flag. *)
Record options := {
  mkfilepath : gostring;
  dryrun : bool;
  shallowrebuild : bool;
  rebuildall : bool;
  subprocsAllowed : Z;
  interactive : bool;
  quiet : bool
}.

(** The default values passed to [flag.StringVar], [flag.BoolVar] and
    [flag.IntVar] (lines 325-331). *)
Definition flagDefaults : options :=
  {| mkfilepath := str "mkfile"; dryrun := false; shallowrebuild := false;
     rebuildall := false; subprocsAllowed := 4; interactive := false;
     quiet := false |}.

(** A flag on the command line, with its parsed value. *)
Inductive flagArg :=
| flag_f (path : gostring)
| flag_n (b : bool)
| flag_r (b : bool)
| flag_a (b : bool)
| flag_p (n : Z)
| flag_i (b : bool)
| flag_q (b : bool).

(** What package flag stores for one flag. *)
Definition flagSet (o : options) (a : flagArg) : options :=
  match a with
  | flag_f path =>
      {| mkfilepath := path; dryrun := dryrun o; shallowrebuild := shallowrebuild o;
         rebuildall := rebuildall o; subprocsAllowed := subprocsAllowed o;
         interactive := interactive o; quiet := quiet o |}
  | flag_n b =>
      {| mkfilepath := mkfilepath o; dryrun := b; shallowrebuild := shallowrebuild o;
         rebuildall := rebuildall o; subprocsAllowed := subprocsAllowed o;
         interactive := interactive o; quiet := quiet o |}
  | flag_r b =>
      {| mkfilepath := mkfilepath o; dryrun := dryrun o; shallowrebuild := b;
         rebuildall := rebuildall o; subprocsAllowed := subprocsAllowed o;
         interactive := interactive o; quiet := quiet o |}
  | flag_a b =>
      {| mkfilepath := mkfilepath o; dryrun := dryrun o; shallowrebuild := shallowrebuild o;
         rebuildall := b; subprocsAllowed := subprocsAllowed o;
         interactive := interactive o; quiet := quiet o |}
  | flag_p n =>
      {| mkfilepath := mkfilepath o; dryrun := dryrun o; shallowrebuild := shallowrebuild o;
         rebuildall := rebuildall o; subprocsAllowed := n;
         interactive := interactive o; quiet := quiet o |}
  | flag_i b =>
      {| mkfilepath := mkfilepath o; dryrun := dryrun o; shallowrebuild := shallowrebuild o;
         rebuildall := rebuildall o; subprocsAllowed := subprocsAllowed o;
         interactive := b; quiet := quiet o |}
  | flag_q b =>
      {| mkfilepath := mkfilepath o; dryrun := dryrun o; shallowrebuild := shallowrebuild o;
         rebuildall := rebuildall o; subprocsAllowed := subprocsAllowed o;
         interactive := interactive o; quiet := b |}
  end.

(** [flag.Parse]: the defaults, then the flags of the command line in order. *)
Definition flagParse (args : list flagArg) : options :=
  fold_left flagSet args flagDefaults.

(** [reserveSubproc] (lines 83-90): the caller waits while
    [subprocsRunning >= subprocsAllowed] ([None]), then takes a slot. *)
Definition reserveSubproc (allowed subprocsRunning : Z) : option Z :=
  if subprocsRunning >=? allowed then None else Some (subprocsRunning + 1).

(** [finishSubproc] (lines 93-98). *)
Definition finishSubproc (subprocsRunning : Z) : Z := subprocsRunning - 1.

End Mk.

(* ===================================================================== *)
(** * rules.go: the attributes of a rule *)
(* ===================================================================== *)

Module Attribs.
Import GoStr Rules.

Local Open Scope char_scope.
Local Open Scope nat_scope.

Definition setAttributes (a : attribSet) (r : rule) : rule :=
  {| targets := targets r; attributes := a; prereqs := prereqs r; shell := shell r;
     recipe := recipe r; command := command r; isMeta := isMeta r; file := file r;
     line := line r |}.

(** [r.command = append(r.command, ws...)]. *)
Definition appendCommand (ws : list gostring) (r : rule) : rule :=
  {| targets := targets r; attributes := attributes r; prereqs := prereqs r;
     shell := shell r; recipe := recipe r; command := command r ++ ws;
     isMeta := isMeta r; file := file r; line := line r |}.

(** [r.shell = append(r.shell, ws...)]. *)
Definition appendShell (ws : list gostring) (r : rule) : rule :=
  {| targets := targets r; attributes := attributes r; prereqs := prereqs r;
     shell := shell r ++ ws; recipe := recipe r; command := command r;
     isMeta := isMeta r; file := file r; line := line r |}.

(** The cases of the [switch] of [parseAttribs] that set a flag (lines
    144-161); [None] for a rune of another case. *)
Definition setAttrib (c : ascii) (a : attribSet) : option attribSet :=
  if Ascii.eqb c "D" then
    Some {| delFailed := true; nonstop := nonstop a; forcedTimestamp := forcedTimestamp a;
            nonVirtual := nonVirtual a; quiet := quiet a; regex := regex a;
            update := update a; virtual := virtual a; exclusive := exclusive a |}
  else if Ascii.eqb c "E" then
    Some {| delFailed := delFailed a; nonstop := true; forcedTimestamp := forcedTimestamp a;
            nonVirtual := nonVirtual a; quiet := quiet a; regex := regex a;
            update := update a; virtual := virtual a; exclusive := exclusive a |}
  else if Ascii.eqb c "N" then
    Some {| delFailed := delFailed a; nonstop := nonstop a; forcedTimestamp := true;
            nonVirtual := nonVirtual a; quiet := quiet a; regex := regex a;
            update := update a; virtual := virtual a; exclusive := exclusive a |}
  else if Ascii.eqb c "n" then
    Some {| delFailed := delFailed a; nonstop := nonstop a;
            forcedTimestamp := forcedTimestamp a;
            nonVirtual := true; quiet := quiet a; regex := regex a;
            update := update a; virtual := virtual a; exclusive := exclusive a |}
  else if Ascii.eqb c "Q" then
    Some {| delFailed := delFailed a; nonstop := nonstop a;
            forcedTimestamp := forcedTimestamp a;
            nonVirtual := nonVirtual a; quiet := true; regex := regex a;
            update := update a; virtual := virtual a; exclusive := exclusive a |}
  else if Ascii.eqb c "R" then
    Some {| delFailed := delFailed a; nonstop := nonstop a;
            forcedTimestamp := forcedTimestamp a;
            nonVirtual := nonVirtual a; quiet := quiet a; regex := true;
            update := update a; virtual := virtual a; exclusive := exclusive a |}
  else if Ascii.eqb c "U" then
    Some {| delFailed := delFailed a; nonstop := nonstop a;
            forcedTimestamp := forcedTimestamp a;
            nonVirtual := nonVirtual a; quiet := quiet a; regex := regex a;
            update := true; virtual := virtual a; exclusive := exclusive a |}
  else if Ascii.eqb c "V" then
    Some {| delFailed := delFailed a; nonstop := nonstop a;
            forcedTimestamp := forcedTimestamp a;
            nonVirtual := nonVirtual a; quiet := quiet a; regex := regex a;
            update := update a; virtual := true; exclusive := exclusive a |}
  else if Ascii.eqb c "X" then
    Some {| delFailed := delFailed a; nonstop := nonstop a;
            forcedTimestamp := forcedTimestamp a;
            nonVirtual := nonVirtual a; quiet := quiet a; regex := regex a;
            update := update a; virtual := virtual a; exclusive := true |}
  else None.

(** The inner loop of [parseAttribs] (lines 141-181) on what is left of one
    input, [input[pos:]]; [later] is [inputs[i+1:]].  The second component is
    [None] when the loop ends with the input, and the value returned when the
    loop returns: [None] for nil, the rune found for an [attribError]. *)
Fixpoint parseAttribs_input (r : rule) (input : gostring) (later : list gostring)
  : rule * option (option rune) :=
  match input with
  | [] => (r, None)
  | c :: rest =>
      match setAttrib c (attributes r) with
      | Some a => parseAttribs_input (setAttributes a r) rest later
      | None =>
          if Ascii.eqb c "P" then
            let r := if 0 <? length rest then appendCommand [rest] r else r in
            (appendCommand later r, Some None)
          else if Ascii.eqb c "S" then
            let r := if 0 <? length rest then appendShell [rest] r else r in
            (appendShell later r, Some None)
          else (r, Some (Some (Some c)))
      end
  end.

(** [parseAttribs]: read attributes from an array of strings, updating the
    rule.  The rule is updated also when an error is returned. *)
Fixpoint parseAttribs (r : rule) (inputs : list gostring) : rule * option rune :=
  match inputs with
  | [] => (r, None)
  | input :: later =>
      match parseAttribs_input r input later with
      | (r, None) => parseAttribs r later
      | (r, Some e) => (r, e)
      end
  end.

End Attribs.

(* ===================================================================== *)
(** * recipe.go: recipes *)
(* ===================================================================== *)

Module Recipe.
Import GoStr.

Local Open Scope char_scope.
Local Open Scope nat_scope.

Definition newline : ascii := Eval vm_compute in ascii_of_nat 10.

(** [bufio.Reader.ReadString('\n')] on what is left of the text: the line
    with its newline, what is left after it, and whether the text ended
    before a newline ([err != nil]). *)
Fixpoint ReadString (s : gostring) : gostring * gostring * bool :=
  match s with
  | [] => ([], [], true)
  | c :: s' =>
      if Ascii.eqb c newline then ([c], s', false)
      else let '(line, rest, err) := ReadString s' in (c :: line, rest, err)
  end.

(** The inner loop of [stripIndentation] (lines 69-77) on [line[i:]]: at
    most [minCol] blanks are skipped; the result is [line[i:]] after the
    loop. *)
Fixpoint stripLine (line : gostring) (col minCol : nat) : gostring :=
  match line with
  | [] => []
  | c :: rest =>
      if col <? minCol then
        if mem c [" "; Expand.tab; newline] then stripLine rest (col + 1) minCol
        else line
      else line
  end.

(** The loop of [stripIndentation] over the lines. *)
Fixpoint stripIndentation_loop (fuel : nat) (s : gostring) (minCol : nat)
    (output : gostring) : result gostring :=
  match fuel with
  | 0 => OutOfFuel
  | S fuel' =>
      let '(line, rest, err) := ReadString s in
      let output := output ++ stripLine line 0 minCol in
      if err then Ok output else stripIndentation_loop fuel' rest minCol output
  end.

(** [stripIndentation]: try to unindent a recipe.  Every round of the loop
    reads a line, so [len(s) + 1] rounds are enough. *)
Definition stripIndentation (s : gostring) (minCol : nat) : result gostring :=
  stripIndentation_loop (S (length s)) s minCol [].



Definition recipeShell (r : Rules.rule) : gostring * list gostring :=
  match Rules.shell r with
  | [] => (str "sh", [])
  | sh :: args => (sh, args)
  end.

End Recipe.

(* ===================================================================== *)
(** * mk.go: the subprocess slots *)
(* ===================================================================== *)

Module Slots.
Import Mk.

(** [reserveExclusiveSubproc], lines 106-107, under the lock of the
    condition: the free slots are stolen.  The result is [stolen_subprocs]
    and the new [subprocsRunning]. *)
Definition stealSubprocs (allowed stolen subprocsRunning : Z) : Z * Z :=
  (stolen + (allowed - subprocsRunning), allowed).

(** The test of the loop of [reserveExclusiveSubproc] (line 108): the
    caller waits while it holds fewer slots than there are. *)
Definition exclusiveWaits (allowed stolen : Z) : bool := stolen <? allowed.

(** [finishExclusiveSubproc], line 116. *)
Definition finishExclusiveSubproc : Z := 0.

(** The goroutine that holds the mutex [exclusiveSubproc], if any: it waits
    on the condition with the slots it has stolen so far, or it runs its
    recipe, still holding the lock of the condition. *)
Inductive exclusive :=
| NoExclusive
| ExclusiveWaiting (stolen : Z)
| ExclusiveRunning.

(** The state of the slots: the variable [subprocsRunning], the number of
    goroutines between [reserveSubproc] and [finishSubproc] (they run a
    recipe), and the exclusive goroutine. *)
Record slots := {
  subprocsRunning : Z;
  recipes : nat;
  excl : exclusive
}.

Definition initial : slots :=
  {| subprocsRunning := 0; recipes := 0; excl := NoExclusive |}.

(** What a goroutine does while it holds the lock of the condition is one
    step.  While an exclusive recipe runs its goroutine holds that lock, so
    no other step is taken. *)
Inductive step (allowed : Z) : slots -> slots -> Prop :=
| step_reserve s running' :
    excl s <> ExclusiveRunning ->
    reserveSubproc allowed (subprocsRunning s) = Some running' ->
    step allowed s {| subprocsRunning := running'; recipes := S (recipes s);
                      excl := excl s |}
| step_finish s n :
    excl s <> ExclusiveRunning ->
    recipes s = S n ->
    step allowed s {| subprocsRunning := finishSubproc (subprocsRunning s);
                      recipes := n; excl := excl s |}
| step_exclusive s stolen running' :
    (* lines 102-107: the mutex is free; the first theft *)
    excl s = NoExclusive ->
    stealSubprocs allowed 0 (subprocsRunning s) = (stolen, running') ->
    step allowed s {| subprocsRunning := running'; recipes := recipes s;
                      excl := if exclusiveWaits allowed stolen
                              then ExclusiveWaiting stolen else ExclusiveRunning |}
| step_wake s stolen stolen' running' :
    (* lines 109-111: the waiting goroutine wakes up and steals again *)
    excl s = ExclusiveWaiting stolen ->
    stealSubprocs allowed stolen (subprocsRunning s) = (stolen', running') ->
    step allowed s {| subprocsRunning := running'; recipes := recipes s;
                      excl := if exclusiveWaits allowed stolen'
                              then ExclusiveWaiting stolen' else ExclusiveRunning |}
| step_finishExclusive s :
    excl s = ExclusiveRunning ->
    step allowed s {| subprocsRunning := finishExclusiveSubproc; recipes := recipes s;
                      excl := NoExclusive |}.

Inductive reachable (allowed : Z) : slots -> Prop :=
| reachable_initial : reachable allowed initial
| reachable_step s s' : reachable allowed s -> step allowed s s' -> reachable allowed s'.

End Slots.

(* ===================================================================== *)
(** * lex.go: the lexer (src/rules.go, lines 677-1128) *)
(* ===================================================================== *)

Module Token.

Inductive tokenType :=
| tokenError
| tokenNewline
| tokenWord
| tokenPipeInclude
| tokenRedirInclude
| tokenColon
| tokenAssign
| tokenRecipe.

Global Instance tokenType_eq_dec : EqDecision tokenType.
Proof. solve_decision. Defined.

Record token := {
  typ : tokenType;  (* token type *)
  val : gostring;   (* token string *)
  line : nat;       (* line where it was found *)
  col : nat         (* column on which the token began *)
}.

End Token.

Module Lex.
Import GoStr Token.

Local Open Scope char_scope.
Local Open Scope nat_scope.

Definition newline : ascii := Eval vm_compute in ascii_of_nat 10.
Definition cr : ascii := Eval vm_compute in ascii_of_nat 13.

(** [const eof rune = '\000']. *)
Definition eof : rune := Some (ascii_of_nat 0).

(** [==] on runes. *)
Definition runeEq (a b : rune) : bool := bool_decide (a = b).

(** [strings.IndexRune(chars, c) >= 0] for a rune that was decoded. *)
Definition runeIn (c : rune) (chars : gostring) : bool :=
  match c with
  | Some a => mem a chars
  | None => false
  end.

(** Runes that cannot be part of a bare (unquoted) string. *)
Definition nonBareRunes : gostring :=
  [" "; Expand.tab; newline; cr; "\"; "="; ":"; "#"; "'"; Expand.dquote; "$"].

(** [onlyWhitespace]: as the code has it, true when the string contains no
    white space. *)
Definition onlyWhitespace (s : gostring) : bool :=
  match IndexAny s [" "; Expand.tab; cr; newline] with
  | None => true
  | Some _ => false
  end.

(** The lexer.  [output] lists the tokens sent on the channel so far. *)
Record lexer := {
  input : gostring;      (* input string to be lexed *)
  output : list token;   (* channel on which tokens are sent *)
  start : nat;           (* token beginning *)
  startCol : nat;        (* column on which the token begins *)
  pos : nat;             (* position within input *)
  line : nat;            (* line within input *)
  col : nat;             (* column within input *)
  errMsg : gostring;     (* set to an appropriate error message when necessary *)
  indented : bool;       (* true if the only whitespace so far on this line *)
  bareWords : bool       (* lex only a sequence of words *)
}.

(** Assignments to the fields. *)
Definition setPos (pos' line' col' : nat) (indented' : bool) (l : lexer) : lexer :=
  {| input := input l; output := output l; start := start l; startCol := startCol l;
     pos := pos'; line := line'; col := col'; errMsg := errMsg l;
     indented := indented'; bareWords := bareWords l |}.

Definition setStart (start' startCol' : nat) (l : lexer) : lexer :=
  {| input := input l; output := output l; start := start'; startCol := startCol';
     pos := pos l; line := line l; col := col l; errMsg := errMsg l;
     indented := indented l; bareWords := bareWords l |}.

Definition send (t : token) (l : lexer) : lexer :=
  {| input := input l; output := output l ++ [t]; start := start l;
     startCol := startCol l; pos := pos l; line := line l; col := col l;
     errMsg := errMsg l; indented := indented l; bareWords := bareWords l |}.

Definition setErrMsg (what : gostring) (l : lexer) : lexer :=
  {| input := input l; output := output l; start := start l; startCol := startCol l;
     pos := pos l; line := line l; col := col l; errMsg := what;
     indented := indented l; bareWords := bareWords l |}.

(** [peekN]: the nth character without advancing. *)
Definition peekN (l : lexer) (n : nat) : rune :=
  match drop (pos l) (input l) !! n with
  | Some c => Some c
  | None => eof
  end.

(** [peek]: the next character without advancing. *)
Definition peek (l : lexer) : rune := peekN l 0.

(** [next]: consume and return the next character. *)
Definition next (l : lexer) : rune * lexer :=
  if length (input l) <=? pos l then (eof, l)
  else
    let '(c, width) := DecodeRuneInString (drop (pos l) (input l)) in
    let pos' := pos l + width in
    if runeIs c newline then (c, setPos pos' (line l + 1) 0 true l)
    else (c, setPos pos' (line l) (col l + 1)
               (if runeIn c [" "; Expand.tab] then indented l else false) l).

(** [skip]: skip the next character. *)
Definition skip (l : lexer) : lexer :=
  let l := snd (next l) in
  setStart (pos l) (col l) l.

(** [emit]. *)
Definition emit (typ : tokenType) (l : lexer) : result lexer :=
  let* text := slice (input l) (start l) (pos l) in
  let l := send {| Token.typ := typ; val := text; Token.line := line l;
                   Token.col := startCol l |} l in
  Ok (setStart (pos l) 0 l).

(** [lexError]. *)
Definition lexError (what : gostring) (l : lexer) : result lexer :=
  let l := if eqb (errMsg l) [] then setErrMsg what l else l in
  emit tokenError l.

(** [accept]: consume the next rune if it is in the given string. *)
Definition accept (valid : gostring) (l : lexer) : bool * lexer :=
  if runeIn (peek l) valid then (true, snd (next l)) else (false, l).

(** A loop [for cond { body }] of the scanning functions.  A round either
    consumes a byte or finds the lexer where it was, so more rounds than
    there are bytes left never end. *)
Fixpoint while (fuel : nat) (cond : lexer -> bool) (body : lexer -> lexer) (l : lexer)
  : result lexer :=
  match fuel with
  | 0 => OutOfFuel
  | S fuel' => if cond l then while fuel' cond body (body l) else Ok l
  end.

Definition rounds (l : lexer) : nat := S (length (input l) - pos l).

(** [acceptRun]: consume characters from the valid string until the next is
    not.  (No caller uses the count that the function returns.) *)
Definition acceptRun (valid : gostring) (l : lexer) : result lexer :=
  while (rounds l) (fun l => runeIn (peek l) valid) (fun l => snd (next l)) l.

Definition eofWhileLooking (invalid : gostring) : gostring :=
  str "end of file encountered while looking for one of: " ++ invalid.

(** [acceptUntilOrEof]. *)
Definition acceptUntilOrEof (invalid : gostring) (l : lexer) : result lexer :=
  while (rounds l)
    (fun l => (pos l <? length (input l)) && negb (runeIn (peek l) invalid))
    (fun l => snd (next l)) l.

(** [acceptUntil]: accept until something from the given string is
    encountered. *)
Definition acceptUntil (invalid : gostring) (l : lexer) : result lexer :=
  let* l := acceptUntilOrEof invalid l in
  if runeEq (peek l) eof then lexError (eofWhileLooking invalid) l else Ok l.

(** [skipRun]: skip characters from the valid string until the next is not. *)
Definition skipRun (valid : gostring) (l : lexer) : result lexer :=
  while (rounds l) (fun l => runeIn (peek l) valid) skip l.

(** [skipUntil]: skip until something from the given string is encountered. *)
Definition skipUntil (invalid : gostring) (l : lexer) : result lexer :=
  let* l :=
    while (rounds l)
      (fun l => (pos l <? length (input l)) && negb (runeIn (peek l) invalid))
      skip l in
  if runeEq (peek l) eof then lexError (eofWhileLooking invalid) l else Ok l.

(** The state functions, by name; [None] stands for nil. *)
Inductive lexerStateFun :=
| fun_lexTopLevel
| fun_lexColon
| fun_lexAssign
| fun_lexComment
| fun_lexInclude
| fun_lexDoubleQuotedWord
| fun_lexBackQuotedWord
| fun_lexSingleQuotedWord
| fun_lexRecipe
| fun_lexBareWord
| fun_lexBracketExpansion.

Abbreviation nextState := (option lexerStateFun).

(** The loop of [lexTopLevel] (lines 959-979).  The first component is
    [Some] for the [return nil] of the loop. *)
Fixpoint lexTopLevel_loop (fuel : nat) (l : lexer) : result (option nextState * lexer) :=
  match fuel with
  | 0 => OutOfFuel
  | S fuel' =>
      let* l := skipRun [" "; Expand.tab; cr] l in
      let* '(ret, l) :=
        if runeIs (peek l) newline && negb (indented l) then
          let l := snd (next l) in
          if bareWords l then Ok (true, l)
          else let* l := emit tokenNewline l in Ok (false, l)
        else Ok (false, l) in
      if (ret : bool) then Ok (Some None, l)
      else
        let* l := skipRun [" "; Expand.tab; cr; newline] l in
        if runeIs (peek l) "\" && runeIs (peekN l 1) newline then
          let l := snd (next l) in
          let l := snd (next l) in
          lexTopLevel_loop fuel' (setPos (pos l) (line l) (col l) false l)
        else Ok (None, l)
  end.

Definition lexTopLevel (fuel : nat) (l : lexer) : result (nextState * lexer) :=
  let* '(ret, l) := lexTopLevel_loop fuel l in
  match ret with
  | Some st => Ok (st, l)
  | None =>
      if indented l && (0 <? col l) then Ok (Some fun_lexRecipe, l)
      else
        let c := peek l in
        if runeEq c eof then Ok (None, l)
        else if runeIs c "#" then Ok (Some fun_lexComment, l)
        else if runeIs c "<" then Ok (Some fun_lexInclude, l)
        else if runeIs c ":" then Ok (Some fun_lexColon, l)
        else if runeIs c "=" then Ok (Some fun_lexAssign, l)
        else if runeIs c Expand.dquote then Ok (Some fun_lexDoubleQuotedWord, l)
        else if runeIs c "'" then Ok (Some fun_lexSingleQuotedWord, l)
        else if runeIs c "`" then Ok (Some fun_lexBackQuotedWord, l)
        else Ok (Some fun_lexBareWord, l)
  end.

Definition lexColon (l : lexer) : result (nextState * lexer) :=
  let l := snd (next l) in
  let* l := emit tokenColon l in
  Ok (Some fun_lexTopLevel, l).

Definition lexAssign (l : lexer) : result (nextState * lexer) :=
  let l := snd (next l) in
  let* l := emit tokenAssign l in
  Ok (Some fun_lexTopLevel, l).

Definition lexComment (l : lexer) : result (nextState * lexer) :=
  let l := skip l in
  let* l := skipUntil [newline] l in
  Ok (Some fun_lexTopLevel, l).

Definition lexInclude (l : lexer) : result (nextState * lexer) :=
  let l := snd (next l) in
  let '(piped, l) := accept ["|"] l in
  let* l := if (piped : bool) then emit tokenPipeInclude l else emit tokenRedirInclude l in
  Ok (Some fun_lexTopLevel, l).

(** The loop of [lexDoubleQuotedWord] (lines 1038-1043). *)
Fixpoint lexDoubleQuotedWord_loop (fuel : nat) (l : lexer) : result lexer :=
  match fuel with
  | 0 => OutOfFuel
  | S fuel' =>
      if negb (runeIs (peek l) Expand.dquote) && negb (runeEq (peek l) eof) then
        let* l := acceptUntil ["\"; Expand.dquote] l in
        let '(escaped, l) := accept ["\"] l in
        let l := if (escaped : bool) then snd (accept [Expand.dquote] l) else l in
        lexDoubleQuotedWord_loop fuel' l
      else Ok l
  end.

Definition lexDoubleQuotedWord (fuel : nat) (l : lexer) : result (nextState * lexer) :=
  let l := snd (next l) in
  let* l := lexDoubleQuotedWord_loop fuel l in
  let* l :=
    if runeEq (peek l) eof
    then lexError (str "end of file encountered while parsing a quoted string.") l
    else Ok l in
  let l := snd (next l) in
  Ok (Some fun_lexBareWord, l).

Definition lexBackQuotedWord (l : lexer) : result (nextState * lexer) :=
  let l := snd (next l) in
  let* l := acceptUntil ["`"] l in
  let l := snd (next l) in
  Ok (Some fun_lexBareWord, l).

Definition lexSingleQuotedWord (l : lexer) : result (nextState * lexer) :=
  let l := snd (next l) in
  let* l := acceptUntil ["'"] l in
  let l := snd (next l) in
  Ok (Some fun_lexBareWord, l).

(** The loop of [lexRecipe] (lines 1068-1074). *)
Fixpoint lexRecipe_loop (fuel : nat) (l : lexer) : result lexer :=
  match fuel with
  | 0 => OutOfFuel
  | S fuel' =>
      let* l := acceptUntilOrEof [newline] l in
      let* l := acceptRun [" "; Expand.tab; newline; cr] l in
      if negb (indented l) || (col l =? 0) then Ok l
      else lexRecipe_loop fuel' l
  end.

Definition lexRecipe (fuel : nat) (l : lexer) : result (nextState * lexer) :=
  let* l := lexRecipe_loop fuel l in
  let* text := slice (input l) (start l) (pos l) in
  let* l := if negb (onlyWhitespace text) then emit tokenRecipe l else Ok l in
  Ok (Some fun_lexTopLevel, l).

Definition lexBareWord (l : lexer) : result (nextState * lexer) :=
  let* l := acceptUntil nonBareRunes l in
  let c := peek l in
  if runeIs c Expand.dquote then Ok (Some fun_lexDoubleQuotedWord, l)
  else if runeIs c "'" then Ok (Some fun_lexSingleQuotedWord, l)
  else if runeIs c "`" then Ok (Some fun_lexBackQuotedWord, l)
  else if runeIs c "\" then
    let c1 := peekN l 1 in
    if runeIs c1 newline || runeIs c1 cr then
      let* l := if start l <? pos l then emit tokenWord l else Ok l in
      let l := skip l in
      let l := skip l in
      Ok (Some fun_lexTopLevel, l)
    else
      let l := snd (next l) in
      let l := snd (next l) in
      Ok (Some fun_lexBareWord, l)
  else if runeIs c "$" then
    let c1 := peekN l 1 in
    if runeIs c1 "{" then Ok (Some fun_lexBracketExpansion, l)
    else
      let l := snd (next l) in
      Ok (Some fun_lexBareWord, l)
  else
    let* l := if start l <? pos l then emit tokenWord l else Ok l in
    Ok (Some fun_lexTopLevel, l).

Definition lexBracketExpansion (l : lexer) : result (nextState * lexer) :=
  let l := snd (next l) in
  let l := snd (next l) in
  let* l := acceptUntil ["}"] l in
  let l := snd (next l) in
  Ok (Some fun_lexBareWord, l).

(** [state(l)]. *)
Definition call (state : lexerStateFun) (fuel : nat) (l : lexer)
  : result (nextState * lexer) :=
  match state with
  | fun_lexTopLevel => lexTopLevel fuel l
  | fun_lexColon => lexColon l
  | fun_lexAssign => lexAssign l
  | fun_lexComment => lexComment l
  | fun_lexInclude => lexInclude l
  | fun_lexDoubleQuotedWord => lexDoubleQuotedWord fuel l
  | fun_lexBackQuotedWord => lexBackQuotedWord l
  | fun_lexSingleQuotedWord => lexSingleQuotedWord l
  | fun_lexRecipe => lexRecipe fuel l
  | fun_lexBareWord => lexBareWord l
  | fun_lexBracketExpansion => lexBracketExpansion l
  end.

(** The loop of [run], from a state on.  [fuel] bounds the calls of state
    functions and the rounds of the loops inside them. *)
Fixpoint run_from (fuel : nat) (state : lexerStateFun) (l : lexer) : result lexer :=
  match fuel with
  | 0 => OutOfFuel
  | S fuel' =>
      let* '(state', l) := call state fuel' l in
      match state' with
      | None => Ok l
      | Some s => run_from fuel' s l
      end
  end.

(** [run]. *)
Definition run (fuel : nat) (l : lexer) : result lexer := run_from fuel fun_lexTopLevel l.

(** The lexers that [lex] and [lexWords] start. *)
Definition newLexer (input : gostring) (bareWords : bool) : lexer :=
  {| input := input; output := []; start := 0; startCol := 0; pos := 0; line := 1;
     col := 0; errMsg := []; indented := true; bareWords := bareWords |}.

(** [lex]: the tokens that the lexer sends until it closes the channel. *)
Definition lex (fuel : nat) (input : gostring) : result (list token) :=
  let* l := run fuel (newLexer input false) in Ok (output l).

(** [lexWords]. *)
Definition lexWords (fuel : nat) (input : gostring) : result (list token) :=
  let* l := run fuel (newLexer input true) in Ok (output l).

End Lex.

(* ===================================================================== *)
(** * parse.go: the parser (src/rules.go, lines 248-675) *)
(* ===================================================================== *)

Module Parse.
Import GoStr Token Rules.

Local Open Scope char_scope.
Local Open Scope nat_scope.

Definition isType (ty : tokenType) (t : token) : bool := bool_decide (typ t = ty).

(** [input[len(input)-1] += s]. *)
Definition appendToLast (input : list gostring) (s : gostring) : list gostring :=
  match input with
  | [] => []
  | _ => take (length input - 1) input ++ [List.last input [] ++ s]
  end.

(** The loop of [executeAssignment] that interprets the tokens in
    assignment context (lines 226-236), from index [i] on; [prev] is
    [ts[i-1]] and [ts] what is left from [ts[i]] on. *)
Fixpoint assignmentInput (i : nat) (prev : token) (ts : list token)
    (input : list gostring) : list gostring :=
  match ts with
  | [] => input
  | t :: ts' =>
      let input :=
        if negb (isType tokenWord t) || ((1 <? i) && negb (isType tokenWord prev)) then
          if length input =? 0 then input ++ [val t] else appendToLast input (val t)
        else input ++ [val t] in
      assignmentInput (S i) t ts' input
  end.

Section WithSystem.

(** The words of the output of a shell command (see [Expand]). *)
Variable shellWords : gostring -> list gostring.

(** [regexp.Compile] (see [Rules]). *)
Variable regexpCompile : gostring -> option Regexp.regexp.

(** [subprocess("sh", args, "", true)]: the output and the success of the
    shell. *)
Variable sh : list gostring -> gostring * bool.

(** [os.Open] and [ioutil.ReadAll]: the contents of a file, [None] where it
    cannot be opened. *)
Variable readFile : gostring -> option gostring.

(** [filepath.Abs], [None] for an error, and [filepath.Dir]. *)
Variable Abs : gostring -> option gostring.
Variable Dir : gostring -> gostring.

(** [expand] of each of the values in turn, the parts appended. *)
Fixpoint expandAll (fuel : nat) (inputs : list gostring)
    (vars : gmap gostring (list gostring)) (expandBackticks : bool)
    (acc : list gostring) : result (list gostring) :=
  match inputs with
  | [] => Ok acc
  | input :: rest =>
      let* parts := Expand.expand shellWords fuel input vars expandBackticks in
      expandAll fuel rest vars expandBackticks (acc ++ parts)
  end.

Definition setVars (vars' : gmap gostring (list gostring)) (rs : ruleSet) : ruleSet :=
  {| vars := vars'; rules := rules rs; targetRules := targetRules rs |}.

(** [executeAssignment]: parse and execute an assignment.  The second
    component is the token of the [assignmentError], if one is returned;
    the text of the error is left out. *)
Definition executeAssignment (fuel : nat) (rs : ruleSet) (ts : list token)
  : result (ruleSet * option token) :=
  match ts with
  | [] => Panic
  | t0 :: later =>
      let assignee := val t0 in
      if negb (Expand.isValidVarName assignee) then Ok (rs, Some t0)
      else
        let input := assignmentInput 1 t0 later [] in
        let* vals := expandAll fuel input (vars rs) true [] in
        Ok (setVars (<[assignee := vals]> (vars rs)) rs, None)
  end.

(** The parser; the name of the file, which only the messages show, is left
    out. *)
Record parser := {
  path : gostring;         (* full path of the file being parsed *)
  tokenBuf : list token;   (* tokens consumed on the current statement *)
  rules : ruleSet          (* current ruleSet *)
}.

(** [push]: accept a token for use in the current statement. *)
Definition push (t : token) (p : parser) : parser :=
  {| path := path p; tokenBuf := tokenBuf p ++ [t]; rules := rules p |}.

(** [clear]: clear all the accepted tokens. *)
Definition clear (p : parser) : parser :=
  {| path := path p; tokenBuf := []; rules := rules p |}.

Definition setRules (rs : ruleSet) (p : parser) : parser :=
  {| path := path p; tokenBuf := tokenBuf p; rules := rs |}.

(** The state functions, by name. *)
Inductive parserStateFun :=
| fun_parseTopLevel
| fun_parsePipeInclude
| fun_parseRedirInclude
| fun_parseEqualsOrTarget
| fun_parseAssignment
| fun_parseTargets
| fun_parseAttributesOrPrereqs
| fun_parsePrereqs
| fun_parseRecipe.

(** [parseError], [basicErrorAtToken] and [basicErrorAtLine] print a message
    and leave the program through [mkError]. *)
Definition parseError {A} : result A := Exit.
Definition basicErrorAtToken {A} : result A := Exit.

(** [parseAssignmentOrTarget]. *)
Definition parseAssignmentOrTarget (p : parser) (t : token)
  : result (parserStateFun * parser) :=
  Ok (fun_parseEqualsOrTarget, push t p).

(** [parseTopLevel]. *)
Definition parseTopLevel (p : parser) (t : token) : result (parserStateFun * parser) :=
  match typ t with
  | tokenNewline => Ok (fun_parseTopLevel, p)
  | tokenPipeInclude => Ok (fun_parsePipeInclude, p)
  | tokenRedirInclude => Ok (fun_parseRedirInclude, p)
  | tokenWord => parseAssignmentOrTarget p t
  | _ => parseError
  end.

(** The loop of [parsePipeInclude] over the tokens (lines 408-415): the
    arguments after [-c]. *)
Fixpoint pipeArgs (fuel : nat) (ts : list token) (vars : gmap gostring (list gostring))
  : result (list gostring) :=
  match ts with
  | [] => Ok []
  | t :: ts' =>
      let s := val t in
      let* expanded := Expand.expand shellWords fuel s vars false in
      let s := match expanded with e :: _ => e | [] => s end in
      let* args := pipeArgs fuel ts' vars in
      Ok (s :: args)
  end.

(** The first index from [i] on of a colon among the tokens, which are
    [tokenBuf[i:]], or the length of [tokenBuf] (the loops of lines 589 and
    592). *)
Fixpoint skipToColon (ts : list token) (i : nat) : nat :=
  match ts with
  | [] => i
  | t :: ts' => if isType tokenColon t then i else skipToColon ts' (S i)
  end.

(** The loop of [parseRecipe] over the tokens of the targets (lines
    616-653). *)
Fixpoint recipeTargets (fuel : nat) (ts : list token) (vars : gmap gostring (list gostring))
    (regexAttr : bool) (acc : list pattern) (isMeta : bool)
  : result (list pattern * bool) :=
  match ts with
  | [] => Ok (acc, isMeta)
  | t :: ts' =>
      let* exparts := Expand.expand shellWords fuel (val t) vars true in
      match Rules.parseTargets regexpCompile regexAttr exparts acc isMeta with
      | None => basicErrorAtToken
      | Some (acc, isMeta) => recipeTargets fuel ts' vars regexAttr acc isMeta
      end
  end.

(** The zero value of [rule]. *)
Definition noRule : rule :=
  {| targets := []; attributes := noAttribs; prereqs := []; shell := []; recipe := [];
     command := []; isMeta := false; file := []; line := 0%Z |}.

(** [parseRecipe], up to the rule that it adds (lines 584-667). *)
Definition assembleRule (fuel : nat) (p : parser) (t : token) : result rule :=
  let buf := tokenBuf p in
  let vars := vars (rules p) in
  let i := skipToColon buf 0 in
  let j := skipToColon (drop (i + 1) buf) (i + 1) in
  let* '(r, j) :=
    if j <? length buf then
      let* attribs := expandAll fuel (map val (take (j - (i + 1)) (drop (i + 1) buf)))
                        vars true [] in
      match Attribs.parseAttribs noRule attribs with
      | (_, Some _) => basicErrorAtToken
      | (r, None) => Ok (r, j)
      end
    else Ok (noRule, i) in
  let* '(targets, isMeta) :=
    recipeTargets fuel (take i buf) vars (regex (attributes r)) [] (regex (attributes r)) in
  let* prereqs := expandAll fuel (map val (drop (j + 1) buf)) vars true [] in
  let* recipe :=
    if isType tokenRecipe t then
      let* stripped := Recipe.stripIndentation (val t) (col t) in
      Expand.expandRecipeSigils stripped vars
    else Ok [] in
  Ok {| targets := targets; attributes := attributes r; prereqs := prereqs;
        shell := shell r; recipe := recipe; command := command r; isMeta := isMeta;
        file := file r; line := Rules.line r |}.

(** [parseRecipe]: an entire rule has been consumed. *)
Definition parseRecipe (fuel : nat) (p : parser) (t : token)
  : result (parserStateFun * parser) :=
  let* r := assembleRule fuel p t in
  let p := clear (setRules (add (rules p) r) p) in
  if negb (isType tokenRecipe t) then parseTopLevel p t
  else Ok (fun_parseTopLevel, p).

(** [parseEqualsOrTarget]. *)
Definition parseEqualsOrTarget (p : parser) (t : token)
  : result (parserStateFun * parser) :=
  match typ t with
  | tokenAssign => Ok (fun_parseAssignment, p)
  | tokenWord => Ok (fun_parseTargets, push t p)
  | tokenColon => Ok (fun_parseAttributesOrPrereqs, push t p)
  | _ => parseError
  end.

(** [parseAssignment]. *)
Definition parseAssignment (fuel : nat) (p : parser) (t : token)
  : result (parserStateFun * parser) :=
  match typ t with
  | tokenNewline =>
      let* '(rs, err) := executeAssignment fuel (rules p) (tokenBuf p) in
      match err with
      | Some _ => basicErrorAtToken
      | None => Ok (fun_parseTopLevel, clear (setRules rs p))
      end
  | _ => Ok (fun_parseAssignment, push t p)
  end.

(** [parseTargets]. *)
Definition parseTargets (p : parser) (t : token) : result (parserStateFun * parser) :=
  match typ t with
  | tokenWord => Ok (fun_parseTargets, push t p)
  | tokenColon => Ok (fun_parseAttributesOrPrereqs, push t p)
  | _ => parseError
  end.

(** [parseAttributesOrPrereqs]. *)
Definition parseAttributesOrPrereqs (p : parser) (t : token)
  : result (parserStateFun * parser) :=
  match typ t with
  | tokenNewline => Ok (fun_parseRecipe, p)
  | tokenColon => Ok (fun_parsePrereqs, push t p)
  | tokenWord => Ok (fun_parseAttributesOrPrereqs, push t p)
  | _ => parseError
  end.

(** [parsePrereqs]. *)
Definition parsePrereqs (p : parser) (t : token) : result (parserStateFun * parser) :=
  match typ t with
  | tokenNewline => Ok (fun_parseRecipe, p)
  | tokenWord => Ok (fun_parsePrereqs, push t p)
  | _ => parseError
  end.

Section Includes.

(** [parseInto] for the text that an include brings in. *)
Variable parseInto : gostring -> ruleSet -> gostring -> result ruleSet.

(** [parsePipeInclude]. *)
Definition parsePipeInclude (fuel : nat) (p : parser) (t : token)
  : result (parserStateFun * parser) :=
  match typ t with
  | tokenNewline =>
      if length (tokenBuf p) =? 0 then basicErrorAtToken
      else
        let* args := pipeArgs fuel (tokenBuf p) (vars (rules p)) in
        let '(output, success) := sh (str "-c" :: args) in
        if negb success then basicErrorAtToken
        else
          let* rs := parseInto output (rules p) (path p) in
          Ok (fun_parseTopLevel, clear (setRules rs p))
  | tokenPipeInclude | tokenRedirInclude | tokenColon | tokenAssign | tokenWord =>
      Ok (fun_parsePipeInclude, push t p)
  | _ => parseError
  end.

(** [parseRedirInclude].  Where the file cannot be opened, the token of the
    error is [p.tokenBuf[0]]. *)
Definition parseRedirInclude (fuel : nat) (p : parser) (t : token)
  : result (parserStateFun * parser) :=
  match typ t with
  | tokenNewline =>
      let filename := concat (map val (tokenBuf p)) in
      let* expanded := Expand.expand shellWords fuel filename (vars (rules p)) false in
      let filename := match expanded with e :: _ => e | [] => filename end in
      match readFile filename with
      | None =>
          match tokenBuf p with
          | [] => Panic
          | _ => basicErrorAtToken
          end
      | Some input =>
          match Abs filename with
          | None => Exit
          | Some path' =>
              let* rs := parseInto input (rules p) path' in
              Ok (fun_parseTopLevel, clear (setRules rs p))
          end
      end
  | tokenWord => Ok (fun_parseRedirInclude, push t p)
  | _ => parseError
  end.

(** [state(p, t)]. *)
Definition call (state : parserStateFun) (fuel : nat) (p : parser) (t : token)
  : result (parserStateFun * parser) :=
  match state with
  | fun_parseTopLevel => parseTopLevel p t
  | fun_parsePipeInclude => parsePipeInclude fuel p t
  | fun_parseRedirInclude => parseRedirInclude fuel p t
  | fun_parseEqualsOrTarget => parseEqualsOrTarget p t
  | fun_parseAssignment => parseAssignment fuel p t
  | fun_parseTargets => parseTargets p t
  | fun_parseAttributesOrPrereqs => parseAttributesOrPrereqs p t
  | fun_parsePrereqs => parsePrereqs p t
  | fun_parseRecipe => parseRecipe fuel p t
  end.

(** The loop of [parseInto] over the tokens (lines 360-367). *)
Fixpoint parseTokens (fuel : nat) (state : parserStateFun) (p : parser)
    (tokens : list token) : result (parserStateFun * parser) :=
  match tokens with
  | [] => Ok (state, p)
  | t :: rest =>
      if isType tokenError t then Exit
      else
        let* '(state, p) := call state fuel p t in
        parseTokens fuel state p rest
  end.

End Includes.

(** [parseInto]: parse a mkfile, inserting rules and variables into a given
    rule set.  [fuel] bounds the depth of the includes and the rounds of the
    lexer and of [expand].  The program reads the tokens as the lexer sends
    them; here the lexer ends first, so there is no result where the lexer
    does not stop. *)
Fixpoint parseInto (fuel : nat) (input : gostring) (rs : ruleSet) (path : gostring)
  : result ruleSet :=
  match fuel with
  | 0 => OutOfFuel
  | S fuel' =>
      let* l := Lex.run fuel' (Lex.newLexer input false) in
      let oldmkfiledir := default [] (vars rs !! str "mkfiledir") in
      let rs := setVars (<[str "mkfiledir" := [Dir path]]> (vars rs)) rs in
      let p := {| path := path; tokenBuf := []; rules := rs |} in
      let* '(state, p) :=
        parseTokens (parseInto fuel') fuel' fun_parseTopLevel p (Lex.output l) in
      (* a dummy newline to allow parsing of any assignments or recipeless
         rules to finish *)
      let dummy := {| typ := tokenNewline; val := [Lex.newline];
                      Token.line := Lex.line l; Token.col := Lex.col l |} in
      let* '(_, p) := call (parseInto fuel') state fuel' p dummy in
      let rs := rules p in
      Ok (setVars (<[str "mkfiledir" := oldmkfiledir]> (vars rs)) rs)
  end.

(** [parse]: parse a mkfile, returning a new rule set. *)
Definition parse (fuel : nat) (input : gostring) (path : gostring)
    (env : gmap gostring (list gostring)) : result ruleSet :=
  parseInto fuel input (emptyRuleSet env) path.

End WithSystem.

End Parse.

(* ===================================================================== *)
(** * The vocabulary of the properties and the examples *)
(* ===================================================================== *)

Section NodeStatusVocabulary.
Import Mk.
Local Open Scope nat_scope.





End NodeStatusVocabulary.

Section SuffixesVocabulary.
Import Expand.

(** The specification of [expand_suffix]: every [\%] becomes [%], every other
    [%] becomes the stem, all other bytes are kept. *)
Fixpoint expandSuffixes_spec (template stem : gostring) : gostring :=
  match template with
  | [] => []
  | c :: rest =>
      if Ascii.eqb c "%" then stem ++ expandSuffixes_spec rest stem
      else match rest with
           | c' :: rest' =>
               if Ascii.eqb c "\" && Ascii.eqb c' "%"
               then "%"%char :: expandSuffixes_spec rest' stem
               else c :: expandSuffixes_spec rest stem
           | [] => [c]
           end
  end.

End SuffixesVocabulary.

Section RegexpFactsVocabulary.
Import Regexp.
Local Open Scope nat_scope.



End RegexpFactsVocabulary.

Section ExpandFactsVocabulary.
Import GoStr Expand.
Local Open Scope char_scope.
Local Open Scope nat_scope.

(** A byte of a variable name: a letter, a digit or an underscore. *)
Definition nameByte (a : ascii) : bool :=
  IsLetter (Some a) || IsDigit (Some a) || runeIs (Some a) "_".


End ExpandFactsVocabulary.

Section ExpandLoopVocabulary.
Import GoStr Expand.
Local Open Scope char_scope.
Local Open Scope nat_scope.

(** A byte that [expand] copies: none of the quotes, the sigil and the
    backslash. *)
Definition plain (x : ascii) : bool := negb (mem x [dquote; "'"; "`"; "$"; "\"]).

(** How [expand] splices the parts of a sigil into the word (lines 107-118). *)
Definition splice (parts : list gostring) (expanded : gostring)
    (outparts : list gostring) : list gostring * gostring :=
  match outparts with
  | [] => (parts, expanded)
  | [o] => (parts, expanded ++ o)
  | o :: os => ((parts ++ [expanded ++ o]) ++ List.removelast os, List.last os [])
  end.

End ExpandLoopVocabulary.

Section ReferencesVocabulary.
Import GoStr Expand.
Local Open Scope char_scope.
Local Open Scope nat_scope.



End ReferencesVocabulary.

Section TargetIndexVocabulary.
Import Rules.
Local Open Scope char_scope.
Local Open Scope nat_scope.

(** The invariant of a rule set: an index [k] listed under a name [n] is the
    index of a rule with a literal target pattern (no compiled expression)
    whose text is [n]. *)
Definition indexedLiterally (rs : ruleSet) : Prop :=
  forall (n : gostring) (ks : list nat) (k : nat),
    targetRules rs !! n = Some ks -> k ∈ ks ->
    exists r p, rules rs !! k = Some r /\ p ∈ targets r /\
                rpat p = None /\ spat p = n.

(** The rule sets of the program: the one a parse starts from, and those
    that [add] makes of them. *)
Inductive built : ruleSet -> Prop :=
| built_empty env : built (emptyRuleSet env)
| built_add rs r : built rs -> built (add rs r).

(** A suffix rule and a literal rule, added to an empty rule set. *)
Definition suffixRule : rule :=
  {| targets := [ {| isSuffix := true; spat := str "%.o";
                     rpat := Some (Regexp.stemPattern [] (str ".o")) |} ];
     attributes := noAttribs; prereqs := [str "%.c"]; shell := [];
     recipe := str "cc"; command := []; isMeta := true;
     file := str "mkfile"; line := 1%Z |}.

Definition literalRule : rule :=
  {| targets := [ {| isSuffix := false; spat := str "all"; rpat := None |} ];
     attributes := noAttribs; prereqs := [str "a.o"]; shell := [];
     recipe := []; command := []; isMeta := false;
     file := str "mkfile"; line := 3%Z |}.

End TargetIndexVocabulary.

Section AmbiguityVocabulary.
Import Graph.
Local Open Scope nat_scope.



End AmbiguityVocabulary.

Section GraphExamplesVocabulary.
Import Rules.
Local Open Scope nat_scope.

Definition literal (x : string) : pattern :=
  {| isSuffix := false; spat := str x; rpat := None |}.


(** [foo.o: foo.h] without a recipe, [foo.o: foo.c] with a recipe, and the
    meta rule [%.o: %.c] with another recipe. *)
Definition fooHeaders : rule :=
  {| targets := [literal "foo.o"]; attributes := noAttribs;
     prereqs := [str "foo.h"]; shell := []; recipe := []; command := [];
     isMeta := false; file := str "mkfile"; line := 1%Z |}.



Definition concreteEdge (p : string) : Graph.edge :=
  {| Graph.v := Some (str p); Graph.stem := []; Graph.matches := [];
     Graph.togo := false; Graph.r := 0 |}.



(** The rule [a b: b]. *)
Definition selfFeeding : rule :=
  {| targets := [literal "a"; literal "b"]; attributes := noAttribs;
     prereqs := [str "b"]; shell := []; recipe := []; command := [];
     isMeta := false; file := str "mkfile"; line := 1%Z |}.

End GraphExamplesVocabulary.

Section JobsVocabulary.
Import Mk.

Definition isJobsFlag (a : flagArg) : bool :=
  match a with flag_p _ => true | _ => false end.

End JobsVocabulary.

Section RuleUseVocabulary.
Import Graph.
Local Open Scope nat_scope.

Variable rs : Rules.ruleSet.

(** An increment of [rulecnt] that the code allows: a count of at most 2,
    and of 1 for a meta rule. *)
Definition okUse (x : nat * nat) : Prop :=
  x.2 <= 2 /\
  forall rl, Rules.rules rs !! x.1 = Some rl -> Rules.isMeta rl = true -> x.2 = 1.

(** [b'] follows [b]: the counts are back to what they were and the log has
    grown by allowed increments. *)
Definition follows (b b' : build) : Prop :=
  rulecnt b' = rulecnt b /\
  exists new, uses b' = uses b ++ new /\ Forall okUse new.

End RuleUseVocabulary.

Section ExpandWordsVocabulary.
Import GoStr Expand.
Local Open Scope char_scope.
Local Open Scope nat_scope.


(** The words that a reference to a bound variable gives: the text before
    the reference joins the first value, the text after it the last one. *)
Definition spliced (pre : gostring) (values : list gostring) (post : gostring)
  : list gostring :=
  match values with
  | [] => if decide (pre ++ post = []) then [] else [pre ++ post]
  | [v] => if decide (pre ++ v ++ post = []) then [] else [pre ++ v ++ post]
  | v :: vs =>
      ((pre ++ v) :: List.removelast vs)
      ++ (if decide (List.last vs [] ++ post = []) then [] else [List.last vs [] ++ post])
  end.

End ExpandWordsVocabulary.

Section RecipeTextVocabulary.
Import GoStr Expand.
Local Open Scope char_scope.
Local Open Scope nat_scope.

(** A byte that [expandRecipeSigils] copies. *)
Definition recipePlain (x : ascii) : bool := negb (mem x ["$"; "\"]).

End RecipeTextVocabulary.

Section SuffixRulesVocabulary.
Import GoStr Expand.
Local Open Scope char_scope.
Local Open Scope nat_scope.

(** A byte that [expandSuffixes] copies. *)
Definition suffixPlain (x : ascii) : bool := negb (mem x ["\"; "%"]).

End SuffixRulesVocabulary.

Section AttribsVocabulary.
Import GoStr Rules Attribs.
Local Open Scope char_scope.
Local Open Scope nat_scope.

(** The letters of the attributes that are flags. *)
Definition flagLetters : gostring := ["D"; "E"; "N"; "n"; "Q"; "R"; "U"; "V"; "X"].

(** The attributes [a] with the flags of the letters [w] set. *)
Definition withFlags (w : gostring) (a : attribSet) : attribSet :=
  {| delFailed := delFailed a || mem "D" w;
     nonstop := nonstop a || mem "E" w;
     forcedTimestamp := forcedTimestamp a || mem "N" w;
     nonVirtual := nonVirtual a || mem "n" w;
     quiet := quiet a || mem "Q" w;
     regex := regex a || mem "R" w;
     update := update a || mem "U" w;
     virtual := virtual a || mem "V" w;
     exclusive := exclusive a || mem "X" w |}.

End AttribsVocabulary.

Section RecipeVocabulary.
Import GoStr Recipe.
Local Open Scope char_scope.
Local Open Scope nat_scope.

(** The bytes that [stripIndentation] may skip at the head of a line. *)
Definition blank (c : ascii) : bool := mem c [" "; Expand.tab; newline].

End RecipeVocabulary.

Section SlotsVocabulary.
Import Mk Slots.


End SlotsVocabulary.

Section CyclesVocabulary.
Import Graph.
Local Open Scope nat_scope.

(** An edge of the graph from the node [a] to the node [b]. *)
Definition edgeTo (g : nodemap) (a b : gostring) : Prop :=
  exists n e, g !! a = Some n /\ e ∈ prereqs n /\ v e = Some b.

(** The node [x] carries the flag that [cyclecheck] sets on the nodes of the
    path it is on. *)
Definition onPath (g : nodemap) (x : gostring) : Prop :=
  exists n, g !! x = Some n /\ hasFlag nodeFlagCycle n = true.

(** A node on the path has an edge: the next node of the path. *)
Definition pathHasEdges (g : nodemap) : Prop :=
  forall x n, g !! x = Some n -> hasFlag nodeFlagCycle n = true -> prereqs n <> [].

(** Every edge leads to a node of the graph. *)
Definition closed (g : nodemap) : Prop :=
  forall x n e w, g !! x = Some n -> e ∈ prereqs n -> v e = Some w -> is_Some (g !! w).

(** No cycle can be reached from [u]. *)
Definition acyclicFrom (g : nodemap) (u : gostring) : Prop :=
  forall x, rtc (edgeTo g) u x -> ~ tc (edgeTo g) x x.

(** The nodes that are not on the path. *)
Definition offPath (g : nodemap) : nodemap :=
  filter (fun kn => hasFlag nodeFlagCycle kn.2 = false) g.

(** What a visit that returns shows of the node visited. *)
Definition visited (g : nodemap) (w : gostring) : Prop :=
  (forall x, rtc (edgeTo g) w x -> ~ onPath g x) /\ acyclicFrom g w.

(** The nodes of the path lead to the node that is visited. *)
Definition ancestors (g : nodemap) (u : gostring) : Prop :=
  forall x, onPath g x -> tc (edgeTo g) x u.

End CyclesVocabulary.

Section ConstructionVocabulary.
Import Graph.
Local Open Scope nat_scope.

(** A graph under construction: every edge leads to a node, no node is on
    a path of [cyclecheck], and every node is stored under its name. *)
Definition wellFormed (g : nodemap) : Prop :=
  closed g /\
  (forall x n, g !! x = Some n -> hasFlag nodeFlagCycle n = false) /\
  (forall x n, g !! x = Some n -> name n = x).

(** [b'] extends [b]: no node is lost, and a well-formed graph stays
    well-formed. *)
Definition extends (b b' : build) : Prop :=
  (forall x, is_Some (nodes b !! x) -> is_Some (nodes b' !! x)) /\
  (wellFormed (nodes b) -> wellFormed (nodes b')).

End ConstructionVocabulary.

Section LexerVocabulary.
Import GoStr Token Lex.
Local Open Scope char_scope.
Local Open Scope nat_scope.

(** A piece of a text. *)
Definition segmentOf (text s : gostring) : Prop := exists a b, text = a ++ s ++ b.

(** The lexer is in order: it works on [text], the token it is reading
    starts before the position, the position is inside the text, and the
    tokens sent are pieces of the text. *)
Definition inOrder (text : gostring) (l : lexer) : Prop :=
  input l = text /\ start l <= pos l /\ pos l <= length text /\
  Forall (fun t => segmentOf text (val t)) (output l).

(** The result of a step: a value that satisfies [P], unless the rounds
    granted are used up; no panic. *)
Definition safely {A} (P : A -> Prop) (r : result A) : Prop :=
  match r with
  | Ok a => P a
  | OutOfFuel => True
  | _ => False
  end.

Definition stateInOrder {A} (text : gostring) (x : A * lexer) : Prop :=
  inOrder text x.2.

End LexerVocabulary.

Section ScanVocabulary.
Import GoStr Token Lex.
Local Open Scope char_scope.
Local Open Scope nat_scope.

(** What is left of the input. *)
Definition rest (l : lexer) : gostring := drop (pos l) (input l).

(** The type and the text of a token. *)
Definition tokenText (t : token) : tokenType * gostring := (typ t, val t).

(** What [next] does to [indented] and [col] on a byte. *)
Definition afterByte (c : ascii) (ic : bool * nat) : bool * nat :=
  if Ascii.eqb c newline then (true, 0)
  else (if mem c [" "; Expand.tab] then ic.1 else false, ic.2 + 1).

Definition afterText (w : gostring) (ic : bool * nat) : bool * nat :=
  fold_left (fun ic c => afterByte c ic) w ic.

(** The lexer has read [pre] and [cur], of which [cur] is the token it is
    reading, and [r] is left; [ic] is [indented] and [col]; [toks] are the
    tokens sent. *)
Definition reading (l : lexer) (pre cur r : gostring) (ic : bool * nat)
    (toks : list (tokenType * gostring)) : Prop :=
  input l = pre ++ cur ++ r /\ start l = length pre /\
  pos l = length pre + length cur /\
  indented l = ic.1 /\ col l = ic.2 /\ bareWords l = false /\
  map tokenText (output l) = toks.

(** What is left starts with a byte of [chars]. *)
Definition headIn (chars : gostring) (s : gostring) : bool :=
  match s with
  | c :: _ => mem c chars
  | [] => false
  end.

(** The test of [acceptUntil]. *)
Definition goesOn (invalid : gostring) (s : gostring) : bool :=
  match s with
  | c :: _ => negb (mem c invalid)
  | [] => false
  end.

End ScanVocabulary.

Section LineVocabulary.
Import GoStr Token Lex.
Local Open Scope char_scope.
Local Open Scope nat_scope.

(** The items of a rule header or an assignment. *)
Inductive item :=
| Word (w : gostring)
| Colon
| Assign.

Definition itemText (it : item) : gostring :=
  match it with
  | Word w => w
  | Colon => [":"]
  | Assign => ["="]
  end.

Definition itemToken (it : item) : tokenType * gostring :=
  match it with
  | Word w => (tokenWord, w)
  | Colon => (tokenColon, [":"])
  | Assign => (tokenAssign, ["="])
  end.

Definition isWord (it : item) : bool :=
  match it with
  | Word _ => true
  | _ => false
  end.

(** Spaces and tabs. *)
Definition blanks (s : gostring) : Prop := Forall (fun c => mem c [" "; Expand.tab] = true) s.

(** A word of bare bytes that the top level takes for a word. *)
Definition bareWord (w : gostring) : Prop :=
  match w with
  | [] => False
  | c :: _ => mem c [ascii_of_nat 0; "<"; "`"] = false
  end /\ Forall (fun c => mem c nonBareRunes = false) w.

Definition okItem (it : item) : Prop :=
  match it with
  | Word w => bareWord w
  | _ => True
  end.

(** Items with the blanks before each. *)
Fixpoint lineText (its : list (gostring * item)) : gostring :=
  match its with
  | [] => []
  | (sep, it) :: r => sep ++ itemText it ++ lineText r
  end.

(** Blanks separate the items, and a word from the word before it. *)
Fixpoint spaced (prev : bool) (its : list (gostring * item)) : Prop :=
  match its with
  | [] => True
  | (sep, it) :: r =>
      blanks sep /\ okItem it /\ (prev && isWord it = true -> sep <> []) /\
      spaced (isWord it) r
  end.

Definition headSep (its : list (gostring * item)) : gostring :=
  match its with
  | [] => []
  | (sep, _) :: _ => sep
  end.

(** The lines of a recipe: the indentation and the text of each. *)
Fixpoint recipeText (lines : list (gostring * gostring)) : gostring :=
  match lines with
  | [] => []
  | (ind, body) :: r => ind ++ body ++ newline :: recipeText r
  end.

Definition recipeLine (line : gostring * gostring) : Prop :=
  blanks line.1 /\ line.1 <> [] /\
  match line.2 with
  | [] => False
  | c :: _ => mem c [" "; Expand.tab; cr; newline; "\"] = false
  end /\ Forall (fun c => mem c [newline] = false) line.2.

Definition itemState (it : item) : lexerStateFun :=
  match it with
  | Word _ => fun_lexBareWord
  | Colon => fun_lexColon
  | Assign => fun_lexAssign
  end.

(** The bytes that end a bare word and send the lexer back to the top
    level. *)
Definition endsWord (s : gostring) : Prop :=
  match s with
  | [] => False
  | y :: _ => mem y [" "; Expand.tab; newline; cr; "="; ":"; "#"] = true
  end.

End LineVocabulary.

Section ParserVocabulary.
Import GoStr Token Rules Parse.
Local Open Scope char_scope.
Local Open Scope nat_scope.

(** The values of the tokens of an assignment, joined where a token that is
    no word stands between them or beside them: only two words in a row
    stay apart. *)
Fixpoint glued (ts : list token) : list gostring :=
  match ts with
  | [] => []
  | t :: ts' =>
      match head ts', glued ts' with
      | Some t', g :: gs =>
          if isType tokenWord t && isType tokenWord t' then val t :: g :: gs
          else (val t ++ g) :: gs
      | _, _ => [val t]
      end
  end.

End ParserVocabulary.

Section MkfileVocabulary.
Import GoStr Token Rules Lex Parse.
Local Open Scope char_scope.
Local Open Scope nat_scope.

(** Words with the blanks before each, as items of a line. *)
Definition wordItems (ws : list (gostring * gostring)) : list (gostring * item) :=
  map (fun v => (v.1, Word v.2)) ws.

(** A word that [expand] leaves as it is. *)
Definition plainWord (w : gostring) : Prop := Forall (fun x => plain x = true) w.

(** The pattern of a target that is a plain name. *)
Definition literalTarget (w : gostring) : pattern :=
  {| isSuffix := false; spat := w; rpat := None |}.

(** The lines of a recipe after the first, without the first [n] blanks of
    each. *)
Fixpoint unindent (n : nat) (lines : list (gostring * gostring)) : gostring :=
  match lines with
  | [] => []
  | (ind, body) :: r => drop n ind ++ body ++ newline :: unindent n r
  end.

(** The recipe that the rule gets. *)
Definition recipeOf (lines : list (gostring * gostring)) : gostring :=
  match lines with
  | [] => []
  | (ind, body) :: r => body ++ newline :: unindent (length ind) r
  end.

(** The variables after a file has been parsed. *)
Definition afterParse (mkfiledir : list gostring) (vars : gmap gostring (list gostring))
  : gmap gostring (list gostring) :=
  <[str "mkfiledir" := mkfiledir]> vars.

(** The tokens of words. *)
Definition wordTokens (ts : list token) (ws : list gostring) : Prop :=
  Forall (fun t => typ t = tokenWord) ts /\ map val ts = ws.

Definition pushAll (ts : list token) (p : parser) : parser :=
  {| path := path p; tokenBuf := tokenBuf p ++ ts; rules := rules p |}.

End MkfileVocabulary.

Section NewlineVocabulary.
Import GoStr Token Rules Lex Parse.
Local Open Scope char_scope.
Local Open Scope nat_scope.

(** The states of the parser inside a statement that is no include. *)
Definition inStatement (state : parserStateFun) : Prop :=
  match state with
  | fun_parsePipeInclude | fun_parseRedirInclude | fun_parseRecipe => False
  | _ => True
  end.

(** The types of the tokens of words, colons and equals signs. *)
Definition itemType (t : token) : Prop :=
  typ t = tokenWord \/ typ t = tokenColon \/ typ t = tokenAssign.

End NewlineVocabulary.

Section CoverageExamplesVocabulary.
Import GoStr Token Rules Lex.
Local Open Scope char_scope.
Local Open Scope nat_scope.

(** A system for the examples: no shell and no file answers. *)
Definition noWords : gostring -> list gostring := fun _ => [].

Definition noCompile : gostring -> option Regexp.regexp := fun _ => None.

Definition noShell : list gostring -> gostring * bool := fun _ => ([], false).

Definition noFile : gostring -> option gostring := fun _ => None.

Definition sameDir : gostring -> gostring := fun path => path.

(** The words that the examples take for the output of a command. *)
Definition twoWords : gostring -> list gostring := fun _ => [str "x"; str "y"].


(** A graph of one node without edges. *)
Definition oneNode : Graph.nodemap :=
  <[str "a" := {| Graph.node_r := None; Graph.name := str "a"; Graph.prog := [];
                  Graph.t := 0%Z; Graph.exists_ := false; Graph.prereqs := [];
                  Graph.status := nodeStatusReady; Graph.listeners := [];
                  Graph.flags := 0%N |}]> ∅.

(** The line [all: a.o] of the examples, a line of a recipe, and the
    assignment [CC = gcc -O2]. *)
Definition allLine : list (gostring * item) :=
  [([], Word (str "all")); ([], Colon); ([" "], Word (str "a.o"))].

Definition ccLine : gostring * gostring := ([Expand.tab], str "cc -o all a.o").

Definition cleanLine : gostring * gostring := ([Expand.tab], str "clean").

End CoverageExamplesVocabulary.

(* ===================================================================== *)
(** * Properties *)
(* ===================================================================== *)

Section Staleness.
Import Mk.







End Staleness.

Section NodeStatus.
Import Mk.

Local Open Scope nat_scope.



Lemma mkNode_claim_None u :
  mkNode_claim u = None ->
  status u <> nodeStatusReady /\ status u <> nodeStatusNop.
Proof.
  unfold mkNode_claim. destruct (status u); simpl; intros H;
    try discriminate; split; discriminate.
Qed.












End NodeStatus.

Section Suffixes.
Import Expand.

Lemma expandSuffixes_other_escape_loops fuel stem :
  expandSuffixes_loop fuel (str "\a") stem 0 [] = OutOfFuel.
Proof. induction fuel as [|fuel IH]; [reflexivity | exact IH]. Qed.

(** C6 (what the code does): [expandSuffixes] uses the index found in
    [input[i:]] as an index into [input].  With two [%] in the template it
    returns a wrong text or panics on the slice [input[i:j]], and on an escape
    other than [\%] it never advances: the results differ from the
    specification. *)
Theorem C6_expandSuffixes_diverges_from_spec :
  (forall fuel, expandSuffixes (3 + fuel) (str "%x%") (str "foo") = Ok (str "foo%")) /\
  expandSuffixes_spec (str "%x%") (str "foo") = str "fooxfoo" /\
  (forall fuel, expandSuffixes (2 + fuel) (str "a%b%c") (str "x") = Panic) /\
  expandSuffixes_spec (str "a%b%c") (str "x") = str "axbxc" /\
  (forall fuel stem, expandSuffixes fuel (str "\a") stem = OutOfFuel) /\
  (forall stem, expandSuffixes_spec (str "\a") stem = str "\a").
Proof.
  repeat split; try reflexivity.
  intros fuel stem. apply expandSuffixes_other_escape_loops.
Qed.

End Suffixes.

(* ===================================================================== *)
(** * Facts about the matcher *)
(* ===================================================================== *)

Section RegexpFacts.
Import Regexp.

Local Open Scope nat_scope.











Lemma HasPrefix_spec s a : GoStr.HasPrefix s a = true <-> exists t, s = a ++ t.
Proof.
  revert s. induction a as [|c a IH]; intros s; simpl.
  - split; [intros _; exists s; reflexivity | reflexivity].
  - destruct s as [|c' s].
    + split; [discriminate | intros [t H]; discriminate].
    + rewrite andb_true_iff, Ascii.eqb_eq, IH. split.
      * intros [-> [t ->]]. exists t. reflexivity.
      * intros [t H]. injection H as -> ->. split; [reflexivity | exists t; reflexivity].
Qed.







Lemma HasPrefix_short s a : length s < length a -> GoStr.HasPrefix s a = false.
Proof.
  intros Hl. destruct (GoStr.HasPrefix s a) eqn:E; [|reflexivity].
  apply HasPrefix_spec in E as [t ->]. rewrite length_app in Hl. lia.
Qed.











End RegexpFacts.

(* ===================================================================== *)
(** * Facts about strings and about expandSigil *)
(* ===================================================================== *)

Section ExpandFacts.
Import GoStr Expand.

Local Open Scope char_scope.
Local Open Scope nat_scope.

Local Arguments IsLetter : simpl never.
Local Arguments IsDigit : simpl never.
Local Arguments runeIs : simpl never.

Lemma IndexAny_app_first pre c rest chars :
  Forall (fun x => mem x chars = false) pre -> mem c chars = true ->
  IndexAny (pre ++ c :: rest) chars = Some (length pre).
Proof.
  intros Hp Hc. induction Hp as [|x pre Hx _ IH]; simpl.
  - rewrite Hc. reflexivity.
  - rewrite Hx, IH. reflexivity.
Qed.

Lemma IndexAny_none s chars :
  Forall (fun x => mem x chars = false) s -> IndexAny s chars = None.
Proof.
  induction 1 as [|x s Hx _ IH]; simpl; [reflexivity|]. rewrite Hx, IH. reflexivity.
Qed.

Lemma sliceFrom_ok s i : i <= length s -> sliceFrom s i = Ok (drop i s).
Proof. intros H. unfold sliceFrom. apply Nat.leb_le in H. rewrite H. reflexivity. Qed.

Lemma sliceTo_ok s j : j <= length s -> sliceTo s j = Ok (take j s).
Proof. intros H. unfold sliceTo. apply Nat.leb_le in H. rewrite H. reflexivity. Qed.

Lemma slice_ok s i j :
  i <= j -> j <= length s -> slice s i j = Ok (take (j - i) (drop i s)).
Proof.
  intros H1 H2. unfold slice. apply Nat.leb_le in H1, H2. rewrite H1, H2. reflexivity.
Qed.

Lemma isValidVarName_from_nameByte first v :
  isValidVarName_from first v = true -> Forall (fun a => nameByte a = true) v.
Proof.
  revert first. induction v as [|a v IH]; intros first H; [constructor|].
  simpl in H.
  destruct ((first && negb (IsLetter (Some a) || runeIs (Some a) "_"))
            || negb (IsLetter (Some a) || IsDigit (Some a) || runeIs (Some a) "_"))
    eqn:E; [discriminate|].
  apply orb_false_iff in E as [_ E]. apply negb_false_iff in E.
  constructor; [exact E | eapply IH; eassumption].
Qed.













End ExpandFacts.

Section ExpandLoop.
Import GoStr Expand.

Local Open Scope char_scope.
Local Open Scope nat_scope.

Variable shellWords : gostring -> list gostring.

Lemma plain_mem l :
  Forall (fun x => plain x = true) l ->
  Forall (fun x => mem x [dquote; "'"; "`"; "$"; "\"] = false) l.
Proof.
  intros H. eapply Forall_impl; [exact H|]. intros x Hx.
  unfold plain in Hx. apply negb_true_iff in Hx. exact Hx.
Qed.

(** One round of the loop of [expand] on plain bytes followed by a sigil. *)
Lemma expand_loop_sigil dq fuel done seg rest vars eb parts expanded outparts off :
  Forall (fun x => plain x = true) seg ->
  expandSigil rest vars = Ok (outparts, off) ->
  expand_loop shellWords dq (S fuel) (done ++ seg ++ "$" :: rest) vars eb
    (length done) parts expanded
  = expand_loop shellWords dq fuel (done ++ seg ++ "$" :: rest) vars eb
      (length done + length seg + 1 + off)
      (fst (splice parts (expanded ++ seg) outparts))
      (snd (splice parts (expanded ++ seg) outparts)).
Proof.
  intros Hseg Hsig.
  set (input := done ++ seg ++ "$" :: rest).
  assert (Hlen : length input = length done + length seg + 1 + length rest).
  { unfold input. rewrite !length_app. simpl. lia. }
  cbn [expand_loop].
  assert (Hlt : (length done <? length input) = true) by (apply Nat.ltb_lt; lia).
  rewrite Hlt.
  rewrite sliceFrom_ok by lia. unfold input at 1. rewrite drop_app_length.
  cbn [bind].
  rewrite IndexAny_app_first by (try apply plain_mem; auto).
  rewrite slice_ok by lia.
  replace (length seg + length done - length done) with (length seg) by lia.
  unfold input at 1. rewrite drop_app_length, take_app_length. cbn [bind].
  rewrite sliceFrom_ok by lia.
  assert (Hd1 : drop (length seg + length done) input = "$" :: rest).
  { unfold input. rewrite app_assoc.
    replace (length seg + length done) with (length (done ++ seg))
      by (rewrite length_app; lia).
    apply drop_app_length. }
  rewrite Hd1. cbn [bind DecodeRuneInString].
  rewrite sliceFrom_ok by lia.
  assert (Hd2 : drop (length seg + length done + 1) input = rest).
  { unfold input.
    change ("$" :: rest) with (["$"] ++ rest). rewrite !app_assoc.
    replace (length seg + length done + 1) with (length ((done ++ seg) ++ ["$"]))
      by (rewrite !length_app; simpl; lia).
    apply drop_app_length. }
  rewrite Hd2. cbn [bind].
  change (runeIs (Some "$") "\") with false.
  change (runeIs (Some "$") dquote) with false.
  change (runeIs (Some "$") "'") with false.
  change (runeIs (Some "$") "`") with false.
  change (runeIs (Some "$") "$") with true.
  cbv iota. rewrite Hsig.
  destruct outparts as [|o [|o2 os]]; cbn [bind splice fst snd];
    replace (length seg + length done + 1 + off)
      with (length done + length seg + 1 + off) by lia;
    reflexivity.
Qed.

(** The last round: plain bytes up to the end of the word. *)
Lemma expand_loop_plain_rest dq fuel done post vars eb parts expanded :
  Forall (fun x => plain x = true) post ->
  expand_loop shellWords dq (S fuel) (done ++ post) vars eb (length done) parts expanded
  = Ok (finishParts parts (expanded ++ post)).
Proof.
  intros Hp. cbn [expand_loop].
  destruct post as [|x post].
  - rewrite !app_nil_r, Nat.ltb_irrefl. reflexivity.
  - assert (Hlt : (length done <? length (done ++ x :: post)) = true)
      by (apply Nat.ltb_lt; rewrite length_app; simpl; lia).
    rewrite Hlt.
    rewrite sliceFrom_ok by (rewrite length_app; lia).
    rewrite drop_app_length. cbn [bind].
    rewrite IndexAny_none by (apply plain_mem; assumption).
    reflexivity.
Qed.

(** A word made of plain bytes, one reference and plain bytes. *)
Lemma expand_one_sigil fuel pre ref post vars eb outparts :
  Forall (fun x => plain x = true) pre ->
  Forall (fun x => plain x = true) post ->
  expandSigil (ref ++ post) vars = Ok (outparts, length ref) ->
  expand shellWords (3 + fuel) (pre ++ "$" :: ref ++ post) vars eb
  = Ok (finishParts (fst (splice [] pre outparts))
                    (snd (splice [] pre outparts) ++ post)).
Proof.
  intros Hpre Hpost Hsig.
  change (3 + fuel) with (S (S (S fuel))). cbn [expand].
  rewrite (expand_loop_sigil _ (S fuel) [] pre (ref ++ post) vars eb [] []
             outparts (length ref) Hpre Hsig).
  cbn [app length].
  replace (pre ++ "$" :: ref ++ post) with ((pre ++ "$" :: ref) ++ post)
    by (rewrite <- app_assoc; reflexivity).
  replace (0 + length pre + 1 + length ref) with (length (pre ++ "$" :: ref))
    by (rewrite length_app; simpl; lia).
  apply expand_loop_plain_rest. assumption.
Qed.

End ExpandLoop.

(* ===================================================================== *)
(** * Variable references *)
(* ===================================================================== *)

Section References.
Import GoStr Expand.

Local Open Scope char_scope.
Local Open Scope nat_scope.





End References.

Section UnboundReferences.
Import GoStr Expand.

Local Open Scope char_scope.
Local Open Scope nat_scope.

Variable shellWords : gostring -> list gostring.

Lemma finishParts_nonempty parts (x : gostring) :
  x <> [] -> finishParts parts x = parts ++ [x].
Proof. intros Hx. unfold finishParts. destruct x; [congruence | reflexivity]. Qed.


End UnboundReferences.

Section UnboundExamples.
Import GoStr Expand.

Local Open Scope char_scope.
Local Open Scope nat_scope.



End UnboundExamples.

Section Dollar.
Import GoStr Expand.

Local Open Scope char_scope.
Local Open Scope nat_scope.

Variable shellWords : gostring -> list gostring.

(** C7 (what the code does): after [$], a second [$] gives the part [$] and
    reports two bytes consumed although it is one byte long, so [expand] and
    [expandRecipeSigils] drop the byte that follows [$$]: the word [a$$b]
    expands to [a$], not to [a$b], and in general a byte [c] between [$$] and
    plain bytes is lost. *)
Theorem C7_double_dollar_drops_next_byte :
  (forall rest vars, expandSigil ("$" :: rest) vars = Ok ([["$"]], 2)) /\
  (forall fuel vars backticks,
     expand shellWords (4 + fuel) (str "a$$b") vars backticks = Ok [str "a$"]) /\
  (forall vars, expandRecipeSigils (str "a$$b") vars = Ok (str "a$")) /\
  str "a$" <> str "a$b" /\
  (forall fuel (pre : gostring) (c : ascii) (post : gostring) vars backticks,
     Forall (fun x => plain x = true) pre ->
     Forall (fun x => plain x = true) post ->
     expand shellWords (3 + fuel) (pre ++ "$" :: "$" :: c :: post) vars backticks
     = Ok [pre ++ "$" :: post]).
Proof.
  split; [reflexivity|]. split; [reflexivity|]. split; [reflexivity|].
  split; [discriminate|].
  intros fuel pre c post vars backticks Hpre Hpost.
  change (pre ++ "$" :: "$" :: c :: post) with (pre ++ "$" :: ["$"; c] ++ post).
  rewrite (expand_one_sigil shellWords fuel pre ["$"; c] post vars backticks [["$"]]);
    try assumption; [|reflexivity].
  cbn [splice fst snd]. rewrite finishParts_nonempty.
  - rewrite <- app_assoc. reflexivity.
  - destruct pre; discriminate.
Qed.

End Dollar.

Section DollarExample.
Import GoStr Expand.

Local Open Scope char_scope.
Local Open Scope nat_scope.

Lemma C7_witness :
  expand (fun _ => []) 3 (str "x$$yz") ∅ false = Ok [str "x$z"].
Proof.
  destruct (C7_double_dollar_drops_next_byte (fun _ => [])) as (_ & _ & _ & _ & H).
  apply (H 0 (str "x") "y" (str "z") ∅ false); repeat constructor.
Defined.

End DollarExample.

(* ===================================================================== *)
(** * The index of literal targets *)
(* ===================================================================== *)

Section TargetIndex.
Import Rules.

Local Open Scope char_scope.
Local Open Scope nat_scope.

Lemma addTargets_lookup k ts : forall tr (n : gostring) (ks : list nat) (j : nat),
  addTargets k ts tr !! n = Some ks -> j ∈ ks ->
  (exists ks0, tr !! n = Some ks0 /\ j ∈ ks0) \/
  (j = k /\ exists p, p ∈ ts /\ rpat p = None /\ spat p = n).
Proof.
  induction ts as [|p ts IH]; intros tr n ks j Hl Hj; simpl in Hl.
  - left. exists ks. split; assumption.
  - destruct (IH _ _ _ _ Hl Hj) as [(ks0 & H0 & Hj0) | (-> & q & Hq & Hq1 & Hq2)].
    + destruct (rpat p) eqn:Ep.
      * left. exists ks0. split; assumption.
      * destruct (decide (spat p = n)) as [<-|Hne].
        -- rewrite lookup_insert_eq in H0. injection H0 as <-.
           apply elem_of_app in Hj0 as [Hj0|Hj0].
           ++ left. destruct (tr !! spat p) as [old|] eqn:Eold; simpl in Hj0.
              ** exists old. split; [reflexivity | assumption].
              ** inversion Hj0.
           ++ right. apply list_elem_of_singleton in Hj0 as ->.
              split; [reflexivity|]. exists p. split; [left | split; [assumption | reflexivity]].
        -- rewrite lookup_insert_ne in H0 by assumption.
           left. exists ks0. split; assumption.
    + right. split; [reflexivity|]. exists q. split; [right; assumption | split; assumption].
Qed.

Lemma addTargets_compiled k ts tr :
  Forall (fun p => rpat p <> None) ts -> addTargets k ts tr = tr.
Proof.
  intros H. revert tr. induction H as [|p ts Hp _ IH]; intros tr; simpl; [reflexivity|].
  destruct (rpat p); [apply IH | congruence].
Qed.

Lemma targetPattern_compiled compile regexAttr t p meta :
  targetPattern compile regexAttr t = Some (p, meta) ->
  regexAttr = true \/ "%"%char ∈ t ->
  rpat p <> None /\ (regexAttr = false -> isSuffix p = true /\ meta = true).
Proof.
  unfold targetPattern. intros H Hc. destruct regexAttr.
  - destruct (compile _); [|discriminate]. injection H as <- <-.
    split; [discriminate | intros; discriminate].
  - destruct Hc as [Hc|Hc]; [discriminate|].
    unfold GoStr.IndexRune in H.
    remember (GoStr.IndexAny t ["%"]) as found eqn:E. symmetry in E.
    destruct found as [idx|].
    + injection H as <- <-. split; [discriminate | intros; split; reflexivity].
    + exfalso. clear H.
      induction t as [|c t IH]; [inversion Hc|].
      simpl in E. destruct (Ascii.eqb c "%") eqn:Ec; simpl in E; [discriminate|].
      apply elem_of_cons in Hc as [Hc|Hc].
      * subst c. rewrite Ascii.eqb_refl in Ec. discriminate.
      * apply IH; try assumption.
        destruct (GoStr.IndexAny t ["%"]); [discriminate | reflexivity].
Qed.

(** The loop of [applyrules] over the rules listed for a target passes over
    the meta rules. *)
Lemma concreteLoop_skips_meta rec rs (u : gostring) ks b :
  Forall (fun k => exists rl, rules rs !! k = Some rl /\ isMeta rl = true) ks ->
  Forall (fun k => is_Some (Graph.rulecnt b !! k)) ks ->
  Graph.concreteLoop rec rs u ks b = Ok b.
Proof.
  intros Hm Hc. induction Hm as [|k ks (rl & Hrl & Hmeta) _ IH]; [reflexivity|].
  apply Forall_cons in Hc as [[c Hk] Hc].
  cbn [Graph.concreteLoop]. rewrite Hk.
  destruct (Graph.maxRuleCnt <? c); [apply IH, Hc|].
  rewrite Hrl, Hmeta. apply IH, Hc.
Qed.

(** C10: every rule set that [add] builds from the empty one of a parse
    satisfies the invariant: the empty one does and [add] preserves it;
    a rule all of whose patterns carry a compiled expression
    leaves the index unchanged and is listed under no name; the patterns that
    the parser builds for a regular-expression rule and for a target with a
    percent sign carry a compiled expression; and the loop of [applyrules]
    over the rules listed for a target adds nothing for meta rules, which
    are left to the scan of all patterns. *)
Theorem C10_targetRules_lists_literal_patterns_only :
  (forall rs, built rs -> indexedLiterally rs) /\
  (forall env, indexedLiterally (emptyRuleSet env)) /\
  (forall rs r, indexedLiterally rs -> indexedLiterally (add rs r)) /\
  (forall rs r, Forall (fun p => rpat p <> None) (targets r) ->
                targetRules (add rs r) = targetRules rs) /\
  (forall rs k r (n : gostring) (ks : list nat),
     indexedLiterally rs -> rules rs !! k = Some r ->
     Forall (fun p => rpat p <> None) (targets r) ->
     targetRules rs !! n = Some ks -> k ∉ ks) /\
  (forall compile regexAttr t p meta,
     targetPattern compile regexAttr t = Some (p, meta) ->
     regexAttr = true \/ "%"%char ∈ t -> rpat p <> None) /\
  (forall rec rs (u : gostring) ks b,
     Forall (fun k => exists rl, rules rs !! k = Some rl /\ isMeta rl = true) ks ->
     Forall (fun k => is_Some (Graph.rulecnt b !! k)) ks ->
     Graph.concreteLoop rec rs u ks b = Ok b).
Proof.
  assert (Hempty : forall env, indexedLiterally (emptyRuleSet env)).
  { intros env n ks k H. simpl in H. rewrite lookup_empty in H. discriminate. }
  assert (Hadd : forall rs r, indexedLiterally rs -> indexedLiterally (add rs r)).
  { intros rs r I n ks k Hl Hk. simpl in Hl.
    destruct (addTargets_lookup _ _ _ _ _ _ Hl Hk)
      as [(ks0 & H0 & Hk0) | (-> & p & Hp & Hp1 & Hp2)].
    + destruct (I n ks0 k H0 Hk0) as (r0 & p & Hr0 & Hp).
      exists r0, p. split; [|exact Hp]. simpl.
      apply lookup_app_l_Some. exact Hr0.
    + exists r, p. simpl. split; [|repeat split; assumption].
      rewrite length_app. simpl.
      replace (length (rules rs) + 1 - 1) with (length (rules rs) + 0) by lia.
      rewrite lookup_app_r by lia.
      replace (length (rules rs) + 0 - length (rules rs)) with 0 by lia.
      reflexivity. }
  split; [induction 1; [apply Hempty | apply Hadd; assumption]|].
  split; [exact Hempty|]. split; [exact Hadd|].
  repeat split; [| | | apply concreteLoop_skips_meta].
  - intros rs r H. simpl. apply addTargets_compiled. exact H.
  - intros rs k r n ks I Hr Hc Hl Hk.
    destruct (I n ks k Hl Hk) as (r0 & p & Hr0 & Hp & Hp1 & _).
    rewrite Hr in Hr0. injection Hr0 as <-.
    rewrite Forall_forall in Hc. apply (Hc p Hp). exact Hp1.
  - intros compile regexAttr t p meta H Hc.
    apply (targetPattern_compiled _ _ _ _ _ H Hc).
Qed.

Lemma C10_witness :
  indexedLiterally (add (add (emptyRuleSet ∅) suffixRule) literalRule) /\
  targetRules (add (emptyRuleSet ∅) suffixRule) = ∅.
Proof.
  destruct C10_targetRules_lists_literal_patterns_only as (_ & H0 & Hadd & Hsame & _).
  split.
  - apply Hadd, Hadd, H0.
  - apply (Hsame (emptyRuleSet ∅) suffixRule).
    repeat constructor. discriminate.
Defined.

End TargetIndex.

(* ===================================================================== *)
(** * Ambiguous recipes *)
(* ===================================================================== *)

Section Ambiguity.
Import Graph.

Local Open Scope nat_scope.

Lemma eqb_refl (x : gostring) : GoStr.eqb x x = true.
Proof. unfold GoStr.eqb. apply bool_decide_eq_true_2. reflexivity. Qed.





(** The edges of a node on which [ambiguous] runs, as [applyrules] leaves
    them: first the edges [cs] of a concrete rule [kc], then the edges [ms]
    of a meta rule [km], none of them marked. *)
Variable rules : list Rules.rule.
Variables kc km : nat.
Variables rc rm : Rules.rule.
Hypothesis Hkc : rules !! kc = Some rc.
Hypothesis Hkm : rules !! km = Some rm.
Hypothesis Hconcrete : Rules.isMeta rc = false.
Hypothesis Hmeta : Rules.isMeta rm = true.
Hypothesis Hrc : Rules.recipe rc <> [].
Hypothesis Hrm : Rules.recipe rm <> [].
Hypothesis Hdiff : Rules.equivRecipe rc rm = false.








End Ambiguity.

Section GraphExamples.
Import Rules.

Local Open Scope nat_scope.



(** C3 (what the code does): the concrete loop of [applyrules] skips a rule
    only when its count exceeds [maxRuleCnt], so the concrete rule [a b: b] is
    applied for the target a and again, nested in that application, for its
    prerequisite b: its count reaches 2. *)
Theorem C3_concrete_rule_applied_twice_on_a_chain fuel :
  match Graph.buildgraph_applyrules (fun _ => None) false (3 + fuel)
          (add (emptyRuleSet ∅) selfFeeding) (str "a") with
  | Ok b =>
      Graph.uses b = [(0, 1); (0, 2)] /\ Graph.maxRuleCnt = 1 /\
      Graph.prereqs <$> Graph.nodes b !! str "a" = Some [concreteEdge "b"] /\
      Graph.prereqs <$> Graph.nodes b !! str "b" = Some [concreteEdge "b"] /\
      Graph.rulecnt b = [0]
  | _ => False
  end.
Proof. vm_compute. repeat split; reflexivity. Qed.

(** The construction of this graph then stops at the cycle check. *)
Lemma selfFeeding_cycle fuel :
  Graph.buildgraph (fun _ => None) false (3 + fuel)
    (add (emptyRuleSet ∅) selfFeeding) (str "a") = Exit.
Proof. vm_compute. reflexivity. Qed.

End GraphExamples.

(* ===================================================================== *)
(** * The number of parallel jobs *)
(* ===================================================================== *)

Section Jobs.
Import Mk.

Lemma flagParse_keeps_jobs args o :
  forallb (fun a => negb (isJobsFlag a)) args = true ->
  subprocsAllowed (fold_left flagSet args o) = subprocsAllowed o.
Proof.
  revert o. induction args as [|a args IH]; intros o H; simpl; [reflexivity|].
  simpl in H. apply andb_true_iff in H as [Ha H].
  rewrite IH by exact H. destruct a; simpl in *; try reflexivity; discriminate.
Qed.

(** C9 (what the code does): [-p] sets [subprocsAllowed], which bounds the
    slots that [reserveSubproc] hands out; without [-p] the bound is 4, the
    default given to [flag.IntVar], and not 8. *)
Theorem C9_default_jobs_is_four :
  subprocsAllowed (flagParse []) = 4 /\
  (forall args, forallb (fun a => negb (isJobsFlag a)) args = true ->
                subprocsAllowed (flagParse args) = 4) /\
  (forall args n, subprocsAllowed (flagParse (args ++ [flag_p n])) = n) /\
  (forall allowed running running',
     reserveSubproc allowed running = Some running' -> running' <= allowed) /\
  subprocsAllowed (flagParse []) <> 8.
Proof.
  repeat split.
  - intros args H. unfold flagParse. rewrite flagParse_keeps_jobs by exact H. reflexivity.
  - intros args n. unfold flagParse. rewrite fold_left_app. reflexivity.
  - intros allowed running running'. unfold reserveSubproc.
    destruct (running >=? allowed) eqn:E; [discriminate|].
    intros H. injection H as <-. lia.
  - discriminate.
Qed.

Lemma C9_witness : subprocsAllowed (flagParse [flag_n true; flag_q true]) = 4.
Proof.
  destruct C9_default_jobs_is_four as (_ & H & _).
  apply H. reflexivity.
Defined.

End Jobs.

(* ===================================================================== *)
(** * How often a rule is applied along a chain *)
(* ===================================================================== *)

Section RuleUse.
Import Graph.

Local Open Scope nat_scope.

Variable stat : gostring -> option Z.
Variable rebuildAll : bool.
Variable rs : Rules.ruleSet.

Lemma follows_refl b : follows rs b b.
Proof. split; [reflexivity|]. exists []. rewrite app_nil_r. split; [reflexivity | constructor]. Qed.

Lemma follows_trans b1 b2 b3 : follows rs b1 b2 -> follows rs b2 b3 -> follows rs b1 b3.
Proof.
  intros [H1 (n1 & U1 & F1)] [H2 (n2 & U2 & F2)]. split; [congruence|].
  exists (n1 ++ n2). split.
  - rewrite U2, U1, app_assoc. reflexivity.
  - apply Forall_app. split; assumption.
Qed.

Lemma follows_newedge u e b : follows rs b (newedge u e b).
Proof. split; [reflexivity|]. exists []. simpl. rewrite app_nil_r. split; [reflexivity | constructor]. Qed.

Lemma follows_markProbable u b : follows rs b (markProbable u b).
Proof. split; [reflexivity|]. exists []. simpl. rewrite app_nil_r. split; [reflexivity | constructor]. Qed.

Lemma bind_Ok {A B} (x : result A) (f : A -> result B) y :
  bind x f = Ok y -> exists a, x = Ok a /\ f a = Ok y.
Proof. destruct x; simpl; try discriminate. intros H. eauto. Qed.

(** An application of a rule: the count goes up, the edges are built by
    steps that restore the counts, the count goes down. *)
Lemma follows_bracket k c b b1 b2 b3 :
  rulecnt b !! k = Some c -> okUse rs (k, c + 1) ->
  incr k b = Ok b1 -> follows rs b1 b2 -> decr k b2 = Ok b3 ->
  follows rs b b3.
Proof.
  intros Hc Hok Hi [H12 (new & U12 & F12)] Hd.
  unfold incr in Hi. rewrite Hc in Hi. injection Hi as <-.
  simpl in H12, U12.
  assert (Hlt : k < length (rulecnt b)) by (eapply lookup_lt_Some; eassumption).
  unfold decr in Hd. rewrite H12, list_lookup_insert_eq in Hd by exact Hlt.
  injection Hd as <-. split; simpl.
  - rewrite list_insert_insert_eq.
    replace (c + 1 - 1) with c by lia. apply list_insert_id. exact Hc.
  - exists ((k, c + 1) :: new). split.
    + rewrite U12, <- app_assoc. reflexivity.
    + constructor; assumption.
Qed.

Variable rec : gostring -> build -> result build.
Hypothesis rec_follows : forall p b b', rec p b = Ok b' -> follows rs b b'.

Lemma concreteEdges_follows u k ps : forall b b',
  concreteEdges rec u k ps b = Ok b' -> follows rs b b'.
Proof.
  induction ps as [|p ps IH]; intros b b' H; simpl in H.
  - injection H as <-. apply follows_refl.
  - apply bind_Ok in H as (b1 & H1 & H2).
    eapply follows_trans; [eapply rec_follows; eassumption|].
    eapply follows_trans; [apply follows_newedge|]. eapply IH. eassumption.
Qed.

Lemma concreteLoop_follows u ks : forall b b',
  concreteLoop rec rs u ks b = Ok b' -> follows rs b b'.
Proof.
  induction ks as [|k ks IH]; intros b b' H; cbn [concreteLoop] in H.
  - injection H as <-. apply follows_refl.
  - destruct (rulecnt b !! k) as [c|] eqn:Hc; [|discriminate].
    destruct (maxRuleCnt <? c) eqn:Hmax; [apply IH; exact H|].
    destruct (Rules.rules rs !! k) as [rl|] eqn:Hrl; [|discriminate].
    destruct (Rules.isMeta rl) eqn:Hm; [apply IH; exact H|].
    destruct (GoStr.eqb (Rules.recipe rl) [] && (length (Rules.prereqs rl) =? 0));
      [apply IH; exact H|].
    apply bind_Ok in H as (b1 & Hi & H).
    apply bind_Ok in H as (b2 & He & H).
    apply bind_Ok in H as (b3 & Hd & H).
    eapply follows_trans; [|eapply IH; exact H].
    eapply follows_trans; [apply (follows_markProbable u)|].
    eapply (follows_bracket k c (markProbable u b) b1 b2 b3); try eassumption.
    + split; simpl.
      * apply Nat.ltb_ge in Hmax. unfold maxRuleCnt in Hmax. lia.
      * intros rl' Hrl' Hm'. congruence.
    + destruct (length (Rules.prereqs rl) =? 0).
      * injection He as <-. apply follows_newedge.
      * eapply concreteEdges_follows. eassumption.
Qed.

Lemma metaEdges_follows fuel regexAttr u k st ms mv ps : forall b b',
  metaEdges rec fuel regexAttr u k st ms mv ps b = Ok b' -> follows rs b b'.
Proof.
  induction ps as [|p ps IH]; intros b b' H; simpl in H.
  - injection H as <-. apply follows_refl.
  - apply bind_Ok in H as (prereq & _ & H).
    apply bind_Ok in H as (b1 & H1 & H2).
    eapply follows_trans; [eapply rec_follows; eassumption|].
    eapply follows_trans; [apply follows_newedge|]. eapply IH. eassumption.
Qed.

Lemma metaTargets_follows fuel rl u k ts : forall b b',
  rulecnt b !! k = Some 0 ->
  metaTargets rec fuel rl u k ts b = Ok b' -> follows rs b b'.
Proof.
  induction ts as [|p ts IH]; intros b b' Hc H; cbn [metaTargets] in H.
  - injection H as <-. apply follows_refl.
  - destruct (Rules.pattern_match p u) as [mat|]; [|apply IH; assumption].
    apply bind_Ok in H as ([[st ms] mv] & _ & H).
    apply bind_Ok in H as (b1 & Hi & H).
    apply bind_Ok in H as (b2 & He & H).
    apply bind_Ok in H as (b3 & Hd & H).
    assert (F : follows rs b b3).
    { eapply (follows_bracket k 0 b b1 b2 b3); try eassumption.
      - split; simpl; [lia | reflexivity].
      - destruct (length (Rules.prereqs rl) =? 0).
        + injection He as <-. apply follows_newedge.
        + eapply metaEdges_follows. eassumption. }
    eapply follows_trans; [exact F|]. eapply IH; [|exact H].
    destruct F as [F _]. rewrite F. exact Hc.
Qed.

Lemma metaLoop_follows fuel u rls : forall k b b',
  metaLoop rec fuel u k rls b = Ok b' -> follows rs b b'.
Proof.
  induction rls as [|rl rls IH]; intros k b b' H; cbn [metaLoop] in H.
  - injection H as <-. apply follows_refl.
  - destruct (rulecnt b !! k) as [c|] eqn:Hc; [|discriminate].
    destruct (maxRuleCnt <=? c) eqn:Hmax; [eapply IH; exact H|].
    destruct (negb (Rules.isMeta rl)); [eapply IH; exact H|].
    destruct (GoStr.eqb (Rules.recipe rl) [] && (length (Rules.prereqs rl) =? 0));
      [eapply IH; exact H|].
    apply bind_Ok in H as (b1 & Ht & H).
    eapply follows_trans; [|eapply IH; exact H].
    eapply metaTargets_follows; [|exact Ht].
    apply Nat.leb_gt in Hmax. unfold maxRuleCnt in Hmax.
    replace c with 0 in Hc by lia. exact Hc.
Qed.

End RuleUse.

Section RuleUseBound.
Import Graph.

Local Open Scope nat_scope.

Variable stat : gostring -> option Z.
Variable rebuildAll : bool.
Variable rs : Rules.ruleSet.

Lemma applyrules_follows fuel : forall target b b',
  applyrules stat rebuildAll fuel rs target b = Ok b' -> follows rs b b'.
Proof.
  induction fuel as [|fuel IH]; intros target b b' H; [discriminate|].
  cbn [applyrules] in H.
  destruct (nodes b !! target); [injection H as <-; apply follows_refl|].
  apply bind_Ok in H as (b1 & H1 & H2).
  eapply follows_trans; [|eapply metaLoop_follows; [exact IH | exact H2]].
  eapply follows_trans; [|eapply concreteLoop_follows; [exact IH | exact H1]].
  split; [reflexivity|]. exists []. simpl. rewrite app_nil_r.
  split; [reflexivity | constructor].
Qed.

(** X20: along a chain of nested applications a meta rule is never applied while
    it is in use, and a concrete rule is applied at most twice; when
    [applyrules] returns every rule count is back at zero. *)
Lemma applyrules_rule_use_bound fuel target b :
  buildgraph_applyrules stat rebuildAll fuel rs target = Ok b ->
  Forall (okUse rs) (uses b) /\
  rulecnt b = repeat 0 (length (Rules.rules rs)).
Proof.
  intros H. apply applyrules_follows in H as [H1 (new & H2 & H3)].
  simpl in H1, H2. subst new. split; assumption.
Qed.

End RuleUseBound.

(* ===================================================================== *)
(** * The loop of expandRecipeSigils ends *)
(* ===================================================================== *)

Section RecipeSigils.
Import GoStr Expand.

Local Open Scope char_scope.
Local Open Scope nat_scope.

Lemma bind_returns {A B} (x : result A) (f : A -> result B) :
  x <> OutOfFuel -> (forall a, x = Ok a -> f a <> OutOfFuel) ->
  bind x f <> OutOfFuel.
Proof. destruct x; simpl; intros H1 H2; try discriminate; [apply H2; reflexivity | congruence]. Qed.

Lemma sliceFrom_returns s i : sliceFrom s i <> OutOfFuel.
Proof. unfold sliceFrom. destruct (i <=? length s); discriminate. Qed.

Lemma sliceTo_returns s i : sliceTo s i <> OutOfFuel.
Proof. unfold sliceTo. destruct (i <=? length s); discriminate. Qed.

Lemma slice_returns s i j : slice s i j <> OutOfFuel.
Proof. unfold slice. destruct ((i <=? j) && (j <=? length s)); discriminate. Qed.

Lemma expandSigil_returns input vars : expandSigil input vars <> OutOfFuel.
Proof.
  unfold expandSigil.
  destruct (DecodeRuneInString input) as [c w].
  assert (Htail : forall varname offset,
             (if isValidVarName varname
              then match vars !! varname with
                   | Some varvals => Ok (varvals, offset)
                   | None => let* pre := sliceTo input offset in Ok (["$" :: pre], offset)
                   end
              else Ok (["$" :: input], length input)) <> OutOfFuel).
  { intros varname offset. destruct (isValidVarName varname); [|discriminate].
    destruct (vars !! varname); [discriminate|].
    apply bind_returns; [apply sliceTo_returns | discriminate]. }
  destruct (runeIs c "$"); [discriminate|].
  destruct (runeIs c "{").
  - apply bind_returns; [apply sliceFrom_returns|]. intros rest _.
    destruct (IndexRune rest "}") as [j|]; [|discriminate].
    apply bind_returns; [apply slice_returns|]. intros varname _.
    destruct (Regexp.FindStringSubmatch namelist_pattern varname) as [mat|];
      [|apply Htail].
    destruct (isValidVarName (mat !!! 1)); [|apply Htail].
    destruct (vars !! (mat !!! 1)); [|discriminate].
    destruct (compileQuoted (mat !!! 2) (mat !!! 3)); discriminate.
  - destruct (0 <? scanName input 0); [|discriminate].
    apply bind_returns; [apply slice_returns|]. intros varname _. apply Htail.
Qed.

Lemma IndexAny_Some s chars : forall j,
  IndexAny s chars = Some j ->
  exists c rest, drop j s = c :: rest /\ mem c chars = true.
Proof.
  induction s as [|x s IH]; intros j H; simpl in H; [discriminate|].
  destruct (mem x chars) eqn:E.
  - injection H as <-. exists x, s. split; [reflexivity | exact E].
  - destruct (IndexAny s chars) as [j'|]; [|discriminate].
    injection H as <-. destruct (IH j' eq_refl) as (c & rest & H1 & H2).
    exists c, rest. split; [exact H1 | exact H2].
Qed.

(** Every round of the loop of [expandRecipeSigils] consumes at least the
    byte it stopped at, so the loop ends, with a result other than
    [OutOfFuel], once the fuel exceeds what is left of the input. *)
Lemma expandRecipeSigils_loop_returns fuel : forall input vars i expanded,
  length input - i < fuel ->
  expandRecipeSigils_loop fuel input vars i expanded <> OutOfFuel.
Proof.
  induction fuel as [|fuel IH]; intros input vars i expanded Hf; [lia|].
  cbn [expandRecipeSigils_loop].
  destruct (i <? length input) eqn:Hi; [|discriminate].
  apply Nat.ltb_lt in Hi.
  rewrite sliceFrom_ok by lia. cbn [bind].
  destruct (IndexAny (drop i input) ["$"; "\"]) as [off|] eqn:Hoff; [|discriminate].
  destruct (IndexAny_Some _ _ _ Hoff) as (c & rest & Hdrop & Hmem).
  rewrite drop_drop in Hdrop.
  apply bind_returns; [apply slice_returns|]. intros seg _.
  apply bind_returns; [apply sliceFrom_returns|]. intros rest' Hrest'.
  assert (Hlen : i + off < length input).
  { destruct (decide (i + off < length input)) as [|Hge]; [assumption|].
    rewrite drop_ge in Hdrop by lia. discriminate. }
  rewrite sliceFrom_ok in Hrest' by lia. injection Hrest' as <-.
  rewrite Hdrop. cbn [DecodeRuneInString].
  unfold mem in Hmem. cbn [existsb] in Hmem. rewrite orb_false_r in Hmem.
  unfold runeIs.
  destruct (Ascii.eqb c "$") eqn:E1.
  - apply bind_returns; [apply sliceFrom_returns|]. intros r1 _.
    apply bind_returns; [apply expandSigil_returns|]. intros [ex k] _.
    apply IH. lia.
  - rewrite orb_false_l in Hmem. rewrite Hmem.
    apply bind_returns; [apply sliceFrom_returns|]. intros r1 _.
    destruct (DecodeRuneInString r1) as [c' w'].
    apply IH. lia.
Qed.

(** [expandRecipeSigils] never runs out of the fuel it gives to its loop. *)
Lemma expandRecipeSigils_returns input vars :
  expandRecipeSigils input vars <> OutOfFuel.
Proof. apply expandRecipeSigils_loop_returns. lia. Qed.

End RecipeSigils.

(* ===================================================================== *)
(** * Words: quotes, escapes and references in expand *)
(* ===================================================================== *)

Section ExpandWords.
Import GoStr Expand.
Local Open Scope char_scope.
Local Open Scope nat_scope.

Variable shellWords : gostring -> list gostring.

Local Arguments IsLetter : simpl never.
Local Arguments IsDigit : simpl never.

(** [strings.Index] for a one-byte text. *)
Lemma Index_byte q c rest :
  Forall (fun x => x <> c) q -> Index (q ++ c :: rest) [c] = Some (length q).
Proof.
  induction 1 as [|x q Hx _ IH]; simpl.
  - rewrite Ascii.eqb_refl. reflexivity.
  - apply Ascii.eqb_neq in Hx. rewrite Ascii.eqb_sym, Hx. simpl. rewrite IH. reflexivity.
Qed.

Lemma Index_byte_none q c :
  Forall (fun x => x <> c) q -> Index q [c] = None.
Proof.
  induction 1 as [|x q Hx _ IH]; simpl; [reflexivity|].
  apply Ascii.eqb_neq in Hx. rewrite Ascii.eqb_sym, Hx. simpl. rewrite IH. reflexivity.
Qed.

(** One round of the loop of [expand] on plain bytes followed by one of the
    bytes the loop stops at: what is left of the round is the [switch]. *)
Lemma expand_loop_round dq fuel done seg c rest vars eb parts expanded :
  Forall (fun x => plain x = true) seg -> plain c = false ->
  expand_loop shellWords dq (S fuel) (done ++ seg ++ c :: rest) vars eb
    (length done) parts expanded
  = let input := done ++ seg ++ c :: rest in
    let i := length done + length seg + 1 in
    let expanded := expanded ++ seg in
    let* '(parts, expanded, off) :=
      if runeIs (Some c) "\" then
        let '(out, off) := expandEscape rest in
        Ok (parts, expanded ++ out, off)
      else if runeIs (Some c) dquote then
        let* '(out, off) := dq rest in
        Ok (parts, expanded ++ out, off)
      else if runeIs (Some c) "'" then
        let* '(out, off) := expandSingleQuoted rest in
        Ok (parts, expanded ++ out, off)
      else if runeIs (Some c) "`" then
        if eb then
          let* '(outparts, off) := expandBackQuoted shellWords rest in
          match outparts with
          | [] => Ok (parts, expanded, off)
          | o :: os =>
              let outparts := (expanded ++ o) :: os in
              Ok (parts ++ List.removelast outparts, List.last outparts [], off)
          end
        else Ok (parts, expanded ++ input, length input)
      else if runeIs (Some c) "$" then
        let* '(outparts, off) := expandSigil rest vars in
        match outparts with
        | [] => Ok (parts, expanded, off)
        | o :: os =>
            let firstpart := expanded ++ o in
            match os with
            | [] => Ok (parts, firstpart, off)
            | _ :: _ =>
                Ok ((parts ++ [firstpart]) ++ List.removelast os, List.last os [], off)
            end
        end
      else Ok (parts, expanded, 0) in
    expand_loop shellWords dq fuel input vars eb (i + off) parts expanded.
Proof.
  intros Hseg Hc.
  set (input := done ++ seg ++ c :: rest).
  assert (Hlen : length input = length done + length seg + 1 + length rest).
  { unfold input. rewrite !length_app. simpl. lia. }
  cbn [expand_loop]. cbv zeta. fold input.
  assert (Hlt : (length done <? length input) = true) by (apply Nat.ltb_lt; lia).
  rewrite Hlt.
  rewrite sliceFrom_ok by lia. unfold input at 1. rewrite drop_app_length.
  cbn [bind].
  rewrite IndexAny_app_first
    by (try apply plain_mem; auto; unfold plain in Hc; apply negb_false_iff in Hc; exact Hc).
  rewrite slice_ok by lia.
  replace (length seg + length done - length done) with (length seg) by lia.
  unfold input at 1. rewrite drop_app_length, take_app_length. cbn [bind].
  rewrite sliceFrom_ok by lia.
  assert (Hd1 : drop (length seg + length done) input = c :: rest).
  { unfold input. rewrite app_assoc.
    replace (length seg + length done) with (length (done ++ seg))
      by (rewrite length_app; lia).
    apply drop_app_length. }
  rewrite Hd1. cbn [bind DecodeRuneInString].
  rewrite sliceFrom_ok by lia.
  assert (Hd2 : drop (length seg + length done + 1) input = rest).
  { unfold input.
    change (c :: rest) with ([c] ++ rest). rewrite !app_assoc.
    replace (length seg + length done + 1) with (length ((done ++ seg) ++ [c]))
      by (rewrite !length_app; simpl; lia).
    apply drop_app_length. }
  rewrite Hd2. cbn [bind].
  replace (length seg + length done + 1) with (length done + length seg + 1) by lia.
  reflexivity.
Qed.


(** X1: a word of plain bytes only (no quote, backquote, dollar sign or backslash)
    expands to itself, as one word; the empty word expands to no word. *)
Theorem expand_plain_word fuel (s : gostring) vars backticks :
  Forall (fun x => plain x = true) s ->
  expand shellWords (2 + fuel) s vars backticks = Ok (if decide (s = []) then [] else [s]).
Proof.
  intros Hs. change (2 + fuel) with (S (S fuel)). cbn [expand].
  rewrite (expand_loop_plain_rest shellWords _ fuel [] s vars backticks [] [] Hs).
  cbn [app]. unfold finishParts.
  destruct s; reflexivity.
Qed.

(** X2: between single quotes the text is taken as it is and joined to the plain
    text around it; a single quote that is not closed quotes the rest of the
    word. *)
Theorem expand_single_quoted fuel (pre q post : gostring) vars backticks :
  Forall (fun x => plain x = true) pre ->
  Forall (fun x => x <> "'") q ->
  Forall (fun x => plain x = true) post ->
  expand shellWords (3 + fuel) (pre ++ "'" :: q ++ "'" :: post) vars backticks
  = Ok (if decide (pre ++ q ++ post = []) then [] else [pre ++ q ++ post]) /\
  expand shellWords (3 + fuel) (pre ++ "'" :: q) vars backticks
  = Ok (if decide (pre ++ q = []) then [] else [pre ++ q]).
Proof.
  intros Hpre Hq Hpost. change (3 + fuel) with (S (S (S fuel))). cbn [expand]. split.
  - rewrite (expand_loop_round _ (S fuel) [] pre "'" (q ++ "'" :: post)) by (auto; reflexivity).
    cbv zeta.
    change (runeIs (Some "'") "\") with false.
    change (runeIs (Some "'") dquote) with false.
    change (runeIs (Some "'") "'") with true. cbv iota.
    unfold expandSingleQuoted. rewrite Index_byte by assumption.
    rewrite sliceTo_ok by (rewrite length_app; lia).
    rewrite take_app_length. cbn [bind app length].
    replace (pre ++ "'" :: q ++ "'" :: post) with ((pre ++ "'" :: q ++ ["'"]) ++ post)
      by (rewrite <- !app_assoc; cbn [app]; rewrite <- app_assoc; reflexivity).
    replace (0 + length pre + 1 + (length q + 1)) with (length (pre ++ "'" :: q ++ ["'"]))
      by (rewrite !length_app; cbn [length]; rewrite length_app; cbn [length]; lia).
    rewrite expand_loop_plain_rest by assumption.
    unfold finishParts. rewrite <- ?app_assoc.
    destruct (pre ++ q ++ post); reflexivity.
  - rewrite (expand_loop_round _ (S fuel) [] pre "'" q) by (auto; reflexivity).
    cbv zeta.
    change (runeIs (Some "'") "\") with false.
    change (runeIs (Some "'") dquote) with false.
    change (runeIs (Some "'") "'") with true. cbv iota.
    unfold expandSingleQuoted. rewrite Index_byte_none by assumption.
    cbn [bind app length].
    cbn [expand_loop].
    replace (0 + length pre + 1 + length q <? length (pre ++ "'" :: q)) with false
      by (symmetry; apply Nat.ltb_ge; rewrite length_app; cbn [length]; lia).
    unfold finishParts. rewrite <- ?app_assoc.
    destruct (pre ++ q); reflexivity.
Qed.





Lemma finishParts_decide parts (x : gostring) :
  finishParts parts x = parts ++ (if decide (x = []) then [] else [x]).
Proof.
  unfold finishParts. destruct x; cbn [length Nat.ltb Nat.leb].
  - rewrite app_nil_r. reflexivity.
  - reflexivity.
Qed.




(** [expandDoubleQuoted] on a text with a closing quote and no backslash
    before it: the text up to and with the quote is expanded, and two bytes
    more than the text are consumed. *)
Lemma expandDoubleQuoted_closed E fuel (q tail : gostring) :
  Forall (fun x => mem x [dquote; "\"] = false) q ->
  expandDoubleQuoted_loop E (S fuel) (q ++ dquote :: tail) 0
  = let* parts := E (q ++ [dquote]) in Ok (Join parts [" "], length q + 2).
Proof.
  intros Hq. cbn [expandDoubleQuoted_loop].
  rewrite sliceFrom_ok by lia. rewrite drop_0. cbn [bind].
  rewrite IndexAny_app_first by (auto; reflexivity).
  rewrite sliceFrom_ok by (rewrite length_app; lia).
  rewrite drop_app_length. cbn [bind DecodeRuneInString].
  change (runeIs (Some dquote) dquote) with true. cbv iota.
  rewrite sliceTo_ok by (rewrite length_app; cbn [length]; lia).
  replace (q ++ dquote :: tail) with ((q ++ [dquote]) ++ tail)
    by (rewrite <- app_assoc; reflexivity).
  replace (length q + 1) with (length (q ++ [dquote]))
    by (rewrite length_app; cbn [length]; lia).
  rewrite take_app_length. cbn [bind].
  destruct (E (q ++ [dquote])); cbn [bind]; try reflexivity.
  rewrite length_app. cbn [length]. f_equal. f_equal. lia.
Qed.

(** A closing quote at the end of a word is an empty quotation. *)
Lemma expand_loop_closing_quote E fuel1 fuel done seg vars eb parts expanded :
  Forall (fun x => plain x = true) seg ->
  expand_loop shellWords (fun quoted => expandDoubleQuoted_loop E (S fuel1) quoted 0)
    (S (S fuel)) (done ++ seg ++ [dquote]) vars eb (length done) parts expanded
  = Ok (finishParts parts (expanded ++ seg)).
Proof.
  intros Hseg.
  rewrite (expand_loop_round _ (S fuel) done seg dquote []) by (auto; reflexivity).
  cbv zeta.
  change (runeIs (Some dquote) "\") with false.
  change (runeIs (Some dquote) dquote) with true. cbv iota.
  cbn [expandDoubleQuoted_loop sliceFrom length Nat.leb drop bind IndexAny].
  rewrite app_nil_r. cbn [expand_loop].
  replace (length done + length seg + 1 + 0 <? length (done ++ seg ++ [dquote])) with false
    by (symmetry; apply Nat.ltb_ge; rewrite !length_app; cbn [length]; lia).
  reflexivity.
Qed.

Lemma plain_not_quote l :
  Forall (fun x => plain x = true) l ->
  Forall (fun x => mem x [dquote; "\"] = false) l.
Proof.
  intros H. eapply Forall_impl; [exact H|]. intros x Hx.
  unfold plain in Hx. apply negb_true_iff in Hx.
  unfold mem in *. cbn [existsb] in *.
  repeat (apply orb_false_iff in Hx as [? Hx]).
  repeat (apply orb_false_iff; split); assumption.
Qed.

Lemma Join_word (w : gostring) sep :
  Join (if decide (w = []) then [] else [w]) sep = w.
Proof. destruct w; reflexivity. Qed.

(** X4: plain text between double quotes is joined to the plain text around it,
    but the byte that follows the closing quote is lost: [expandDoubleQuoted]
    returns an offset one byte too far. *)
Theorem expand_double_quoted fuel (pre q tail : gostring) vars backticks :
  Forall (fun x => plain x = true) pre ->
  Forall (fun x => plain x = true) q ->
  Forall (fun x => plain x = true) (drop 1 tail) ->
  expand shellWords (4 + fuel) (pre ++ dquote :: q ++ dquote :: tail) vars backticks
  = Ok (if decide (pre ++ q ++ drop 1 tail = []) then []
        else [pre ++ q ++ drop 1 tail]).
Proof.
  intros Hpre Hq Htail. change (4 + fuel) with (S (S (S (S fuel)))).
  cbn [expand].
  rewrite (expand_loop_round _ (S (S fuel)) [] pre dquote (q ++ dquote :: tail))
    by (auto; reflexivity).
  cbv zeta.
  change (runeIs (Some dquote) "\") with false.
  change (runeIs (Some dquote) dquote) with true. cbv iota.
  rewrite expandDoubleQuoted_closed by (apply plain_not_quote; assumption).
  cbn [expand].
  rewrite (expand_loop_closing_quote _ (S fuel) fuel [] q vars backticks [] [] Hq).
  cbn [bind app length]. rewrite finishParts_decide. cbn [app]. rewrite Join_word.
  destruct tail as [|c post].
  - cbn [drop]. rewrite !app_nil_r.
    destruct fuel as [|fuel]; cbn [expand_loop];
      replace (0 + length pre + 1 + (length q + 2) <? length (pre ++ dquote :: q ++ [dquote]))
        with false
        by (symmetry; apply Nat.ltb_ge; rewrite !length_app; cbn [length];
            rewrite length_app; cbn [length]; lia);
      rewrite finishParts_decide; reflexivity.
  - cbn [drop] in *. rewrite drop_0 in *.
    replace (pre ++ dquote :: q ++ dquote :: c :: post)
      with ((pre ++ dquote :: q ++ [dquote; c]) ++ post)
      by (rewrite <- !app_assoc; cbn [app]; rewrite <- app_assoc; reflexivity).
    replace (0 + length pre + 1 + (length q + 2))
      with (length (pre ++ dquote :: q ++ [dquote; c]))
      by (rewrite !length_app; cbn [length]; rewrite length_app; cbn [length]; lia).
    rewrite expand_loop_plain_rest by assumption.
    rewrite finishParts_decide. rewrite <- !app_assoc. reflexivity.
Qed.


(** X5: with backquotes enabled, the words of the command's output take the
    place of the command, the first joined to the text before it and the last
    to the text after it, and an unclosed backquote gives the text itself;
    with backquotes disabled the whole input is appended to the text before
    the backquote. *)
Theorem expand_back_quoted fuel (pre cmd post rest : gostring) vars :
  Forall (fun x => plain x = true) pre ->
  Forall (fun x => x <> "`") cmd ->
  Forall (fun x => plain x = true) post ->
  expand shellWords (3 + fuel) (pre ++ "`" :: cmd ++ "`" :: post) vars true
  = Ok (spliced pre (shellWords cmd) post) /\
  expand shellWords (3 + fuel) (pre ++ "`" :: cmd) vars true
  = Ok (if decide (pre ++ cmd = []) then [] else [pre ++ cmd]) /\
  expand shellWords (3 + fuel) (pre ++ "`" :: rest) vars false
  = Ok [pre ++ pre ++ "`" :: rest].
Proof.
  intros Hpre Hcmd Hpost. change (3 + fuel) with (S (S (S fuel))). cbn [expand].
  split; [|split].
  - rewrite (expand_loop_round _ (S fuel) [] pre "`" (cmd ++ "`" :: post))
      by (auto; reflexivity).
    cbv zeta.
    change (runeIs (Some "`") "\") with false.
    change (runeIs (Some "`") dquote) with false.
    change (runeIs (Some "`") "'") with false.
    change (runeIs (Some "`") "`") with true. cbv iota.
    unfold expandBackQuoted. rewrite Index_byte by assumption.
    rewrite sliceTo_ok by (rewrite length_app; lia).
    rewrite take_app_length. cbn [bind app length].
    unfold spliced.
    destruct (shellWords cmd) as [|o [|o2 os]];
      cbn [bind app List.removelast List.last];
      (replace (pre ++ "`" :: cmd ++ "`" :: post) with ((pre ++ "`" :: cmd ++ ["`"]) ++ post)
        by (rewrite <- !app_assoc; cbn [app]; rewrite <- app_assoc; reflexivity));
      (replace (0 + length pre + 1 + (length cmd + 1))
         with (length (pre ++ "`" :: cmd ++ ["`"]))
        by (rewrite !length_app; cbn [length]; rewrite length_app; cbn [length]; lia));
      rewrite expand_loop_plain_rest by assumption;
      rewrite finishParts_decide; rewrite <- ?app_assoc; reflexivity.
  - rewrite (expand_loop_round _ (S fuel) [] pre "`" cmd) by (auto; reflexivity).
    cbv zeta.
    change (runeIs (Some "`") "\") with false.
    change (runeIs (Some "`") dquote) with false.
    change (runeIs (Some "`") "'") with false.
    change (runeIs (Some "`") "`") with true. cbv iota.
    unfold expandBackQuoted. rewrite Index_byte_none by assumption.
    cbn [bind app length List.removelast List.last].
    cbn [expand_loop].
    replace (0 + length pre + 1 + length cmd <? length (pre ++ "`" :: cmd)) with false
      by (symmetry; apply Nat.ltb_ge; rewrite length_app; cbn [length]; lia).
    rewrite finishParts_decide. reflexivity.
  - rewrite (expand_loop_round _ (S fuel) [] pre "`" rest) by (auto; reflexivity).
    cbv zeta.
    change (runeIs (Some "`") "\") with false.
    change (runeIs (Some "`") dquote) with false.
    change (runeIs (Some "`") "'") with false.
    change (runeIs (Some "`") "`") with true. cbv iota.
    cbn [bind app length].
    cbn [expand_loop].
    replace (0 + length pre + 1 + length (pre ++ "`" :: rest) <? length (pre ++ "`" :: rest))
      with false by (symmetry; apply Nat.ltb_ge; lia).
    rewrite finishParts_decide.
    destruct (decide (pre ++ pre ++ "`" :: rest = [])) as [E|E]; [|reflexivity].
    apply (f_equal length) in E. rewrite !length_app in E. cbn [length] in E. lia.
Qed.

End ExpandWords.

(* ===================================================================== *)
(** * The text of a recipe *)
(* ===================================================================== *)

Section RecipeText.
Import GoStr Expand.
Local Open Scope char_scope.
Local Open Scope nat_scope.

Local Arguments IsLetter : simpl never.
Local Arguments IsDigit : simpl never.

Lemma recipePlain_mem l :
  Forall (fun x => recipePlain x = true) l ->
  Forall (fun x => mem x ["$"; "\"] = false) l.
Proof.
  intros H. eapply Forall_impl; [exact H|]. intros x Hx.
  unfold recipePlain in Hx. apply negb_true_iff in Hx. exact Hx.
Qed.





Lemma expandRecipeSigils_loop_unfold fuel (input : gostring) vars i expanded :
  expandRecipeSigils_loop (S fuel) input vars i expanded
  = if i <? length input then
      let* rest := sliceFrom input i in
      match IndexAny rest ["$"; "\"] with
      | None => Ok (expanded ++ rest)
      | Some off =>
          let* seg := slice input i (i + off) in
          let expanded := expanded ++ seg in
          let i := i + off in
          let* rest := sliceFrom input i in
          let '(c, w) := DecodeRuneInString rest in
          if runeIs c "$" then
            let i := i + w in
            let* rest := sliceFrom input i in
            let* '(ex, k) := expandSigil rest vars in
            expandRecipeSigils_loop fuel input vars (i + k) (expanded ++ Join ex [" "])
          else if runeIs c "\" then
            let i := i + w in
            let* rest := sliceFrom input i in
            let '(c, w) := DecodeRuneInString rest in
            let expanded :=
              if runeIs c "$" then expanded ++ ["$"]
              else expanded ++ "\" :: runeString c in
            expandRecipeSigils_loop fuel input vars (i + w) expanded
          else expandRecipeSigils_loop fuel input vars i expanded
      end
    else Ok expanded.
Proof. reflexivity. Qed.









End RecipeText.

(* ===================================================================== *)
(** * Suffix rules and equivalent recipes *)
(* ===================================================================== *)

Section SuffixRules.
Import GoStr Expand Rules.
Local Open Scope char_scope.
Local Open Scope nat_scope.

Lemma suffixPlain_mem l :
  Forall (fun x => suffixPlain x = true) l ->
  Forall (fun x => mem x ["\"; "%"] = false) l.
Proof.
  intros H. eapply Forall_impl; [exact H|]. intros x Hx.
  unfold suffixPlain in Hx. apply negb_true_iff in Hx. exact Hx.
Qed.

Lemma expandSuffixes_loop_unfold fuel (input stem : gostring) i expanded :
  expandSuffixes_loop (S fuel) input stem i expanded
  = if i <? length input then
      let* rest := sliceFrom input i in
      match IndexAny rest ["\"; "%"] with
      | None => Ok (expanded ++ rest)
      | Some j =>
          let* rest := sliceFrom input j in
          let '(c, w) := DecodeRuneInString rest in
          let* seg := slice input i j in
          let expanded := expanded ++ seg in
          if runeIs c "%" then
            expandSuffixes_loop fuel input stem (j + w) (expanded ++ stem)
          else
            let j := j + w in
            let* rest := sliceFrom input j in
            let '(c, w) := DecodeRuneInString rest in
            if runeIs c "%" then
              expandSuffixes_loop fuel input stem (j + w) (expanded ++ ["%"])
            else expandSuffixes_loop fuel input stem i expanded
      end
    else Ok expanded.
Proof. reflexivity. Qed.

Lemma expandSuffixes_loop_plain_rest fuel (done post stem : gostring) acc :
  Forall (fun x => suffixPlain x = true) post ->
  expandSuffixes_loop (S fuel) (done ++ post) stem (length done) acc = Ok (acc ++ post).
Proof.
  intros Hp. cbn [expandSuffixes_loop].
  destruct post as [|x post].
  - rewrite !app_nil_r, Nat.ltb_irrefl. reflexivity.
  - replace (length done <? length (done ++ x :: post)) with true
      by (symmetry; apply Nat.ltb_lt; rewrite length_app; simpl; lia).
    rewrite sliceFrom_ok by (rewrite length_app; lia).
    rewrite drop_app_length. cbn [bind].
    rewrite IndexAny_none by (apply suffixPlain_mem; assumption).
    reflexivity.
Qed.

(** X9: a template without percent sign or backslash is left as it is; its one
    [%] is replaced by the stem; its one [\%] gives a percent sign. *)
Theorem expandSuffixes_one_percent fuel (pre post stem : gostring) :
  Forall (fun x => suffixPlain x = true) pre ->
  Forall (fun x => suffixPlain x = true) post ->
  expandSuffixes (1 + fuel) pre stem = Ok pre /\
  expandSuffixes (2 + fuel) (pre ++ "%" :: post) stem = Ok (pre ++ stem ++ post) /\
  expandSuffixes (2 + fuel) (pre ++ "\" :: "%" :: post) stem = Ok (pre ++ "%" :: post).
Proof.
  intros Hpre Hpost. unfold expandSuffixes. repeat split.
  - apply (expandSuffixes_loop_plain_rest fuel [] pre stem [] Hpre).
  - change (2 + fuel) with (S (S fuel)). rewrite expandSuffixes_loop_unfold. cbv zeta.
    set (input := pre ++ "%" :: post).
    assert (Hlen : length input = length pre + 1 + length post).
    { unfold input. rewrite !length_app. simpl. lia. }
    replace (0 <? length input) with true by (symmetry; apply Nat.ltb_lt; lia).
    rewrite sliceFrom_ok by lia. rewrite drop_0. cbn [bind].
    unfold input at 1.
    rewrite IndexAny_app_first by (try apply suffixPlain_mem; auto).
    rewrite sliceFrom_ok by lia. unfold input at 1. rewrite drop_app_length.
    cbn [bind DecodeRuneInString].
    rewrite slice_ok by lia. rewrite drop_0, Nat.sub_0_r.
    unfold input at 1. rewrite take_app_length. cbn [bind app].
    change (runeIs (Some "%") "%") with true. cbv iota.
    replace input with ((pre ++ ["%"]) ++ post)
      by (unfold input; rewrite <- app_assoc; reflexivity).
    replace (length pre + 1) with (length (pre ++ ["%"]))
      by (rewrite length_app; simpl; lia).
    rewrite expandSuffixes_loop_plain_rest by assumption.
    rewrite <- app_assoc. reflexivity.
  - change (2 + fuel) with (S (S fuel)). rewrite expandSuffixes_loop_unfold. cbv zeta.
    set (input := pre ++ "\" :: "%" :: post).
    assert (Hlen : length input = length pre + 2 + length post).
    { unfold input. rewrite !length_app. simpl. lia. }
    replace (0 <? length input) with true by (symmetry; apply Nat.ltb_lt; lia).
    rewrite sliceFrom_ok by lia. rewrite drop_0. cbn [bind].
    unfold input at 1.
    rewrite IndexAny_app_first by (try apply suffixPlain_mem; auto).
    rewrite sliceFrom_ok by lia. unfold input at 1. rewrite drop_app_length.
    cbn [bind DecodeRuneInString].
    rewrite slice_ok by lia. rewrite drop_0, Nat.sub_0_r.
    unfold input at 1. rewrite take_app_length. cbn [bind app].
    change (runeIs (Some "\") "%") with false. cbv iota.
    rewrite sliceFrom_ok by lia.
    assert (Hd : drop (length pre + 1) input = "%" :: post).
    { unfold input. change ("\" :: "%" :: post) with (["\"] ++ "%" :: post).
      rewrite app_assoc.
      replace (length pre + 1) with (length (pre ++ ["\"]))
        by (rewrite length_app; simpl; lia).
      apply drop_app_length. }
    rewrite Hd. cbn [bind DecodeRuneInString].
    change (runeIs (Some "%") "%") with true. cbv iota.
    replace input with ((pre ++ ["\"; "%"]) ++ post)
      by (unfold input; rewrite <- app_assoc; reflexivity).
    replace (length pre + 1 + 1) with (length (pre ++ ["\"; "%"]))
      by (rewrite length_app; simpl; lia).
    rewrite expandSuffixes_loop_plain_rest by assumption.
    rewrite <- app_assoc. reflexivity.
Qed.



(** [equivRecipe] compares the recipe and the shell, nothing else. *)
Lemma equivShell_eq s1 : forall s2,
  length s1 = length s2 -> (equivShell s1 s2 = true <-> s1 = s2).
Proof.
  induction s1 as [|x s1 IH]; intros [|y s2] Hl; simpl in Hl; try discriminate.
  - split; reflexivity.
  - cbn [equivShell]. unfold eqb.
    destruct (bool_decide_reflect (x = y)) as [->|Hxy]; cbn [negb].
    + rewrite IH by lia. split; [intros ->; reflexivity | intros H; injection H; auto].
    + split; [discriminate | intros H; injection H; intros; contradiction].
Qed.

(** X11: two rules have equivalent recipes exactly when their recipe texts are
    equal and their shells are the same lists. *)
Theorem equivRecipe_iff (r1 r2 : rule) :
  equivRecipe r1 r2 = true <-> recipe r1 = recipe r2 /\ shell r1 = shell r2.
Proof.
  unfold equivRecipe, eqb.
  destruct (bool_decide_reflect (recipe r1 = recipe r2)) as [Hr|Hr]; cbn [negb].
  - destruct (Nat.eqb_spec (length (shell r1)) (length (shell r2))) as [Hl|Hl]; cbn [negb].
    + rewrite equivShell_eq by assumption. tauto.
    + split; [discriminate|]. intros [_ Hs]. rewrite Hs in Hl. contradiction.
  - split; [discriminate|]. intros [H _]. contradiction.
Qed.

End SuffixRules.

(* ===================================================================== *)
(** * The attributes of a rule *)
(* ===================================================================== *)

Section AttribsFacts.
Import GoStr Rules Attribs.
Local Open Scope char_scope.
Local Open Scope nat_scope.

Lemma setAttributes_twice a b r :
  setAttributes a (setAttributes b r) = setAttributes a r.
Proof. reflexivity. Qed.

Lemma withFlags_nil a : withFlags [] a = a.
Proof.
  unfold withFlags. cbn [mem existsb]. rewrite !orb_false_r. destruct a; reflexivity.
Qed.

Lemma setAttrib_flag c a :
  mem c flagLetters = true -> setAttrib c a = Some (withFlags [c] a).
Proof.
  intros H. unfold mem, flagLetters in H. cbn [existsb] in H.
  repeat (apply orb_true_iff in H as [H|H];
          [apply Ascii.eqb_eq in H; subst c; destruct a; unfold withFlags; cbn;
           rewrite ?orb_false_r, ?orb_true_r; reflexivity|]).
  discriminate.
Qed.

Lemma withFlags_cons c w a : withFlags w (withFlags [c] a) = withFlags (c :: w) a.
Proof.
  unfold withFlags. cbn [mem existsb delFailed nonstop forcedTimestamp nonVirtual
                          quiet regex update virtual exclusive].
  rewrite !orb_false_r.
  f_equal; rewrite <- orb_assoc; f_equal; apply orb_comm.
Qed.

Lemma withFlags_app w1 w2 a : withFlags w2 (withFlags w1 a) = withFlags (w1 ++ w2) a.
Proof.
  revert a. induction w1 as [|c w1 IH]; intros a.
  - rewrite withFlags_nil. reflexivity.
  - rewrite <- withFlags_cons, IH. cbn [app]. rewrite withFlags_cons. reflexivity.
Qed.

Lemma setAttributes_same r : setAttributes (attributes r) r = r.
Proof. destruct r; reflexivity. Qed.

Lemma appendShell_app a b r :
  appendShell b (appendShell a r) = appendShell (a ++ b) r.
Proof. unfold appendShell. cbn. rewrite app_assoc. reflexivity. Qed.

Lemma appendCommand_app a b r :
  appendCommand b (appendCommand a r) = appendCommand (a ++ b) r.
Proof. unfold appendCommand. cbn. rewrite app_assoc. reflexivity. Qed.

(** The flag letters at the head of an input. *)
Lemma parseAttribs_input_flags w : forall r rest later,
  Forall (fun c => mem c flagLetters = true) w ->
  parseAttribs_input r (w ++ rest) later
  = parseAttribs_input (setAttributes (withFlags w (attributes r)) r) rest later.
Proof.
  induction w as [|c w IH]; intros r rest later Hw.
  - rewrite withFlags_nil, setAttributes_same. reflexivity.
  - inversion Hw as [|? ? Hc Hw']; subst.
    cbn [app parseAttribs_input]. rewrite (setAttrib_flag c _ Hc).
    rewrite IH by assumption. cbn [attributes setAttributes].
    rewrite withFlags_cons. reflexivity.
Qed.

Lemma parseAttribs_words_flags ws : forall r rest,
  Forall (Forall (fun c => mem c flagLetters = true)) ws ->
  parseAttribs r (ws ++ rest)
  = parseAttribs (setAttributes (withFlags (concat ws) (attributes r)) r) rest.
Proof.
  induction ws as [|w ws IH]; intros r rest Hws.
  - cbn [concat app]. rewrite withFlags_nil, setAttributes_same. reflexivity.
  - inversion Hws as [|? ? Hw Hws']; subst.
    cbn [app parseAttribs].
    rewrite <- (app_nil_r w) at 1. rewrite parseAttribs_input_flags by assumption.
    cbn [parseAttribs_input]. rewrite IH by assumption.
    cbn [attributes setAttributes concat]. rewrite withFlags_app. reflexivity.
Qed.


(** X13: after [S] (or [P]) the rest of the word, if there is one, and all later
    words are appended to the shell (or the command) of the rule; they are
    not read as attributes. *)
Theorem parseAttribs_shell_command (r : rule) (ws : list gostring) (w x : gostring)
    (later : list gostring) :
  Forall (Forall (fun c => mem c flagLetters = true)) ws ->
  Forall (fun c => mem c flagLetters = true) w ->
  let r' := setAttributes (withFlags (concat ws ++ w) (attributes r)) r in
  let args := (if decide (x = []) then [] else [x]) ++ later in
  parseAttribs r (ws ++ (w ++ "S" :: x) :: later) = (appendShell args r', None) /\
  parseAttribs r (ws ++ (w ++ "P" :: x) :: later) = (appendCommand args r', None).
Proof.
  intros Hws Hw r' args. split.
  - rewrite parseAttribs_words_flags by assumption.
    cbn [parseAttribs]. rewrite parseAttribs_input_flags by assumption.
    cbn [parseAttribs_input attributes setAttributes].
    rewrite withFlags_app.
    change (setAttrib "S" (withFlags (concat ws ++ w) (attributes r))) with (@None attribSet).
    cbn [Ascii.eqb Bool.eqb]. unfold args, r'.
    destruct x; cbn [length Nat.ltb Nat.leb]; rewrite ?appendShell_app; reflexivity.
  - rewrite parseAttribs_words_flags by assumption.
    cbn [parseAttribs]. rewrite parseAttribs_input_flags by assumption.
    cbn [parseAttribs_input attributes setAttributes].
    rewrite withFlags_app.
    change (setAttrib "P" (withFlags (concat ws ++ w) (attributes r))) with (@None attribSet).
    cbn [Ascii.eqb Bool.eqb]. unfold args, r'.
    destruct x; cbn [length Nat.ltb Nat.leb]; rewrite ?appendCommand_app; reflexivity.
Qed.

End AttribsFacts.

(* ===================================================================== *)
(** * The indentation of a recipe *)
(* ===================================================================== *)

Section Indentation.
Import GoStr Recipe.
Local Open Scope char_scope.
Local Open Scope nat_scope.

Lemma ReadString_line (line rest : gostring) :
  Forall (fun c => c <> newline) line ->
  ReadString (line ++ newline :: rest) = (line ++ [newline], rest, false).
Proof.
  induction 1 as [|c line Hc _ IH]; cbn [app ReadString].
  - reflexivity.
  - apply Ascii.eqb_neq in Hc. rewrite Hc, IH. reflexivity.
Qed.

Lemma ReadString_last (line : gostring) :
  Forall (fun c => c <> newline) line -> ReadString line = (line, [], true).
Proof.
  induction 1 as [|c line Hc _ IH]; cbn [ReadString].
  - reflexivity.
  - apply Ascii.eqb_neq in Hc. rewrite Hc, IH. reflexivity.
Qed.

Lemma ReadString_spec (s : gostring) :
  exists line rest err,
    ReadString s = (line, rest, err) /\ s = line ++ rest /\
    (err = false -> length rest < length s) /\ (err = true -> rest = []).
Proof.
  induction s as [|c s (line & rest & err & IH & Hs & Hlt & He)]; cbn [ReadString].
  - exists [], [], true. repeat split; try reflexivity; discriminate.
  - destruct (Ascii.eqb c newline).
    + exists [c], s, false. repeat split; try reflexivity; [simpl; lia | discriminate].
    + rewrite IH. exists (c :: line), rest, err.
      repeat split; [simpl; congruence | intros H; simpl; specialize (Hlt H); lia | exact He].
Qed.

Lemma stripIndentation_loop_acc fuel (a : gostring) minCol : forall s out,
  stripIndentation_loop fuel s minCol (a ++ out)
  = let* r := stripIndentation_loop fuel s minCol out in Ok (a ++ r).
Proof.
  induction fuel as [|fuel IH]; intros s out; [reflexivity|].
  cbn [stripIndentation_loop].
  destruct (ReadString s) as [[line rest] err].
  rewrite <- app_assoc. destruct err; [reflexivity | apply IH].
Qed.

Lemma stripIndentation_loop_fuel fuel minCol : forall s out,
  length s < fuel ->
  stripIndentation_loop (S fuel) s minCol out = stripIndentation_loop fuel s minCol out.
Proof.
  induction fuel as [|fuel IH]; intros s out Hf; [lia|].
  change (stripIndentation_loop (S (S fuel)) s minCol out)
    with (let '(line, rest, err) := ReadString s in
          let output := out ++ stripLine line 0 minCol in
          if err then Ok output else stripIndentation_loop (S fuel) rest minCol output).
  change (stripIndentation_loop (S fuel) s minCol out)
    with (let '(line, rest, err) := ReadString s in
          let output := out ++ stripLine line 0 minCol in
          if err then Ok output else stripIndentation_loop fuel rest minCol output).
  destruct (ReadString_spec s) as (line & rest & err & -> & Hs & Hlt & He).
  cbv zeta. destruct err; [reflexivity|]. apply IH. specialize (Hlt eq_refl). lia.
Qed.

Lemma stripIndentation_loop_enough fuel minCol s out :
  length s < fuel ->
  stripIndentation_loop fuel s minCol out
  = stripIndentation_loop (S (length s)) s minCol out.
Proof.
  intros Hf. induction fuel as [|fuel IH]; [lia|].
  destruct (decide (fuel = length s)) as [->|Hne]; [reflexivity|].
  rewrite stripIndentation_loop_fuel by lia. apply IH. lia.
Qed.

(** The loop returns. *)
Lemma stripIndentation_loop_returns fuel minCol : forall s out,
  length s < fuel -> exists r, stripIndentation_loop fuel s minCol out = Ok r.
Proof.
  induction fuel as [|fuel IH]; intros s out Hf; [lia|].
  cbn [stripIndentation_loop].
  destruct (ReadString_spec s) as (line & rest & err & -> & Hs & Hlt & He).
  destruct err; [eexists; reflexivity|]. apply IH. specialize (Hlt eq_refl). lia.
Qed.

(** Line by line. *)
Lemma stripIndentation_line (line rest : gostring) minCol :
  Forall (fun c => c <> newline) line ->
  stripIndentation (line ++ newline :: rest) minCol
  = let* r := stripIndentation rest minCol in
    Ok (stripLine (line ++ [newline]) 0 minCol ++ r).
Proof.
  intros Hl. unfold stripIndentation at 1. cbn [stripIndentation_loop].
  rewrite ReadString_line by assumption. cbn [app].
  rewrite <- (app_nil_r (stripLine (line ++ [newline]) 0 minCol)) at 1.
  rewrite stripIndentation_loop_acc.
  rewrite stripIndentation_loop_enough by (rewrite length_app; simpl; lia).
  reflexivity.
Qed.

Lemma stripIndentation_last (line : gostring) minCol :
  Forall (fun c => c <> newline) line ->
  stripIndentation line minCol = Ok (stripLine line 0 minCol).
Proof.
  intros Hl. unfold stripIndentation. cbn [stripIndentation_loop].
  rewrite ReadString_last by assumption. reflexivity.
Qed.

(** What the inner loop leaves of a line. *)
Lemma stripLine_indent (ind body : gostring) : forall col minCol,
  Forall (fun c => mem c [" "; Expand.tab] = true) ind ->
  match body with [] => True | c :: _ => blank c = false end ->
  stripLine (ind ++ body) col minCol = drop (minCol - col) ind ++ body.
Proof.
  induction ind as [|c ind IH]; intros col minCol Hind Hb.
  - cbn [app]. rewrite drop_nil. cbn [app].
    destruct body as [|b body]; [reflexivity|]. cbn [stripLine].
    fold (blank b). rewrite Hb. destruct (col <? minCol); reflexivity.
  - inversion Hind as [|? ? Hc Hind']; subst.
    cbn [app stripLine].
    destruct (Nat.ltb_spec col minCol) as [Hlt|Hge].
    + assert (Hbl : mem c [" "; Expand.tab; newline] = true).
      { unfold mem in *. cbn [existsb] in *. rewrite orb_false_r in Hc.
        apply orb_true_iff in Hc as [Hc|Hc]; rewrite Hc; rewrite ?orb_true_r; reflexivity. }
      rewrite Hbl. rewrite IH by assumption.
      replace (minCol - col) with (S (minCol - (col + 1))) by lia. reflexivity.
    + replace (minCol - col) with 0 by lia. reflexivity.
Qed.

Lemma stripLine_blank_line (ind : gostring) : forall col minCol,
  Forall (fun c => mem c [" "; Expand.tab] = true) ind ->
  stripLine (ind ++ [newline]) col minCol
  = if col + length ind <? minCol then [] else drop (minCol - col) ind ++ [newline].
Proof.
  induction ind as [|c ind IH]; intros col minCol Hind.
  - cbn [app length stripLine]. rewrite Nat.add_0_r, drop_nil.
    destruct (col <? minCol); reflexivity.
  - inversion Hind as [|? ? Hc Hind']; subst.
    cbn [app stripLine length].
    destruct (Nat.ltb_spec col minCol) as [Hlt|Hge].
    + assert (Hbl : mem c [" "; Expand.tab; newline] = true).
      { unfold mem in *. cbn [existsb] in *. rewrite orb_false_r in Hc.
        apply orb_true_iff in Hc as [Hc|Hc]; rewrite Hc; rewrite ?orb_true_r; reflexivity. }
      rewrite Hbl. rewrite IH by assumption.
      replace (col + 1 + length ind) with (col + S (length ind)) by lia.
      replace (minCol - col) with (S (minCol - (col + 1))) by lia. reflexivity.
    + replace (col + S (length ind) <? minCol) with false
        by (symmetry; apply Nat.ltb_ge; lia).
      replace (minCol - col) with 0 by lia. reflexivity.
Qed.

(** X14: [stripIndentation] works line by line: at most [minCol] blanks are taken
    from the head of a line, and a line of fewer than [minCol] blanks and
    nothing else disappears together with its newline. *)
Theorem stripIndentation_lines (ind body rest : gostring) (minCol : nat) :
  Forall (fun c => mem c [" "; Expand.tab] = true) ind ->
  Forall (fun c => c <> newline) body ->
  match body with [] => True | c :: _ => blank c = false end ->
  stripIndentation (ind ++ body ++ newline :: rest) minCol
  = (let* r := stripIndentation rest minCol in
     Ok ((if decide (body = [] /\ length ind < minCol) then []
          else drop minCol ind ++ body ++ [newline]) ++ r)) /\
  stripIndentation (ind ++ body) minCol = Ok (drop minCol ind ++ body).
Proof.
  intros Hind Hbody Hhead.
  assert (Hnl : Forall (fun c => c <> newline) (ind ++ body)).
  { apply Forall_app. split; [|assumption].
    eapply Forall_impl; [exact Hind|]. intros c Hc ->. vm_compute in Hc. discriminate. }
  split.
  - rewrite app_assoc, stripIndentation_line by assumption.
    destruct body as [|b body].
    + rewrite app_nil_r, stripLine_blank_line by assumption.
      cbn [Nat.add]. rewrite Nat.sub_0_r.
      destruct (Nat.ltb_spec (length ind) minCol) as [Hlt|Hge];
        destruct (decide ([] = [] /\ length ind < minCol)) as [[_ Hd]|Hd];
        try reflexivity; try lia.
      exfalso. apply Hd. split; [reflexivity | assumption].
    + rewrite <- app_assoc.
      rewrite stripLine_indent by (assumption || exact Hhead).
      rewrite Nat.sub_0_r.
      destruct (decide (b :: body = [] /\ length ind < minCol)) as [[Hd _]|Hd];
        [discriminate|].
      reflexivity.
  - rewrite stripIndentation_last by assumption.
    rewrite stripLine_indent by assumption. rewrite Nat.sub_0_r. reflexivity.
Qed.

Lemma stripLine_sublist (line : gostring) : forall col minCol,
  stripLine line col minCol `sublist_of` line /\
  filter (fun c => blank c = false) (stripLine line col minCol)
  = filter (fun c => blank c = false) line.
Proof.
  induction line as [|c line IH]; intros col minCol; cbn [stripLine].
  - split; reflexivity.
  - destruct (col <? minCol); [|split; reflexivity].
    fold (blank c). destruct (blank c) eqn:Hb; [|split; reflexivity].
    destruct (IH (col + 1) minCol) as [H1 H2]. split.
    + apply sublist_cons. exact H1.
    + rewrite H2. rewrite filter_cons_False by (rewrite Hb; discriminate). reflexivity.
Qed.

Lemma stripIndentation_loop_keeps fuel minCol : forall s out r,
  stripIndentation_loop fuel s minCol out = Ok r ->
  exists t, r = out ++ t /\ t `sublist_of` s /\
            filter (fun c => blank c = false) t = filter (fun c => blank c = false) s.
Proof.
  induction fuel as [|fuel IH]; intros s out r H; [discriminate|].
  cbn [stripIndentation_loop] in H.
  destruct (ReadString_spec s) as (line & rest & err & Hrs & Hs & Hlt & He).
  rewrite Hrs in H.
  destruct (stripLine_sublist line 0 minCol) as [Hsub Hfil].
  destruct err.
  - injection H as <-. rewrite (He eq_refl), app_nil_r in Hs. subst s.
    eexists. split; [reflexivity|]. split; assumption.
  - apply IH in H as (t & -> & Ht1 & Ht2).
    exists (stripLine line 0 minCol ++ t). rewrite <- app_assoc. split; [reflexivity|].
    subst s. split.
    + apply sublist_app; assumption.
    + rewrite !filter_app, Hfil, Ht2. reflexivity.
Qed.

(** X15: [stripIndentation] returns on every text, changes nothing for column 0,
    and removes nothing but spaces, tabs and newlines: the result is a
    subsequence of the text with the same other bytes. *)
Theorem stripIndentation_removes_blanks_only (s : gostring) (minCol : nat) :
  stripIndentation s 0 = Ok s /\
  exists out,
    stripIndentation s minCol = Ok out /\ out `sublist_of` s /\
    filter (fun c => blank c = false) out = filter (fun c => blank c = false) s.
Proof.
  split.
  - unfold stripIndentation.
    assert (H : forall fuel (s out : gostring), length s < fuel ->
                  stripIndentation_loop fuel s 0 out = Ok (out ++ s)).
    { induction fuel as [|fuel IH]; intros s0 out Hf; [lia|].
      cbn [stripIndentation_loop].
      destruct (ReadString_spec s0) as (line & rest & err & -> & Hs & Hlt & He).
      assert (Hl : stripLine line 0 0 = line) by (destruct line; reflexivity).
      rewrite Hl. destruct err.
      - rewrite (He eq_refl), app_nil_r in Hs. subst. reflexivity.
      - rewrite IH by (specialize (Hlt eq_refl); lia).
        rewrite <- app_assoc. subst. reflexivity. }
    rewrite H by lia. reflexivity.
  - destruct (stripIndentation_loop_returns (S (length s)) minCol s [] ltac:(lia))
      as [r Hr].
    exists r. split; [exact Hr|].
    apply stripIndentation_loop_keeps in Hr as (t & -> & H1 & H2).
    split; assumption.
Qed.

End Indentation.

(* ===================================================================== *)
(** * The variables of a recipe *)
(* ===================================================================== *)

Section RecipeVariables.
Import GoStr Expand Recipe.
Local Open Scope char_scope.
Local Open Scope nat_scope.



End RecipeVariables.

(* ===================================================================== *)
(** * The subprocess slots *)
(* ===================================================================== *)

Section SlotsFacts.
Import Mk Slots.

Variable allowed : Z.




End SlotsFacts.

(* ===================================================================== *)
(** * Cycles of the graph *)
(* ===================================================================== *)

Section Cycles.
Import Graph.
Local Open Scope nat_scope.

Lemma hasFlag_setFlag n : hasFlag nodeFlagCycle (setFlag nodeFlagCycle n) = true.
Proof.
  unfold hasFlag, setFlag. cbn [flags]. apply negb_true_iff, N.eqb_neq.
  intros E. apply (f_equal (fun x => N.testbit x 1)) in E.
  rewrite N.land_spec, N.lor_spec in E. cbn in E. rewrite orb_true_r in E. discriminate.
Qed.

Lemma clearFlag_setFlag n :
  hasFlag nodeFlagCycle n = false -> clearFlag nodeFlagCycle (setFlag nodeFlagCycle n) = n.
Proof.
  intros H. unfold hasFlag in H. apply negb_false_iff, N.eqb_eq in H.
  destruct n as [nr nm pg tt ex pr st ls fl]. unfold clearFlag, setFlag. cbn in *.
  f_equal. apply N.bits_inj. intros i.
  rewrite N.ldiff_spec, N.lor_spec.
  apply (f_equal (fun x => N.testbit x i)) in H. rewrite N.land_spec in H.
  rewrite N.bits_0 in H.
  destruct (N.testbit fl i), (N.testbit nodeFlagCycle i); simpl in *; congruence.
Qed.

Lemma alter_present {A} (f : A -> A) (g : gmap gostring A) u n :
  g !! u = Some n -> alter f u g = <[u := f n]> g.
Proof.
  intros H. rewrite <- (insert_id g u n H) at 1. apply alter_insert_eq.
Qed.

Lemma edgeTo_setFlag g u a b :
  edgeTo (alter (setFlag nodeFlagCycle) u g) a b <-> edgeTo g a b.
Proof.
  unfold edgeTo. split.
  - intros (n & e & Hn & He & Hv). destruct (decide (a = u)) as [->|Hne].
    + rewrite lookup_alter_eq in Hn.
      destruct (g !! u) as [n0|] eqn:E; [|discriminate]. injection Hn as <-.
      exists n0, e. auto.
    + rewrite lookup_alter_ne in Hn by congruence. eauto.
  - intros (n & e & Hn & He & Hv). destruct (decide (a = u)) as [->|Hne].
    + exists (setFlag nodeFlagCycle n), e. rewrite lookup_alter_eq, Hn. auto.
    + exists n, e. rewrite lookup_alter_ne by congruence. auto.
Qed.

Lemma rtc_edgeTo_setFlag g u a b :
  rtc (edgeTo (alter (setFlag nodeFlagCycle) u g)) a b <-> rtc (edgeTo g) a b.
Proof.
  split; apply rtc_subrel; intros x y; apply edgeTo_setFlag.
Qed.

Lemma tc_mono {A} (R1 R2 : relation A) :
  (forall x y, R1 x y -> R2 x y) -> forall x y, tc R1 x y -> tc R2 x y.
Proof.
  intros H x y Hxy. induction Hxy as [x y Hxy | x y z Hxy _ IH].
  - apply tc_once, H, Hxy.
  - eapply tc_l; [apply H, Hxy | exact IH].
Qed.

Lemma tc_first {A} (R : relation A) x y :
  tc R x y -> exists z, R x z /\ rtc R z y.
Proof.
  intros H. destruct H as [x y Hxy | x y z Hxy Hyz].
  - exists y. split; [exact Hxy | constructor].
  - exists y. split; [exact Hxy | apply tc_rtc; exact Hyz].
Qed.

Lemma tc_edgeTo_setFlag g u a b :
  tc (edgeTo (alter (setFlag nodeFlagCycle) u g)) a b <-> tc (edgeTo g) a b.
Proof.
  split; apply tc_mono; intros x y; apply edgeTo_setFlag.
Qed.

Lemma onPath_setFlag g u x :
  onPath g x -> onPath (alter (setFlag nodeFlagCycle) u g) x.
Proof.
  intros (n & Hn & Hf). destruct (decide (x = u)) as [->|Hne].
  - exists (setFlag nodeFlagCycle n). rewrite lookup_alter_eq, Hn.
    split; [reflexivity | apply hasFlag_setFlag].
  - exists n. rewrite lookup_alter_ne by congruence. auto.
Qed.

Lemma pathHasEdges_setFlag g u n :
  pathHasEdges g -> g !! u = Some n -> prereqs n <> [] ->
  pathHasEdges (alter (setFlag nodeFlagCycle) u g).
Proof.
  intros Hg Hu Hp x m Hm Hf. destruct (decide (x = u)) as [->|Hne].
  - rewrite lookup_alter_eq, Hu in Hm. injection Hm as <-. exact Hp.
  - rewrite lookup_alter_ne in Hm by congruence. eapply Hg; eassumption.
Qed.

(** The loop of [cyclecheck] over the edges of [u], when every visit that
    returns leaves the graph as it is. *)
Lemma cyclecheck_edges (rec : nodemap -> gostring -> result nodemap) g u n :
  g !! u = Some n ->
  (forall w g', rec g w = Ok g' -> g' = g /\ visited g w) ->
  forall range g',
    forEdges (fun i g => let* e := edgeAt g u i in
                         match v e with
                         | Some w => rec g w
                         | None => Ok g
                         end) range g = Ok g' ->
    g' = g /\
    forall i e w, i ∈ range -> prereqs n !! i = Some e -> v e = Some w -> visited g w.
Proof.
  intros Hu Hrec. induction range as [|i range IH]; intros g' H; cbn [forEdges] in H.
  - injection H as <-. split; [reflexivity|]. intros i e w Hi. inversion Hi.
  - apply bind_Ok in H as (g1 & H1 & H2).
    apply bind_Ok in H1 as (e & He & H1).
    unfold edgeAt in He. rewrite Hu in He.
    destruct (prereqs n !! i) as [e0|] eqn:Hi; [|discriminate]. injection He as ->.
    assert (Hg1 : g1 = g /\ (forall w, v e = Some w -> visited g w)).
    { destruct (v e) as [w|] eqn:Hv.
      - apply Hrec in H1 as [-> Hvis]. split; [reflexivity|].
        intros w' Hw'. injection Hw' as <-. exact Hvis.
      - injection H1 as <-. split; [reflexivity | discriminate]. }
    destruct Hg1 as [-> Hvis].
    apply IH in H2 as [-> Hrest]. split; [reflexivity|].
    intros j e' w' Hj He' Hv'. apply elem_of_cons in Hj as [->|Hj].
    + rewrite Hi in He'. injection He' as <-. apply Hvis. exact Hv'.
    + eapply Hrest; eassumption.
Qed.

(** A visit that returns leaves the graph as it is, and it has met no node
    of the path and no cycle. *)
Lemma cyclecheck_sound fuel : forall g u g',
  pathHasEdges g -> cyclecheck fuel g u = Ok g' -> g' = g /\ visited g u.
Proof.
  induction fuel as [|fuel IH]; intros g u g' Hpath H; [discriminate|].
  cbn [cyclecheck] in H.
  destruct (g !! u) as [n|] eqn:Hu; [|discriminate].
  destruct (hasFlag nodeFlagCycle n && (0 <? length (prereqs n))) eqn:Hf; [discriminate|].
  apply bind_Ok in H as (g2 & Hloop & H). injection H as <-.
  set (g1 := alter (setFlag nodeFlagCycle) u g) in *.
  assert (Hflag : hasFlag nodeFlagCycle n = false).
  { destruct (hasFlag nodeFlagCycle n) eqn:E; [|reflexivity].
    pose proof (Hpath u n Hu E) as Hne. destruct (prereqs n); [congruence|].
    simpl in Hf. discriminate. }
  assert (Hback : alter (clearFlag nodeFlagCycle) u g1 = g).
  { unfold g1. rewrite (alter_present _ g u n Hu), alter_insert_eq.
    rewrite clearFlag_setFlag by exact Hflag. apply insert_id. exact Hu. }
  destruct (prereqs n) as [|e0 es] eqn:Hp.
  - (* no edge *)
    cbn [length seq forEdges] in Hloop. injection Hloop as <-.
    split; [exact Hback|].
    assert (Honly : forall x, rtc (edgeTo g) u x -> x = u).
    { intros x Hx. apply rtc_inv in Hx as [<-|(b & Hab & _)]; [reflexivity|].
      destruct Hab as (m & e & Hm & He & _). rewrite Hu in Hm. injection Hm as <-.
      rewrite Hp in He. inversion He. }
    split.
    + intros x Hx (m & Hm & Hfm). rewrite (Honly x Hx), Hu in Hm. injection Hm as <-.
      congruence.
    + intros x Hx Hc. rewrite (Honly x Hx) in Hc.
      apply tc_first in Hc as (z & (m & e & Hm & He & _) & _).
      rewrite Hu in Hm. injection Hm as <-. rewrite Hp in He. inversion He.
  - (* at least one edge *)
    assert (Hpath1 : pathHasEdges g1).
    { eapply pathHasEdges_setFlag; [exact Hpath | exact Hu | rewrite Hp; discriminate]. }
    assert (Hu1 : g1 !! u = Some (setFlag nodeFlagCycle n)).
    { unfold g1. rewrite lookup_alter_eq, Hu. reflexivity. }
    rewrite <- Hp in Hloop.
    change (length (prereqs n)) with (length (prereqs (setFlag nodeFlagCycle n))) in Hloop.
    apply (cyclecheck_edges (cyclecheck fuel) g1 u _ Hu1) in Hloop; cycle 1.
    { intros w g' Hw. apply IH; assumption. }
    destruct Hloop as [-> Hvis]. split; [exact Hback|].
    assert (Hchild : forall w, edgeTo g u w -> visited g1 w).
    { intros w (m & e & Hm & He & Hv). rewrite Hu in Hm. injection Hm as <-.
      apply list_elem_of_lookup in He as [i Hi].
      eapply (Hvis i e w); [|exact Hi|exact Hv].
      apply elem_of_seq. split; [lia|]. apply lookup_lt_Some in Hi. cbn. lia. }
    assert (HonU : onPath g1 u).
    { exists (setFlag nodeFlagCycle n). split; [exact Hu1 | apply hasFlag_setFlag]. }
    split.
    + intros x Hx Hon. apply rtc_inv in Hx as [<-|(b & Hab & Hbc)].
      * destruct Hon as (m & Hm & Hfm). rewrite Hu in Hm. injection Hm as <-. congruence.
      * destruct (Hchild b Hab) as [Hno _].
        apply (Hno x); [apply rtc_edgeTo_setFlag; exact Hbc | apply onPath_setFlag; exact Hon].
    + intros x Hx Hc. apply rtc_inv in Hx as [<-|(b & Hab & Hbc)].
      * (* a cycle through the node itself comes back to it from a child *)
        apply tc_first in Hc as (w & Hw & Hwa).
        destruct (Hchild w Hw) as [Hno _].
        apply (Hno u); [apply rtc_edgeTo_setFlag; exact Hwa | exact HonU].
      * destruct (Hchild b Hab) as [_ Hac].
        apply (Hac x); [apply rtc_edgeTo_setFlag; exact Hbc | apply tc_edgeTo_setFlag; exact Hc].
Qed.


Lemma onPath_setFlag_inv g u x :
  onPath (alter (setFlag nodeFlagCycle) u g) x -> x = u \/ onPath g x.
Proof.
  intros (n & Hn & Hf). destruct (decide (x = u)) as [->|Hne]; [left; reflexivity|].
  right. rewrite lookup_alter_ne in Hn by congruence. exists n. auto.
Qed.

(** The loop of [cyclecheck] stops with the error of a visit. *)
Lemma cyclecheck_edges_exit (rec : nodemap -> gostring -> result nodemap) g u n :
  g !! u = Some n ->
  (forall w g', rec g w = Ok g' -> g' = g) ->
  forall range,
    forEdges (fun i g => let* e := edgeAt g u i in
                         match v e with
                         | Some w => rec g w
                         | None => Ok g
                         end) range g = Exit ->
    exists e w, e ∈ prereqs n /\ v e = Some w /\ rec g w = Exit.
Proof.
  intros Hu Hrec. induction range as [|i range IH]; intros H; cbn [forEdges] in H.
  - discriminate.
  - unfold edgeAt in H. rewrite Hu in H.
    destruct (prereqs n !! i) as [e|] eqn:Hi; [|discriminate]. cbn [bind] in H.
    destruct (v e) as [w|] eqn:Hv.
    + destruct (rec g w) as [g1| | | |] eqn:Hw; cbn [bind] in H; try discriminate.
      * apply Hrec in Hw as ->. apply IH. exact H.
      * exists e, w. split; [eapply list_elem_of_lookup_2; exact Hi|]. auto.
    + cbn [bind] in H. apply IH. exact H.
Qed.

(** A visit that ends with the error has met a cycle. *)
Lemma cyclecheck_exit fuel : forall g u,
  pathHasEdges g -> ancestors g u -> cyclecheck fuel g u = Exit ->
  exists x, rtc (edgeTo g) u x /\ tc (edgeTo g) x x.
Proof.
  induction fuel as [|fuel IH]; intros g u Hpath Hanc H; [discriminate|].
  cbn [cyclecheck] in H.
  destruct (g !! u) as [n|] eqn:Hu; [|discriminate].
  destruct (hasFlag nodeFlagCycle n && (0 <? length (prereqs n))) eqn:Hf.
  - apply andb_true_iff in Hf as [Hf _].
    exists u. split; [constructor|]. apply Hanc. exists n. auto.
  - set (g1 := alter (setFlag nodeFlagCycle) u g) in *.
    assert (Hu1 : g1 !! u = Some (setFlag nodeFlagCycle n)).
    { unfold g1. rewrite lookup_alter_eq, Hu. reflexivity. }
    match type of H with bind ?x _ = _ => destruct x as [g2| | | |] eqn:Hloop end;
      cbn [bind] in H; try discriminate.
    assert (Hne : prereqs n <> []).
    { intros E. rewrite E in Hloop. cbn in Hloop. discriminate. }
    change (length (prereqs n)) with (length (prereqs (setFlag nodeFlagCycle n))) in Hloop.
    assert (Hpath1 : pathHasEdges g1) by (eapply pathHasEdges_setFlag; eassumption).
    apply (cyclecheck_edges_exit (cyclecheck fuel) g1 u _ Hu1) in Hloop; cycle 1.
    { intros w g' Hw. eapply cyclecheck_sound; eassumption. }
    destruct Hloop as (e & w & He & Hv & Hw).
    assert (Huw : edgeTo g u w) by (exists n, e; auto).
    apply IH in Hw as (x & Hx & Hc); [|exact Hpath1|].
    + exists x. split.
      * eapply rtc_l; [exact Huw | apply rtc_edgeTo_setFlag in Hx; exact Hx].
      * apply tc_edgeTo_setFlag in Hc. exact Hc.
    + intros x Hon. apply tc_edgeTo_setFlag.
      apply onPath_setFlag_inv in Hon as [->|Hon].
      * apply tc_once. exact Huw.
      * eapply tc_r; [apply Hanc; exact Hon | exact Huw].
Qed.

Lemma closed_setFlag g u : closed g -> closed (alter (setFlag nodeFlagCycle) u g).
Proof.
  intros Hc x n e w Hx He Hv.
  assert (Hw : is_Some (g !! w)).
  { destruct (decide (x = u)) as [->|Hne].
    - rewrite lookup_alter_eq in Hx. destruct (g !! u) as [n0|] eqn:E; [|discriminate].
      injection Hx as <-. eapply Hc; eassumption.
    - rewrite lookup_alter_ne in Hx by congruence. eapply Hc; eassumption. }
  destruct Hw as [m Hm]. destruct (decide (w = u)) as [->|Hne].
  - rewrite lookup_alter_eq, Hm. eexists. reflexivity.
  - rewrite lookup_alter_ne by congruence. eauto.
Qed.

Lemma offPath_setFlag g u n :
  g !! u = Some n -> hasFlag nodeFlagCycle n = false ->
  size (offPath (alter (setFlag nodeFlagCycle) u g)) < size (offPath g).
Proof.
  intros Hu Hf. unfold offPath.
  rewrite (alter_present _ g u n Hu).
  rewrite map_filter_insert_False by (cbn; rewrite hasFlag_setFlag; discriminate).
  rewrite map_filter_delete.
  assert (Hin : filter (fun kn : gostring * node => hasFlag nodeFlagCycle kn.2 = false) g !! u
                = Some n).
  { apply map_lookup_filter_Some. split; assumption. }
  rewrite map_size_delete_Some by (eexists; exact Hin).
  assert (Hpos : size (filter (fun kn : gostring * node =>
                                 hasFlag nodeFlagCycle kn.2 = false) g) <> 0).
  { intros E. apply map_size_empty_inv in E. rewrite E, lookup_empty in Hin. discriminate. }
  lia.
Qed.

(** The loop of [cyclecheck] when every visit returns or ends with the
    error. *)
Lemma cyclecheck_edges_returns (rec : nodemap -> gostring -> result nodemap) g u n :
  g !! u = Some n ->
  (forall e w, e ∈ prereqs n -> v e = Some w -> rec g w = Ok g \/ rec g w = Exit) ->
  forall range,
    Forall (fun i => i < length (prereqs n)) range ->
    forEdges (fun i g => let* e := edgeAt g u i in
                         match v e with
                         | Some w => rec g w
                         | None => Ok g
                         end) range g = Ok g \/
    forEdges (fun i g => let* e := edgeAt g u i in
                         match v e with
                         | Some w => rec g w
                         | None => Ok g
                         end) range g = Exit.
Proof.
  intros Hu Hrec range.
  set (body := fun i g => let* e := edgeAt g u i in
                          match v e with
                          | Some w => rec g w
                          | None => Ok g
                          end).
  induction range as [|i range IH]; intros Hr; cbn [forEdges].
  - left. reflexivity.
  - inversion Hr as [|? ? Hi Hr']; subst.
    assert (Hbody : body i g = Ok g \/ body i g = Exit).
    { unfold body, edgeAt. rewrite Hu.
      destruct (lookup_lt_is_Some_2 _ _ Hi) as [e He]. rewrite He. cbn [bind].
      destruct (v e) as [w|] eqn:Hv; [|left; reflexivity].
      apply (Hrec e w); [eapply list_elem_of_lookup_2; exact He | exact Hv]. }
    destruct Hbody as [-> | ->]; cbn [bind]; [apply IH; exact Hr' | right; reflexivity].
Qed.

(** With more fuel than there are nodes off the path, a visit returns or
    ends with the error. *)
Lemma cyclecheck_returns fuel : forall g u,
  pathHasEdges g -> closed g -> is_Some (g !! u) -> size (offPath g) < fuel ->
  cyclecheck fuel g u = Ok g \/ cyclecheck fuel g u = Exit.
Proof.
  induction fuel as [|fuel IH]; intros g u Hpath Hcl [n Hu] Hsize; [lia|].
  cbn [cyclecheck]. rewrite Hu.
  destruct (hasFlag nodeFlagCycle n && (0 <? length (prereqs n))) eqn:Hf;
    [right; reflexivity|].
  set (g1 := alter (setFlag nodeFlagCycle) u g) in *.
  assert (Hflag : hasFlag nodeFlagCycle n = false).
  { destruct (hasFlag nodeFlagCycle n) eqn:E; [|reflexivity].
    pose proof (Hpath u n Hu E) as Hne. destruct (prereqs n); [congruence|].
    simpl in Hf. discriminate. }
  assert (Hback : alter (clearFlag nodeFlagCycle) u g1 = g).
  { unfold g1. rewrite (alter_present _ g u n Hu), alter_insert_eq.
    rewrite clearFlag_setFlag by exact Hflag. apply insert_id. exact Hu. }
  assert (Hu1 : g1 !! u = Some (setFlag nodeFlagCycle n)).
  { unfold g1. rewrite lookup_alter_eq, Hu. reflexivity. }
  assert (Hsize1 : size (offPath g1) < size (offPath g))
    by (eapply offPath_setFlag; eassumption).
  change (length (prereqs n)) with (length (prereqs (setFlag nodeFlagCycle n))).
  destruct (cyclecheck_edges_returns (cyclecheck fuel) g1 u _ Hu1) with
    (range := seq 0 (length (prereqs (setFlag nodeFlagCycle n)))) as [Hloop|Hloop].
  - intros e w He Hv. cbn [prereqs setFlag] in He.
    apply IH.
    + eapply pathHasEdges_setFlag; [exact Hpath | exact Hu|].
      intros E. rewrite E in He. inversion He.
    + apply closed_setFlag. exact Hcl.
    + eapply (closed_setFlag g u Hcl u); [exact Hu1 | exact He | exact Hv].
    + lia.
  - apply Forall_forall. intros i Hi. apply elem_of_seq in Hi. lia.
  - rewrite Hloop. cbn [bind]. rewrite Hback. left. reflexivity.
  - rewrite Hloop. right. reflexivity.
Qed.

(** X18: [cyclecheck] on a graph whose edges lead to nodes and in which no node
    carries the cycle flag, as [buildgraph] calls it: it returns and leaves
    the graph as it was when no cycle can be reached from the node, and it
    ends the program with the error when one can. *)
Theorem cyclecheck_finds_cycles (fuel : nat) (g : nodemap) (u : gostring) :
  (forall x n, g !! x = Some n -> hasFlag nodeFlagCycle n = false) ->
  closed g -> is_Some (g !! u) -> size g < fuel ->
  (acyclicFrom g u /\ cyclecheck fuel g u = Ok g) \/
  (~ acyclicFrom g u /\ cyclecheck fuel g u = Exit).
Proof.
  intros Hno Hcl Hu Hsize.
  assert (Hpath : pathHasEdges g).
  { intros x n Hx Hf. rewrite (Hno x n Hx) in Hf. discriminate. }
  assert (Hoff : size (offPath g) < fuel).
  { eapply Nat.le_lt_trans; [|exact Hsize].
    apply map_subseteq_size. apply map_filter_subseteq. }
  destruct (cyclecheck_returns fuel g u Hpath Hcl Hu Hoff) as [H|H].
  - left. split; [|exact H].
    apply cyclecheck_sound in H as [_ [_ Hac]]; assumption.
  - right. split; [|exact H].
    apply cyclecheck_exit in H as (x & Hx & Hc); [|exact Hpath|].
    + intros Hac. exact (Hac x Hx Hc).
    + intros x (n & Hn & Hf). rewrite (Hno x n Hn) in Hf. discriminate.
Qed.

End Cycles.

(* ===================================================================== *)
(** * The graph that applyrules builds *)
(* ===================================================================== *)

Section Construction.
Import Graph.
Local Open Scope nat_scope.

Variable stat : gostring -> option Z.
Variable rebuildAll : bool.
Variable rs : Rules.ruleSet.

Lemma extends_refl b : extends b b.
Proof. split; auto. Qed.

Lemma extends_trans b1 b2 b3 : extends b1 b2 -> extends b2 b3 -> extends b1 b3.
Proof. intros [H1 W1] [H2 W2]. split; auto. Qed.

Lemma hasFlag_cycle_probable n :
  hasFlag nodeFlagCycle (setFlag nodeFlagProbable n) = hasFlag nodeFlagCycle n.
Proof.
  unfold hasFlag, setFlag. cbn [flags]. f_equal. f_equal.
  rewrite N.land_lor_distr_l.
  change (N.land nodeFlagProbable nodeFlagCycle) with 0%N. apply N.lor_0_r.
Qed.

Lemma wellFormed_alter (f : node -> node) (u : gostring) (g : nodemap) :
  (forall n, name (f n) = name n) ->
  (forall n, hasFlag nodeFlagCycle (f n) = hasFlag nodeFlagCycle n) ->
  (forall n e w, g !! u = Some n -> e ∈ prereqs (f n) -> v e = Some w ->
                 e ∈ prereqs n \/ is_Some (g !! w)) ->
  wellFormed g -> wellFormed (alter f u g).
Proof.
  intros Hname Hflag Hedges (Hcl & Hno & Hnm).
  assert (Hsome : forall w, is_Some (g !! w) -> is_Some (alter f u g !! w)).
  { intros w [m Hm]. destruct (decide (w = u)) as [->|Hne].
    - rewrite lookup_alter_eq, Hm. eexists. reflexivity.
    - rewrite lookup_alter_ne by congruence. eauto. }
  split; [|split].
  - intros x n e w Hx He Hv. apply Hsome.
    destruct (decide (x = u)) as [->|Hne].
    + rewrite lookup_alter_eq in Hx. destruct (g !! u) as [n0|] eqn:E; [|discriminate].
      injection Hx as <-.
      destruct (Hedges n0 e w eq_refl He Hv) as [Hin|Hw]; [|exact Hw].
      eapply Hcl; eassumption.
    + rewrite lookup_alter_ne in Hx by congruence. eapply Hcl; eassumption.
  - intros x n Hx. destruct (decide (x = u)) as [->|Hne].
    + rewrite lookup_alter_eq in Hx. destruct (g !! u) as [n0|] eqn:E; [|discriminate].
      injection Hx as <-. rewrite Hflag. eapply Hno; eassumption.
    + rewrite lookup_alter_ne in Hx by congruence. eapply Hno; eassumption.
  - intros x n Hx. destruct (decide (x = u)) as [->|Hne].
    + rewrite lookup_alter_eq in Hx. destruct (g !! u) as [n0|] eqn:E; [|discriminate].
      injection Hx as <-. rewrite Hname. eapply Hnm; eassumption.
    + rewrite lookup_alter_ne in Hx by congruence. eapply Hnm; eassumption.
Qed.

Lemma is_Some_alter (f : node -> node) (u : gostring) (g : nodemap) (x : gostring) :
  is_Some (g !! x) -> is_Some (alter f u g !! x).
Proof.
  intros [m Hm]. destruct (decide (x = u)) as [->|Hne].
  - rewrite lookup_alter_eq, Hm. eexists. reflexivity.
  - rewrite lookup_alter_ne by congruence. eauto.
Qed.

(** A new edge to a node of the graph, or to no node. *)
Lemma extends_newedge (u : gostring) e b :
  match v e with Some w => is_Some (nodes b !! w) | None => True end ->
  extends b (newedge u e b).
Proof.
  intros He. split; cbn [newedge nodes].
  - intros x. apply is_Some_alter.
  - apply wellFormed_alter; try reflexivity.
    intros n e' w Hn Hin Hv. cbn [addEdge prereqs] in Hin.
    apply elem_of_app in Hin as [Hin|Hin]; [left; exact Hin|].
    apply list_elem_of_singleton in Hin. subst e'. rewrite Hv in He. right. exact He.
Qed.

Lemma extends_markProbable (u : gostring) b : extends b (markProbable u b).
Proof.
  split; cbn [markProbable nodes].
  - intros x. apply is_Some_alter.
  - apply wellFormed_alter; try reflexivity.
    + apply hasFlag_cycle_probable.
    + intros n e w _ Hin _. left. exact Hin.
Qed.

Lemma extends_incr k b b' : incr k b = Ok b' -> extends b b'.
Proof.
  unfold incr. destruct (rulecnt b !! k); [|discriminate]. intros H. injection H as <-.
  split; auto.
Qed.

Lemma extends_decr k b b' : decr k b = Ok b' -> extends b b'.
Proof.
  unfold decr. destruct (rulecnt b !! k); [|discriminate]. intros H. injection H as <-.
  split; auto.
Qed.

Variable rec : gostring -> build -> result build.
Hypothesis rec_extends :
  forall p b b', rec p b = Ok b' -> extends b b' /\ is_Some (nodes b' !! p).

Lemma concreteEdges_extends u k ps : forall b b',
  concreteEdges rec u k ps b = Ok b' -> extends b b'.
Proof.
  induction ps as [|p ps IH]; intros b b' H; simpl in H.
  - injection H as <-. apply extends_refl.
  - apply bind_Ok in H as (b1 & H1 & H2).
    apply rec_extends in H1 as [H1 Hp].
    eapply extends_trans; [exact H1|].
    eapply extends_trans; [|eapply IH; exact H2].
    apply extends_newedge. exact Hp.
Qed.

Lemma concreteLoop_extends u ks : forall b b',
  concreteLoop rec rs u ks b = Ok b' -> extends b b'.
Proof.
  induction ks as [|k ks IH]; intros b b' H; cbn [concreteLoop] in H.
  - injection H as <-. apply extends_refl.
  - destruct (rulecnt b !! k) as [c|] eqn:Hc; [|discriminate].
    destruct (maxRuleCnt <? c) eqn:Hmax; [apply IH; exact H|].
    destruct (Rules.rules rs !! k) as [rl|] eqn:Hrl; [|discriminate].
    destruct (Rules.isMeta rl) eqn:Hm; [apply IH; exact H|].
    destruct (GoStr.eqb (Rules.recipe rl) [] && (length (Rules.prereqs rl) =? 0));
      [apply IH; exact H|].
    apply bind_Ok in H as (b1 & Hi & H).
    apply bind_Ok in H as (b2 & He & H).
    apply bind_Ok in H as (b3 & Hd & H).
    eapply extends_trans; [apply (extends_markProbable u)|].
    eapply extends_trans; [eapply extends_incr; exact Hi|].
    eapply extends_trans; [|eapply extends_trans; [eapply extends_decr; exact Hd|]].
    + destruct (length (Rules.prereqs rl) =? 0).
      * injection He as <-. apply extends_newedge. exact I.
      * eapply concreteEdges_extends. exact He.
    + apply IH. exact H.
Qed.

Lemma metaEdges_extends fuel regexAttr u k st ms mv ps : forall b b',
  metaEdges rec fuel regexAttr u k st ms mv ps b = Ok b' -> extends b b'.
Proof.
  induction ps as [|p ps IH]; intros b b' H; simpl in H.
  - injection H as <-. apply extends_refl.
  - apply bind_Ok in H as (prereq & _ & H).
    apply bind_Ok in H as (b1 & H1 & H2).
    apply rec_extends in H1 as [H1 Hp].
    eapply extends_trans; [exact H1|].
    eapply extends_trans; [|eapply IH; exact H2].
    apply extends_newedge. exact Hp.
Qed.

Lemma metaTargets_extends fuel rl u k ts : forall b b',
  metaTargets rec fuel rl u k ts b = Ok b' -> extends b b'.
Proof.
  induction ts as [|p ts IH]; intros b b' H; cbn [metaTargets] in H.
  - injection H as <-. apply extends_refl.
  - destruct (Rules.pattern_match p u) as [mat|]; [|apply IH; assumption].
    apply bind_Ok in H as ([[st ms] mv] & _ & H).
    apply bind_Ok in H as (b1 & Hi & H).
    apply bind_Ok in H as (b2 & He & H).
    apply bind_Ok in H as (b3 & Hd & H).
    eapply extends_trans; [eapply extends_incr; exact Hi|].
    eapply extends_trans; [|eapply extends_trans; [eapply extends_decr; exact Hd|]].
    + destruct (length (Rules.prereqs rl) =? 0).
      * injection He as <-. apply extends_newedge. exact I.
      * eapply metaEdges_extends. exact He.
    + apply IH. exact H.
Qed.

Lemma metaLoop_extends fuel u rls : forall k b b',
  metaLoop rec fuel u k rls b = Ok b' -> extends b b'.
Proof.
  induction rls as [|rl rls IH]; intros k b b' H; cbn [metaLoop] in H.
  - injection H as <-. apply extends_refl.
  - destruct (rulecnt b !! k) as [c|] eqn:Hc; [|discriminate].
    destruct (maxRuleCnt <=? c) eqn:Hmax; [eapply IH; exact H|].
    destruct (negb (Rules.isMeta rl)); [eapply IH; exact H|].
    destruct (GoStr.eqb (Rules.recipe rl) [] && (length (Rules.prereqs rl) =? 0));
      [eapply IH; exact H|].
    apply bind_Ok in H as (b1 & Ht & H).
    eapply extends_trans; [eapply metaTargets_extends; exact Ht|].
    eapply IH. exact H.
Qed.

End Construction.

Section ConstructionResult.
Import Graph.
Local Open Scope nat_scope.

Variable stat : gostring -> option Z.
Variable rebuildAll : bool.
Variable rs : Rules.ruleSet.

Lemma hasFlag_cycle_updateTimestamp n :
  hasFlag nodeFlagCycle (updateTimestamp stat rebuildAll n) = hasFlag nodeFlagCycle n.
Proof.
  unfold updateTimestamp.
  assert (H : forall m, hasFlag nodeFlagCycle
                          (if rebuildAll then setFlag nodeFlagProbable m else m)
                        = hasFlag nodeFlagCycle m).
  { intros m. destruct rebuildAll; [apply hasFlag_cycle_probable | reflexivity]. }
  rewrite H. destruct (stat (name n)); [|reflexivity].
  apply (hasFlag_cycle_probable n).
Qed.

Lemma name_updateTimestamp n : name (updateTimestamp stat rebuildAll n) = name n.
Proof.
  unfold updateTimestamp. destruct rebuildAll, (stat (name n)); reflexivity.
Qed.

Lemma prereqs_updateTimestamp n : prereqs (updateTimestamp stat rebuildAll n) = prereqs n.
Proof.
  unfold updateTimestamp. destruct rebuildAll, (stat (name n)); reflexivity.
Qed.

Lemma extends_newnode target b :
  nodes b !! target = None ->
  extends b {| nodes := newnode stat rebuildAll target (nodes b);
               rulecnt := rulecnt b; uses := uses b |}.
Proof.
  intros Hnew. split; cbn [nodes]; unfold newnode.
  - intros x [m Hm]. destruct (decide (x = target)) as [->|Hne]; [congruence|].
    rewrite lookup_insert_ne by congruence. eauto.
  - intros (Hcl & Hno & Hnm). split; [|split].
    + intros x n e w Hx He Hv.
      assert (Hw : is_Some (nodes b !! w)).
      { destruct (decide (x = target)) as [->|Hne].
        - rewrite lookup_insert_eq in Hx. injection Hx as <-.
          rewrite prereqs_updateTimestamp in He. inversion He.
        - rewrite lookup_insert_ne in Hx by congruence. eapply Hcl; eassumption. }
      destruct Hw as [m Hm]. destruct (decide (w = target)) as [->|Hne]; [congruence|].
      rewrite lookup_insert_ne by congruence. eauto.
    + intros x n Hx. destruct (decide (x = target)) as [->|Hne].
      * rewrite lookup_insert_eq in Hx. injection Hx as <-.
        rewrite hasFlag_cycle_updateTimestamp. reflexivity.
      * rewrite lookup_insert_ne in Hx by congruence. eapply Hno; eassumption.
    + intros x n Hx. destruct (decide (x = target)) as [->|Hne].
      * rewrite lookup_insert_eq in Hx. injection Hx as <-.
        rewrite name_updateTimestamp. reflexivity.
      * rewrite lookup_insert_ne in Hx by congruence. eapply Hnm; eassumption.
Qed.

Lemma applyrules_extends fuel : forall target b b',
  applyrules stat rebuildAll fuel rs target b = Ok b' ->
  extends b b' /\ is_Some (nodes b' !! target).
Proof.
  induction fuel as [|fuel IH]; intros target b b' H; [discriminate|].
  cbn [applyrules] in H.
  destruct (nodes b !! target) as [n|] eqn:Hn.
  - injection H as <-. split; [apply extends_refl | rewrite Hn; eauto].
  - apply bind_Ok in H as (b1 & H1 & H2).
    assert (E1 : extends b b1).
    { eapply extends_trans; [apply extends_newnode; exact Hn|].
      eapply concreteLoop_extends; [exact IH | exact H1]. }
    assert (E2 : extends b1 b') by (eapply metaLoop_extends; [exact IH | exact H2]).
    split; [eapply extends_trans; eassumption|].
    apply E2, (concreteLoop_extends rs _ IH _ _ _ _ H1).
    cbn [nodes]. unfold newnode. rewrite lookup_insert_eq. eauto.
Qed.

(** X19: the graph that [applyrules] builds from the empty one contains the
    target, every edge of it leads to a node of it, every node is stored
    under its name, and [buildgraph] ends the program exactly when a cycle
    can be reached from the target. *)
Theorem applyrules_graph_closed (fuel : nat) (target : gostring) (b : build) :
  buildgraph_applyrules stat rebuildAll fuel rs target = Ok b ->
  is_Some (nodes b !! target) /\ closed (nodes b) /\
  (forall x n, nodes b !! x = Some n -> name n = x) /\
  (size (nodes b) < fuel ->
   (acyclicFrom (nodes b) target /\
    cyclecheck fuel (nodes b) target = Ok (nodes b)) \/
   (~ acyclicFrom (nodes b) target /\
    buildgraph stat rebuildAll fuel rs target = Exit)).
Proof.
  intros H. pose proof H as H0. unfold buildgraph_applyrules in H.
  apply applyrules_extends in H as [[_ Hwf] Ht].
  destruct Hwf as (Hcl & Hno & Hnm).
  { cbn [nodes]. split; [|split]; intros x n; try intros e w; rewrite lookup_empty;
      discriminate. }
  split; [exact Ht|]. split; [exact Hcl|]. split; [exact Hnm|].
  intros Hsize.
  destruct (cyclecheck_finds_cycles fuel (nodes b) target Hno Hcl Ht Hsize) as [[Ha Hc]|[Ha Hc]].
  - left. split; assumption.
  - right. split; [exact Ha|]. unfold buildgraph. rewrite H0. cbn [bind].
    rewrite Hc. reflexivity.
Qed.

End ConstructionResult.

(* ===================================================================== *)
(** * The lexer stays inside its input *)
(* ===================================================================== *)

Section LexerSafety.
Import GoStr Token Lex.
Local Open Scope char_scope.
Local Open Scope nat_scope.

Variable text : gostring.

Lemma safely_bind {A B} (P : A -> Prop) (Q : B -> Prop) (x : result A)
    (f : A -> result B) :
  safely P x -> (forall a, P a -> safely Q (f a)) -> safely Q (bind x f).
Proof. destruct x; cbn; auto. Qed.

Lemma next_inOrder l : inOrder text l -> inOrder text (snd (next l)).
Proof.
  intros (Hi & Hs & Hp & Ho). unfold next.
  destruct (Nat.leb_spec (length (input l)) (pos l)) as [Hge|Hlt];
    [repeat split; assumption|].
  destruct (drop (pos l) (input l)) as [|c r] eqn:Hd.
  { apply (f_equal length) in Hd. rewrite length_drop in Hd. simpl in Hd. lia. }
  cbn [DecodeRuneInString]. rewrite Hi in Hlt.
  destruct (runeIs (Some c) newline); unfold inOrder;
    cbn [snd setPos input start pos output];
    (split; [exact Hi|]); (split; [lia|]); (split; [lia | exact Ho]).
Qed.

Lemma skip_inOrder l : inOrder text l -> inOrder text (skip l).
Proof.
  intros H. apply next_inOrder in H as (Hi & Hs & Hp & Ho). unfold skip, inOrder.
  cbn [setStart input start pos output]. repeat split; try assumption; lia.
Qed.

Lemma emit_inOrder ty l : inOrder text l -> safely (inOrder text) (emit ty l).
Proof.
  intros (Hi & Hs & Hp & Ho). unfold emit, slice.
  replace ((start l <=? pos l) && (pos l <=? length (input l))) with true
    by (symmetry; apply andb_true_iff; split; apply Nat.leb_le; [|rewrite Hi]; lia).
  cbn [bind safely]. unfold inOrder. cbn [send setStart input start pos output].
  repeat split; try assumption; try lia.
  apply Forall_app. split; [exact Ho|]. constructor; [|constructor].
  cbn [val]. exists (take (start l) text), (drop (pos l) text). rewrite Hi.
  rewrite <- (take_drop (start l) text) at 1. f_equal.
  rewrite <- (take_drop (pos l - start l) (drop (start l) text)) at 1. f_equal.
  rewrite drop_drop. f_equal. lia.
Qed.

Lemma emitIf_inOrder (b : bool) ty l :
  inOrder text l -> safely (inOrder text) (if b then emit ty l else Ok l).
Proof. intros H. destruct b; [apply emit_inOrder|]; exact H. Qed.

Lemma lexError_inOrder what l : inOrder text l -> safely (inOrder text) (lexError what l).
Proof.
  intros H. unfold lexError. apply emit_inOrder.
  destruct (eqb (errMsg l) []); [|exact H].
  destruct H as (Hi & Hs & Hp & Ho). unfold inOrder. cbn. repeat split; assumption.
Qed.

Lemma accept_inOrder valid l : inOrder text l -> inOrder text (snd (accept valid l)).
Proof.
  intros H. unfold accept. destruct (runeIn (peek l) valid); [|exact H].
  apply next_inOrder. exact H.
Qed.

Lemma while_inOrder fuel cond body :
  (forall l, inOrder text l -> inOrder text (body l)) ->
  forall l, inOrder text l -> safely (inOrder text) (while fuel cond body l).
Proof.
  intros Hbody. induction fuel as [|fuel IH]; intros l Hl; cbn [while]; [exact I|].
  destruct (cond l); [|exact Hl]. apply IH, Hbody, Hl.
Qed.

Lemma acceptRun_inOrder valid l :
  inOrder text l -> safely (inOrder text) (acceptRun valid l).
Proof. intros H. apply while_inOrder; [apply next_inOrder | exact H]. Qed.

Lemma acceptUntilOrEof_inOrder invalid l :
  inOrder text l -> safely (inOrder text) (acceptUntilOrEof invalid l).
Proof. intros H. apply while_inOrder; [apply next_inOrder | exact H]. Qed.

Lemma acceptUntil_inOrder invalid l :
  inOrder text l -> safely (inOrder text) (acceptUntil invalid l).
Proof.
  intros H. unfold acceptUntil.
  eapply safely_bind; [apply acceptUntilOrEof_inOrder; exact H|].
  intros l1 H1. destruct (runeEq (peek l1) eof); [apply lexError_inOrder|]; exact H1.
Qed.

Lemma skipRun_inOrder valid l :
  inOrder text l -> safely (inOrder text) (skipRun valid l).
Proof. intros H. apply while_inOrder; [apply skip_inOrder | exact H]. Qed.

Lemma skipUntil_inOrder invalid l :
  inOrder text l -> safely (inOrder text) (skipUntil invalid l).
Proof.
  intros H. unfold skipUntil.
  eapply safely_bind; [apply while_inOrder; [apply skip_inOrder | exact H]|].
  intros l1 H1. destruct (runeEq (peek l1) eof); [apply lexError_inOrder|]; exact H1.
Qed.

Lemma setIndented_inOrder l b :
  inOrder text l -> inOrder text (setPos (pos l) (line l) (col l) b l).
Proof. intros (Hi & Hs & Hp & Ho). unfold inOrder. cbn. repeat split; assumption. Qed.

Lemma lexTopLevel_loop_inOrder fuel : forall l,
  inOrder text l -> safely (stateInOrder text) (lexTopLevel_loop fuel l).
Proof.
  induction fuel as [|fuel IH]; intros l Hl; cbn [lexTopLevel_loop]; [exact I|].
  eapply safely_bind; [apply skipRun_inOrder; exact Hl|]. intros l1 H1.
  eapply safely_bind with (P := stateInOrder text).
  - destruct (runeIs (peek l1) newline && negb (indented l1)); [|exact H1].
    pose proof (next_inOrder l1 H1) as H2.
    destruct (bareWords (snd (next l1))); [exact H2|].
    eapply safely_bind; [apply emit_inOrder; exact H2|]. intros l3 H3. exact H3.
  - intros [ret l2] H2. unfold stateInOrder in H2. cbn [snd] in H2.
    destruct ret; [exact H2|].
    eapply safely_bind; [apply skipRun_inOrder; exact H2|]. intros l3 H3.
    destruct (runeIs (peek l3) "\" && runeIs (peekN l3 1) newline); [|exact H3].
    apply IH. apply setIndented_inOrder. do 2 apply next_inOrder. exact H3.
Qed.

Lemma lexDoubleQuotedWord_loop_inOrder fuel : forall l,
  inOrder text l -> safely (inOrder text) (lexDoubleQuotedWord_loop fuel l).
Proof.
  induction fuel as [|fuel IH]; intros l Hl; cbn [lexDoubleQuotedWord_loop]; [exact I|].
  destruct (negb (runeIs (peek l) Expand.dquote) && negb (runeEq (peek l) eof)); [|exact Hl].
  eapply safely_bind; [apply acceptUntil_inOrder; exact Hl|]. intros l1 H1.
  pose proof (accept_inOrder ["\"] l1 H1) as H2.
  destruct (accept ["\"] l1) as [escaped l2]. cbn [snd] in H2.
  apply IH. destruct escaped; [apply accept_inOrder|]; exact H2.
Qed.

Lemma lexRecipe_loop_inOrder fuel : forall l,
  inOrder text l -> safely (inOrder text) (lexRecipe_loop fuel l).
Proof.
  induction fuel as [|fuel IH]; intros l Hl; cbn [lexRecipe_loop]; [exact I|].
  eapply safely_bind; [apply acceptUntilOrEof_inOrder; exact Hl|]. intros l1 H1.
  eapply safely_bind; [apply acceptRun_inOrder; exact H1|]. intros l2 H2.
  destruct (negb (indented l2) || (col l2 =? 0)); [exact H2 | apply IH; exact H2].
Qed.

Lemma slice_inOrder l :
  inOrder text l -> exists s, slice (input l) (start l) (pos l) = Ok s.
Proof.
  intros (Hi & Hs & Hp & Ho). unfold slice.
  replace ((start l <=? pos l) && (pos l <=? length (input l))) with true
    by (symmetry; apply andb_true_iff; split; apply Nat.leb_le; [|rewrite Hi]; lia).
  eexists. reflexivity.
Qed.

(** Every state function keeps the lexer in order. *)
Lemma call_inOrder state fuel l :
  inOrder text l -> safely (stateInOrder text) (call state fuel l).
Proof.
  intros Hl. destruct state; cbn [call].
  - unfold lexTopLevel.
    eapply safely_bind; [apply lexTopLevel_loop_inOrder; exact Hl|].
    intros [ret l1] H1. unfold stateInOrder in H1. cbn [snd] in H1.
    destruct ret; [exact H1|].
    repeat match goal with |- safely _ (if ?b then _ else _) => destruct b end; exact H1.
  - unfold lexColon.
    eapply safely_bind; [apply emit_inOrder, next_inOrder; exact Hl|]. intros l1 H1. exact H1.
  - unfold lexAssign.
    eapply safely_bind; [apply emit_inOrder, next_inOrder; exact Hl|]. intros l1 H1. exact H1.
  - unfold lexComment.
    eapply safely_bind; [apply skipUntil_inOrder, skip_inOrder; exact Hl|].
    intros l1 H1. exact H1.
  - unfold lexInclude.
    pose proof (accept_inOrder ["|"] _ (next_inOrder l Hl)) as H1.
    destruct (accept ["|"] (snd (next l))) as [piped l1]. cbn [snd] in H1.
    eapply safely_bind; [destruct piped; apply emit_inOrder; exact H1|].
    intros l2 H2. exact H2.
  - unfold lexDoubleQuotedWord.
    eapply safely_bind; [apply lexDoubleQuotedWord_loop_inOrder, next_inOrder; exact Hl|].
    intros l1 H1.
    eapply safely_bind with (P := inOrder text).
    + destruct (runeEq (peek l1) eof); [apply lexError_inOrder|]; exact H1.
    + intros l2 H2. apply next_inOrder. exact H2.
  - unfold lexBackQuotedWord.
    eapply safely_bind; [apply acceptUntil_inOrder, next_inOrder; exact Hl|].
    intros l1 H1. apply next_inOrder. exact H1.
  - unfold lexSingleQuotedWord.
    eapply safely_bind; [apply acceptUntil_inOrder, next_inOrder; exact Hl|].
    intros l1 H1. apply next_inOrder. exact H1.
  - unfold lexRecipe.
    eapply safely_bind; [apply lexRecipe_loop_inOrder; exact Hl|]. intros l1 H1.
    destruct (slice_inOrder l1 H1) as [s Hs]. rewrite Hs. cbn [bind].
    eapply safely_bind with (P := inOrder text).
    + destruct (negb (onlyWhitespace s)); [apply emit_inOrder|]; exact H1.
    + intros l2 H2. exact H2.
  - unfold lexBareWord.
    eapply safely_bind; [apply acceptUntil_inOrder; exact Hl|]. intros l1 H1.
    repeat match goal with |- safely _ (if ?b then _ else _) => destruct b end;
      try exact H1; try (apply next_inOrder; exact H1);
      try (do 2 apply next_inOrder; exact H1);
      (eapply safely_bind with (P := inOrder text);
       [apply emitIf_inOrder; exact H1
       |intros l2 H2; first [exact H2 | do 2 apply skip_inOrder; exact H2]]).
  - unfold lexBracketExpansion.
    eapply safely_bind; [apply acceptUntil_inOrder; do 2 apply next_inOrder; exact Hl|].
    intros l1 H1. apply next_inOrder. exact H1.
Qed.

Lemma run_from_inOrder fuel : forall state l,
  inOrder text l -> safely (inOrder text) (run_from fuel state l).
Proof.
  induction fuel as [|fuel IH]; intros state l Hl; cbn [run_from]; [exact I|].
  eapply safely_bind; [apply call_inOrder; exact Hl|].
  intros [st l1] H1. unfold stateInOrder in H1. cbn [snd] in H1.
  destruct st; [apply IH|]; exact H1.
Qed.

End LexerSafety.

Section LexerSafetyResult.
Import GoStr Token Lex.
Local Open Scope nat_scope.

Lemma run_inOrder (fuel : nat) (text : gostring) (b : bool) :
  safely (inOrder text) (run fuel (newLexer text b)).
Proof. apply run_from_inOrder. repeat split; cbn; try lia. constructor. Qed.

(** X21: the lexer never slices its input out of range: in either mode, with the
    rounds it is granted, it is still running or it has sent tokens, each of
    which is a piece of the input. *)
Theorem lexer_never_panics (fuel : nat) (text : gostring) :
  (lex fuel text = OutOfFuel \/
   exists tokens, lex fuel text = Ok tokens /\
                  Forall (fun t => segmentOf text (val t)) tokens) /\
  (lexWords fuel text = OutOfFuel \/
   exists tokens, lexWords fuel text = Ok tokens /\
                  Forall (fun t => segmentOf text (val t)) tokens).
Proof.
  unfold lex, lexWords. split.
  - pose proof (run_inOrder fuel text false) as H.
    destruct (run fuel (newLexer text false)) as [l| | | |]; cbn in *; try contradiction.
    + right. exists (output l). split; [reflexivity|apply H].
    + left. reflexivity.
  - pose proof (run_inOrder fuel text true) as H.
    destruct (run fuel (newLexer text true)) as [l| | | |]; cbn in *; try contradiction.
    + right. exists (output l). split; [reflexivity|apply H].
    + left. reflexivity.
Qed.

End LexerSafetyResult.

(* ===================================================================== *)
(** * The scanning functions of the lexer *)
(* ===================================================================== *)

Section Scan.
Import GoStr Token Lex.
Local Open Scope char_scope.
Local Open Scope nat_scope.

Lemma reading_rest l pre cur r ic toks : reading l pre cur r ic toks -> rest l = r.
Proof.
  intros (Hi & Hs & Hp & _). unfold rest. rewrite Hi, Hp, app_assoc.
  rewrite <- length_app. apply drop_app_length.
Qed.

Lemma peekN_rest l n : peekN l n = match rest l !! n with Some c => Some c | None => eof end.
Proof. reflexivity. Qed.

Lemma next_reading l pre cur c r ic toks :
  reading l pre cur (c :: r) ic toks ->
  reading (snd (next l)) pre (cur ++ [c]) r (afterByte c ic) toks.
Proof.
  intros H. pose proof (reading_rest _ _ _ _ _ _ H) as Hr.
  destruct H as (Hi & Hs & Hp & Hind & Hcol & Hb & Ho). unfold next.
  replace (length (input l) <=? pos l) with false
    by (symmetry; apply Nat.leb_gt; rewrite Hi, Hp, !length_app; simpl; lia).
  fold (rest l). rewrite Hr. cbn [DecodeRuneInString]. unfold runeIs, runeIn, afterByte.
  rewrite (Ascii.eqb_sym c newline).
  destruct (Ascii.eqb newline c) eqn:E; rewrite ?(Ascii.eqb_sym newline c), ?E;
    unfold reading; cbn [snd setPos input start pos indented col bareWords output fst];
    rewrite <- ?app_assoc, ?length_app; cbn [app length];
    repeat split; try assumption; try lia; try congruence.
  - rewrite Hind. reflexivity.
Qed.

Lemma skip_reading l pre cur c r ic toks :
  reading l pre cur (c :: r) ic toks ->
  reading (skip l) (pre ++ cur ++ [c]) [] r (afterByte c ic) toks.
Proof.
  intros H. apply next_reading in H as (Hi & Hs & Hp & Hind & Hcol & Hb & Ho).
  unfold skip, reading. cbn [setStart input start pos indented col bareWords output].
  rewrite Hi, Hp, app_nil_l, !length_app, <- !app_assoc. cbn [length].
  repeat split; try assumption; try lia.
Qed.

Lemma emit_reading ty l pre cur r ic toks :
  reading l pre cur r ic toks ->
  exists l', emit ty l = Ok l' /\ reading l' (pre ++ cur) [] r ic (toks ++ [(ty, cur)]).
Proof.
  intros (Hi & Hs & Hp & Hind & Hcol & Hb & Ho). unfold emit.
  rewrite slice_ok by (rewrite ?Hi, ?length_app; lia).
  cbn [bind]. eexists. split; [reflexivity|].
  unfold reading. cbn [send setStart input start pos indented col bareWords output].
  rewrite map_app, Ho, Hi, Hs, Hp. cbn [map tokenText typ val].
  replace (length pre + length cur - length pre) with (length cur) by lia.
  rewrite drop_app_length, take_app_length, length_app, app_nil_l, <- app_assoc.
  cbn [length]. repeat split; try assumption; lia.
Qed.

(** A scanning loop over the text [w]: the test of the loop is a test [q] of
    what is left, true on every byte of [w] and false behind it. *)
Lemma while_next (q : gostring -> bool) cond :
  (forall l, cond l = q (rest l)) ->
  forall w fuel l pre cur r ic toks,
    reading l pre cur (w ++ r) ic toks ->
    (forall w1 w2, w = w1 ++ w2 -> w2 <> [] -> q (w2 ++ r) = true) ->
    q r = false -> length w < fuel ->
    exists l', while fuel cond (fun l => snd (next l)) l = Ok l' /\
               reading l' pre (cur ++ w) r (afterText w ic) toks.
Proof.
  intros Hcond. induction w as [|c w IH]; intros fuel l pre cur r ic toks H Hq Hstop Hf.
  - destruct fuel as [|fuel]; [simpl in Hf; lia|]. cbn [while].
    rewrite Hcond, (reading_rest _ _ _ _ _ _ H). cbn [app] in *. rewrite Hstop.
    exists l. split; [reflexivity|]. rewrite app_nil_r. exact H.
  - destruct fuel as [|fuel]; [simpl in Hf; lia|]. cbn [while].
    rewrite Hcond, (reading_rest _ _ _ _ _ _ H).
    rewrite (Hq [] (c :: w) eq_refl ltac:(discriminate)).
    cbn [app] in H. apply next_reading in H.
    destruct (IH fuel _ _ _ _ _ _ H) as (l' & Hl' & Hr').
    + intros w1 w2 -> Hne. apply (Hq (c :: w1) w2 eq_refl Hne).
    + exact Hstop.
    + simpl in Hf. lia.
    + exists l'. split; [exact Hl'|]. rewrite <- app_assoc in Hr'. exact Hr'.
Qed.

Lemma while_skip (q : gostring -> bool) cond :
  (forall l, cond l = q (rest l)) ->
  forall w fuel l pre r ic toks,
    reading l pre [] (w ++ r) ic toks ->
    (forall w1 w2, w = w1 ++ w2 -> w2 <> [] -> q (w2 ++ r) = true) ->
    q r = false -> length w < fuel ->
    exists l', while fuel cond skip l = Ok l' /\
               reading l' (pre ++ w) [] r (afterText w ic) toks.
Proof.
  intros Hcond. induction w as [|c w IH]; intros fuel l pre r ic toks H Hq Hstop Hf.
  - destruct fuel as [|fuel]; [simpl in Hf; lia|]. cbn [while].
    rewrite Hcond, (reading_rest _ _ _ _ _ _ H). cbn [app] in *. rewrite Hstop.
    exists l. split; [reflexivity|]. rewrite app_nil_r. exact H.
  - destruct fuel as [|fuel]; [simpl in Hf; lia|]. cbn [while].
    rewrite Hcond, (reading_rest _ _ _ _ _ _ H).
    rewrite (Hq [] (c :: w) eq_refl ltac:(discriminate)).
    cbn [app] in H. apply skip_reading in H. cbn [app] in H.
    destruct (IH fuel _ _ _ _ _ H) as (l' & Hl' & Hr').
    + intros w1 w2 -> Hne. apply (Hq (c :: w1) w2 eq_refl Hne).
    + exact Hstop.
    + simpl in Hf. lia.
    + exists l'. split; [exact Hl'|]. rewrite <- app_assoc in Hr'. exact Hr'.
Qed.

Lemma rounds_enough l pre cur w r ic toks :
  reading l pre cur (w ++ r) ic toks -> length w < rounds l.
Proof.
  intros (Hi & Hs & Hp & _). unfold rounds. rewrite Hi, Hp, !length_app. lia.
Qed.

Lemma peek_headIn l chars :
  mem (ascii_of_nat 0) chars = false -> runeIn (peek l) chars = headIn chars (rest l).
Proof.
  intros H0. unfold peek. rewrite peekN_rest. destruct (rest l) as [|c r]; cbn; [exact H0|].
  reflexivity.
Qed.

Lemma headIn_run chars w r :
  Forall (fun c => mem c chars = true) w ->
  forall w1 w2, w = w1 ++ w2 -> w2 <> [] -> headIn chars (w2 ++ r) = true.
Proof.
  intros Hw w1 w2 -> Hne. apply Forall_app in Hw as [_ Hw].
  destruct w2 as [|c w2]; [congruence|]. inversion Hw; subst. assumption.
Qed.

(** [skipRun] and [acceptRun] over a run of the valid bytes. *)
Lemma skipRun_run valid w l pre r ic toks :
  mem (ascii_of_nat 0) valid = false ->
  reading l pre [] (w ++ r) ic toks ->
  Forall (fun c => mem c valid = true) w -> headIn valid r = false ->
  exists l', skipRun valid l = Ok l' /\ reading l' (pre ++ w) [] r (afterText w ic) toks.
Proof.
  intros H0 H Hw Hr. unfold skipRun.
  eapply (while_skip (headIn valid)); try eassumption.
  - intros l0. apply peek_headIn. exact H0.
  - apply headIn_run. exact Hw.
  - eapply rounds_enough. exact H.
Qed.

Lemma acceptRun_run valid w l pre cur r ic toks :
  mem (ascii_of_nat 0) valid = false ->
  reading l pre cur (w ++ r) ic toks ->
  Forall (fun c => mem c valid = true) w -> headIn valid r = false ->
  exists l', acceptRun valid l = Ok l' /\ reading l' pre (cur ++ w) r (afterText w ic) toks.
Proof.
  intros H0 H Hw Hr. unfold acceptRun.
  eapply (while_next (headIn valid)); try eassumption.
  - intros l0. apply peek_headIn. exact H0.
  - apply headIn_run. exact Hw.
  - eapply rounds_enough. exact H.
Qed.

Lemma until_goesOn l invalid :
  mem (ascii_of_nat 0) invalid = false ->
  (pos l <? length (input l)) && negb (runeIn (peek l) invalid) = goesOn invalid (rest l).
Proof.
  intros H0. unfold peek. rewrite peekN_rest. unfold rest.
  destruct (Nat.ltb_spec (pos l) (length (input l))) as [Hlt|Hge].
  - destruct (drop (pos l) (input l)) as [|c r] eqn:E.
    + apply (f_equal length) in E. rewrite length_drop in E. simpl in E. lia.
    + reflexivity.
  - rewrite drop_ge by lia. reflexivity.
Qed.

Lemma goesOn_run invalid w r :
  Forall (fun c => mem c invalid = false) w ->
  forall w1 w2, w = w1 ++ w2 -> w2 <> [] -> goesOn invalid (w2 ++ r) = true.
Proof.
  intros Hw w1 w2 -> Hne. apply Forall_app in Hw as [_ Hw].
  destruct w2 as [|c w2]; [congruence|]. inversion Hw; subst. cbn.
  apply negb_true_iff. assumption.
Qed.

Lemma acceptUntilOrEof_run invalid w l pre cur r ic toks :
  mem (ascii_of_nat 0) invalid = false ->
  reading l pre cur (w ++ r) ic toks ->
  Forall (fun c => mem c invalid = false) w -> goesOn invalid r = false ->
  exists l', acceptUntilOrEof invalid l = Ok l' /\
             reading l' pre (cur ++ w) r (afterText w ic) toks.
Proof.
  intros H0 H Hw Hr. unfold acceptUntilOrEof.
  eapply (while_next (goesOn invalid)); try eassumption.
  - intros l0. apply until_goesOn. exact H0.
  - apply goesOn_run. exact Hw.
  - eapply rounds_enough. exact H.
Qed.

Lemma peek_reading l pre cur c r ic toks :
  reading l pre cur (c :: r) ic toks -> peek l = Some c.
Proof.
  intros H. unfold peek. rewrite peekN_rest, (reading_rest _ _ _ _ _ _ H). reflexivity.
Qed.

Lemma peek_reading_end l pre cur ic toks :
  reading l pre cur [] ic toks -> peek l = eof.
Proof.
  intros H. unfold peek. rewrite peekN_rest, (reading_rest _ _ _ _ _ _ H). reflexivity.
Qed.

(** [acceptUntil] up to a byte of the invalid ones that is not the zero
    byte. *)
Lemma acceptUntil_run invalid w y l pre cur r ic toks :
  mem (ascii_of_nat 0) invalid = false ->
  reading l pre cur (w ++ y :: r) ic toks ->
  Forall (fun c => mem c invalid = false) w -> mem y invalid = true ->
  exists l', acceptUntil invalid l = Ok l' /\
             reading l' pre (cur ++ w) (y :: r) (afterText w ic) toks.
Proof.
  intros H0 H Hw Hy. unfold acceptUntil.
  destruct (acceptUntilOrEof_run invalid w l pre cur (y :: r) ic toks H0 H Hw) as (l' & -> & H').
  { cbn. rewrite Hy. reflexivity. }
  cbn [bind]. exists l'. split; [|exact H'].
  rewrite (peek_reading _ _ _ _ _ _ _ H').
  unfold runeEq, eof.
  case_bool_decide as E; [|reflexivity].
  injection E as ->. congruence.
Qed.

(** Where the current token starts: [skip] moves the start to the position,
    [next] leaves it. *)
Lemma while_skip_startCol fuel cond : forall l l',
  while fuel cond skip l = Ok l' -> l' = l \/ startCol l' = col l'.
Proof.
  induction fuel as [|fuel IH]; intros l l' H; [discriminate|]. cbn [while] in H.
  destruct (cond l).
  - right. destruct (IH _ _ H) as [->|E]; [reflexivity|exact E].
  - left. congruence.
Qed.

Lemma next_startCol l : startCol (snd (next l)) = startCol l.
Proof.
  unfold next. destruct (length (input l) <=? pos l); [reflexivity|].
  destruct (DecodeRuneInString _) as [c w]. destruct (runeIs c newline); reflexivity.
Qed.

Lemma while_next_startCol fuel cond : forall l l',
  while fuel cond (fun l => snd (next l)) l = Ok l' -> startCol l' = startCol l.
Proof.
  induction fuel as [|fuel IH]; intros l l' H; [discriminate|]. cbn [while] in H.
  destruct (cond l).
  - rewrite (IH _ _ H). apply next_startCol.
  - congruence.
Qed.

Lemma emit_output ty l l' pre cur r ic toks :
  reading l pre cur r ic toks -> emit ty l = Ok l' ->
  exists t, output l' = output l ++ [t] /\ typ t = ty /\ val t = cur /\
            Token.col t = startCol l.
Proof.
  intros (Hi & Hs & Hp & _) H. unfold emit in H.
  rewrite slice_ok in H by (rewrite ?Hi, ?length_app; lia). cbn [bind] in H.
  injection H as <-. eexists. split; [reflexivity|]. cbn [typ val Token.col].
  repeat split. rewrite Hi, Hs, Hp.
  replace (length pre + length cur - length pre) with (length cur) by lia.
  rewrite drop_app_length, take_app_length. reflexivity.
Qed.

End Scan.

(* ===================================================================== *)
(** * The lexer on the items of a line *)
(* ===================================================================== *)

Section Lines.
Import GoStr Token Lex.
Local Open Scope char_scope.
Local Open Scope nat_scope.

Lemma mem_cons_false c a l : mem c (a :: l) = false -> c <> a /\ mem c l = false.
Proof.
  cbn. intros H. apply orb_false_iff in H as [H1 H2]. split; [|exact H2].
  apply Ascii.eqb_neq. exact H1.
Qed.

Lemma afterText_app w1 w2 ic : afterText (w1 ++ w2) ic = afterText w2 (afterText w1 ic).
Proof. apply fold_left_app. Qed.

Lemma afterText_blanks w ic : blanks w -> afterText w ic = (ic.1, ic.2 + length w).
Proof.
  revert ic. induction w as [|c w IH]; intros [i k] H; cbn [afterText fold_left length].
  - cbn. f_equal. lia.
  - inversion H as [|? ? Hc Hw]; subst. fold (afterText w (afterByte c (i, k))).
    rewrite IH by exact Hw. unfold afterByte. cbn [fst snd].
    destruct (Ascii.eqb_spec c newline) as [->|_]; [discriminate Hc|].
    rewrite Hc. cbn [fst snd]. f_equal. lia.
Qed.

(** After a byte that is no blank and no newline the line is not indented,
    whatever follows on the line. *)
Lemma afterText_text c w ic :
  mem c [" "; Expand.tab; newline] = false -> Forall (fun c => mem c [newline] = false) w ->
  (afterText (c :: w) ic).1 = false.
Proof.
  intros Hc Hw. cbn [afterText fold_left]. fold (afterText w (afterByte c ic)).
  assert (H : (afterByte c ic).1 = false).
  { unfold afterByte. apply mem_cons_false in Hc as [H1 Hc].
    apply mem_cons_false in Hc as [H2 Hc]. apply mem_cons_false in Hc as [H3 _].
    apply Ascii.eqb_neq in H1, H2, H3. rewrite H3. cbn. rewrite H1, H2. reflexivity. }
  revert H. generalize (afterByte c ic). induction Hw as [|x w Hx Hw IH]; intros jc H.
  - exact H.
  - cbn [afterText fold_left]. apply IH. unfold afterByte.
    apply mem_cons_false in Hx as [Hx _]. apply Ascii.eqb_neq in Hx. rewrite Hx.
    cbn [fst]. rewrite H. destruct (mem x _); reflexivity.
Qed.

Lemma run_from_S fuel state l :
  run_from (S fuel) state l =
  let* '(state', l) := call state fuel l in
  match state' with
  | None => Ok l
  | Some s => run_from fuel s l
  end.
Proof. reflexivity. Qed.

Lemma lexTopLevel_loop_S fuel l :
  lexTopLevel_loop (S fuel) l =
      let* l := skipRun [" "; Expand.tab; cr] l in
      let* '(ret, l) :=
        if runeIs (peek l) newline && negb (indented l) then
          let l := snd (next l) in
          if bareWords l then Ok (true, l)
          else let* l := emit tokenNewline l in Ok (false, l)
        else Ok (false, l) in
      if (ret : bool) then Ok (Some None, l)
      else
        let* l := skipRun [" "; Expand.tab; cr; newline] l in
        if runeIs (peek l) "\" && runeIs (peekN l 1) newline then
          let l := snd (next l) in
          let l := snd (next l) in
          lexTopLevel_loop fuel (setPos (pos l) (line l) (col l) false l)
        else Ok (None, l).
Proof. reflexivity. Qed.

Lemma blanks_weaken sep (valid : gostring) :
  mem " " valid = true -> mem Expand.tab valid = true -> blanks sep ->
  Forall (fun c => mem c valid = true) sep.
Proof.
  intros H1 H2 H. eapply Forall_impl; [exact H|]. intros c Hc. cbn in Hc.
  apply orb_true_iff in Hc as [Hc|Hc]; [apply Ascii.eqb_eq in Hc; subst; exact H1|].
  apply orb_true_iff in Hc as [Hc|Hc]; [apply Ascii.eqb_eq in Hc; subst; exact H2|].
  discriminate.
Qed.

(** The loop of [lexTopLevel] before a byte that starts something on the
    line: it skips the blanks. *)
Lemma lexTopLevel_loop_blanks fuel l pre sep x r ic toks :
  reading l pre [] (sep ++ x :: r) ic toks -> blanks sep ->
  mem x [" "; Expand.tab; cr; newline; "\"] = false ->
  exists l', lexTopLevel_loop (S fuel) l = Ok (None, l') /\
             reading l' (pre ++ sep) [] (x :: r) (ic.1, ic.2 + length sep) toks.
Proof.
  intros H Hsep Hx. rewrite lexTopLevel_loop_S.
  cbn in Hx. apply orb_false_iff in Hx as [X1 Hx]. apply orb_false_iff in Hx as [X2 Hx].
  apply orb_false_iff in Hx as [X3 Hx]. apply orb_false_iff in Hx as [X4 Hx].
  apply orb_false_iff in Hx as [X5 _].
  destruct (skipRun_run [" "; Expand.tab; cr] sep l pre (x :: r) ic toks eq_refl H)
    as (l1 & -> & H1).
  { apply blanks_weaken; [reflexivity|reflexivity|exact Hsep]. }
  { cbn. rewrite X1, X2, X3. reflexivity. }
  cbn [bind]. rewrite afterText_blanks in H1 by exact Hsep.
  rewrite (peek_reading _ _ _ _ _ _ _ H1). cbn [runeIs]. rewrite X4. cbn [andb bind].
  destruct (skipRun_run [" "; Expand.tab; cr; newline] [] l1 (pre ++ sep) (x :: r)
              (ic.1, ic.2 + length sep) toks eq_refl H1) as (l2 & -> & H2).
  { constructor. }
  { cbn. rewrite X1, X2, X3, X4. reflexivity. }
  cbn [bind]. rewrite app_nil_r in H2. cbn [afterText fold_left] in H2.
  rewrite (peek_reading _ _ _ _ _ _ _ H2). cbn [runeIs]. rewrite X5. cbn [andb].
  exists l2. split; [reflexivity|exact H2].
Qed.

Lemma lexTopLevel_S fuel l :
  lexTopLevel fuel l =
  let* '(ret, l) := lexTopLevel_loop fuel l in
  match ret with
  | Some st => Ok (st, l)
  | None =>
      if indented l && (0 <? col l) then Ok (Some fun_lexRecipe, l)
      else
        let c := peek l in
        if runeEq c eof then Ok (None, l)
        else if runeIs c "#" then Ok (Some fun_lexComment, l)
        else if runeIs c "<" then Ok (Some fun_lexInclude, l)
        else if runeIs c ":" then Ok (Some fun_lexColon, l)
        else if runeIs c "=" then Ok (Some fun_lexAssign, l)
        else if runeIs c Expand.dquote then Ok (Some fun_lexDoubleQuotedWord, l)
        else if runeIs c "'" then Ok (Some fun_lexSingleQuotedWord, l)
        else if runeIs c "`" then Ok (Some fun_lexBackQuotedWord, l)
        else Ok (Some fun_lexBareWord, l)
  end.
Proof. reflexivity. Qed.

Lemma okItem_head it :
  okItem it ->
  exists x w, itemText it = x :: w /\
    mem x [" "; Expand.tab; cr; newline; "\"] = false /\
    mem x [" "; Expand.tab; newline] = false /\
    x <> ascii_of_nat 0 /\
    forall (l : lexer) st,
      (if runeEq (Some x) eof then Ok (None, l)
       else if runeIs (Some x) "#" then Ok (Some fun_lexComment, l)
       else if runeIs (Some x) "<" then Ok (Some fun_lexInclude, l)
       else if runeIs (Some x) ":" then Ok (Some fun_lexColon, l)
       else if runeIs (Some x) "=" then Ok (Some fun_lexAssign, l)
       else if runeIs (Some x) Expand.dquote then Ok (Some fun_lexDoubleQuotedWord, l)
       else if runeIs (Some x) "'" then Ok (Some fun_lexSingleQuotedWord, l)
       else if runeIs (Some x) "`" then Ok (Some fun_lexBackQuotedWord, l)
       else Ok (Some fun_lexBareWord, l)) = st ->
      st = Ok (Some (itemState it), l).
Proof.
  destruct it as [w| |]; cbn [okItem itemText itemState].
  - intros [Hh Hw]. destruct w as [|x w]; [contradiction|]. exists x, w.
    inversion Hw as [|? ? Hx _]; subst.
    apply mem_cons_false in Hh as [N0 Hh]. apply mem_cons_false in Hh as [N1 Hh].
    apply mem_cons_false in Hh as [N2 _].
    unfold nonBareRunes in Hx.
    apply mem_cons_false in Hx as [M1 Hx]. apply mem_cons_false in Hx as [M2 Hx].
    apply mem_cons_false in Hx as [M3 Hx]. apply mem_cons_false in Hx as [M4 Hx].
    apply mem_cons_false in Hx as [M5 Hx]. apply mem_cons_false in Hx as [M6 Hx].
    apply mem_cons_false in Hx as [M7 Hx]. apply mem_cons_false in Hx as [M8 Hx].
    apply mem_cons_false in Hx as [M9 Hx]. apply mem_cons_false in Hx as [M10 Hx].
    apply mem_cons_false in Hx as [M11 _].
    apply Ascii.eqb_neq in M1, M2, M3, M4, M5, M6, M7, M8, M9, M10, M11, N1, N2.
    split; [reflexivity|]. split; [cbn; rewrite M1, M2, M3, M4, M5; reflexivity|].
    split; [cbn; rewrite M1, M2, M3; reflexivity|]. split; [exact N0|].
    intros l st <-. unfold runeEq, eof. rewrite bool_decide_eq_false_2 by congruence.
    cbn [runeIs]. rewrite M8, N1, M7, M6, M10, M9, N2. reflexivity.
  - intros _. exists ":", []. repeat split; try reflexivity; try discriminate.
    intros l st <-. reflexivity.
  - intros _. exists "=", []. repeat split; try reflexivity; try discriminate.
    intros l st <-. reflexivity.
Qed.

(** [lexTopLevel] before an item: the blanks are skipped and the state of
    the item follows. *)
Lemma lexTopLevel_item fuel l pre sep it r ic toks :
  reading l pre [] (sep ++ itemText it ++ r) ic toks -> blanks sep -> okItem it ->
  (ic.1 = true -> ic.2 = 0 /\ sep = []) ->
  exists l', lexTopLevel (S fuel) l = Ok (Some (itemState it), l') /\
             reading l' (pre ++ sep) [] (itemText it ++ r) (ic.1, ic.2 + length sep) toks.
Proof.
  intros H Hsep Hit Hic.
  destruct (okItem_head it Hit) as (x & w & Hx & X1 & _ & _ & Hst).
  rewrite Hx in *. cbn [app] in *.
  destruct (lexTopLevel_loop_blanks fuel l pre sep x (w ++ r) ic toks H Hsep X1)
    as (l1 & Hl1 & H1).
  rewrite lexTopLevel_S, Hl1. cbn [bind].
  exists l1. split; [|exact H1].
  pose proof H1 as (_ & _ & _ & Hi & Hc & _). cbn [fst snd] in Hi, Hc.
  replace (indented l1 && (0 <? col l1)) with false.
  2:{ rewrite Hi, Hc. destruct ic.1 eqn:E; [|reflexivity].
      destruct (Hic eq_refl) as [-> ->]. reflexivity. }
  apply Hst. rewrite (peek_reading _ _ _ _ _ _ _ H1). reflexivity.
Qed.

Lemma lexColon_reading l pre r ic toks :
  reading l pre [] (":" :: r) ic toks ->
  exists l', lexColon l = Ok (Some fun_lexTopLevel, l') /\
             reading l' (pre ++ [":"]) [] r (false, ic.2 + 1) (toks ++ [(tokenColon, [":"])]).
Proof.
  intros H. apply next_reading in H. unfold lexColon.
  destruct (emit_reading tokenColon _ _ _ _ _ _ H) as (l' & -> & H').
  exists l'. split; [reflexivity|exact H'].
Qed.

Lemma lexAssign_reading l pre r ic toks :
  reading l pre [] ("=" :: r) ic toks ->
  exists l', lexAssign l = Ok (Some fun_lexTopLevel, l') /\
             reading l' (pre ++ ["="]) [] r (false, ic.2 + 1) (toks ++ [(tokenAssign, ["="])]).
Proof.
  intros H. apply next_reading in H. unfold lexAssign.
  destruct (emit_reading tokenAssign _ _ _ _ _ _ H) as (l' & -> & H').
  exists l'. split; [reflexivity|exact H'].
Qed.

Lemma lexBareWord_reading l pre w r ic toks :
  reading l pre [] (w ++ r) ic toks -> bareWord w -> endsWord r ->
  exists l', lexBareWord l = Ok (Some fun_lexTopLevel, l') /\
             reading l' (pre ++ w) [] r (afterText w ic) (toks ++ [(tokenWord, w)]).
Proof.
  intros H [Hh Hw] Hr. destruct r as [|y r]; [contradiction|]. cbn [endsWord] in Hr.
  unfold lexBareWord.
  destruct (acceptUntil_run nonBareRunes w y l pre [] r ic toks eq_refl H Hw) as (l1 & -> & H1).
  { cbn in Hr |- *. repeat (apply orb_true_iff in Hr as [Hr|Hr];
      [apply Ascii.eqb_eq in Hr; subst; reflexivity|]). discriminate. }
  cbn [bind]. rewrite app_nil_l in H1. rewrite (peek_reading _ _ _ _ _ _ _ H1).
  assert (Hy : runeIs (Some y) Expand.dquote = false /\ runeIs (Some y) "'" = false /\
               runeIs (Some y) "`" = false /\ runeIs (Some y) "\" = false /\
               runeIs (Some y) "$" = false).
  { cbn in Hr. repeat (apply orb_true_iff in Hr as [Hr|Hr];
      [apply Ascii.eqb_eq in Hr; subst; repeat split; reflexivity|]). discriminate. }
  destruct Hy as (-> & -> & -> & -> & ->).
  replace (start l1 <? pos l1) with true.
  2:{ destruct H1 as (_ & -> & -> & _). symmetry. apply Nat.ltb_lt.
      destruct w; [contradiction|]. cbn [length]. lia. }
  destruct (emit_reading tokenWord _ _ _ _ _ _ H1) as (l' & -> & H').
  exists l'. split; [reflexivity|exact H'].
Qed.

Lemma itemState_reading it l pre r ic toks fuel :
  reading l pre [] (itemText it ++ r) ic toks -> okItem it ->
  (isWord it = true -> endsWord r) ->
  exists l' ic', call (itemState it) fuel l = Ok (Some fun_lexTopLevel, l') /\
                 reading l' (pre ++ itemText it) [] r ic' (toks ++ [itemToken it]) /\
                 ic'.1 = false.
Proof.
  intros H Hit Hr. destruct it as [w| |]; cbn [itemState call itemText itemToken] in *.
  - destruct (lexBareWord_reading l pre w r ic toks H Hit (Hr eq_refl)) as (l' & E & H').
    exists l', (afterText w ic). split; [exact E|]. split; [exact H'|].
    destruct Hit as [Hh Hw]. destruct w as [|x w]; [contradiction|].
    inversion Hw as [|? ? Hx Hw']; subst. apply afterText_text.
    + unfold nonBareRunes in Hx. cbn in Hx |- *.
      repeat (apply orb_false_iff in Hx as [? Hx]).
      repeat (apply orb_false_iff; split); assumption.
    + eapply Forall_impl; [exact Hw'|]. intros c Hc. unfold nonBareRunes in Hc.
      cbn in Hc |- *. repeat (apply orb_false_iff in Hc as [? Hc]).
      repeat (apply orb_false_iff; split); try assumption; reflexivity.
  - destruct (lexColon_reading l pre r ic toks H) as (l' & E & H').
    exists l', (false, ic.2 + 1). split; [exact E|]. split; [exact H'|reflexivity].
  - destruct (lexAssign_reading l pre r ic toks H) as (l' & E & H').
    exists l', (false, ic.2 + 1). split; [exact E|]. split; [exact H'|reflexivity].
Qed.

Lemma spaced_endsWord its r : spaced true its -> endsWord r -> endsWord (lineText its ++ r).
Proof.
  destruct its as [|[sep it] its]; [intros _ H; exact H|].
  cbn [spaced lineText]. intros (Hsep & Hit & Hne & _) _.
  destruct sep as [|c sep].
  - cbn [app]. destruct it as [w| |]; [exfalso; apply Hne; reflexivity|reflexivity|reflexivity].
  - cbn [app endsWord]. inversion Hsep as [|? ? Hc _]; subst. cbn in Hc |- *.
    apply orb_true_iff in Hc as [Hc|Hc]; [rewrite Hc; reflexivity|].
    apply orb_true_iff in Hc as [Hc|Hc]; [rewrite Hc; apply orb_true_r|discriminate].
Qed.

(** The lexer on the items of a line: two calls of state functions for each
    item, and the token of each item is sent. *)
Lemma run_from_items its :
  forall fuel l pre r ic toks prev,
    reading l pre [] (lineText its ++ r) ic toks -> spaced prev its ->
    (ic.1 = true -> ic.2 = 0 /\ headSep its = []) -> endsWord r ->
    exists l' ic',
      run_from (2 * length its + fuel) fun_lexTopLevel l = run_from fuel fun_lexTopLevel l' /\
      reading l' (pre ++ lineText its) [] r ic' (toks ++ map itemToken (map snd its)) /\
      (its <> [] -> ic'.1 = false) /\ (its = [] -> ic' = ic).
Proof.
  induction its as [|[sep it] its IH]; intros fuel l pre r ic toks prev H Hsp Hic Hr.
  - exists l, ic. cbn [lineText map length app] in *. rewrite !app_nil_r.
    split; [reflexivity|]. split; [exact H|]. split; [intros E; contradiction|reflexivity].
  - cbn [lineText spaced headSep length map snd] in *.
    destruct Hsp as (Hsep & Hit & Hne & Hsp).
    replace (2 * S (length its) + fuel) with (S (S (2 * length its + fuel))) by lia.
    rewrite <- !app_assoc in H.
    destruct (lexTopLevel_item (2 * length its + fuel) l pre sep it (lineText its ++ r) ic toks
                H Hsep Hit Hic) as (l1 & E1 & H1).
    rewrite run_from_S. cbn [call]. rewrite E1. cbn [bind].
    destruct (itemState_reading it l1 (pre ++ sep) (lineText its ++ r) _ toks
                (2 * length its + fuel) H1 Hit) as (l2 & ic2 & E2 & H2 & Hic2).
    { intros Hw. destruct (isWord it) eqn:E; [|discriminate].
      apply spaced_endsWord; assumption. }
    rewrite run_from_S, E2. cbn [bind].
    destruct (IH fuel l2 ((pre ++ sep) ++ itemText it) r ic2 (toks ++ [itemToken it])
                (isWord it) H2 Hsp) as (l3 & ic3 & E3 & H3 & Hic3 & Hnil).
    { rewrite Hic2. discriminate. }
    { exact Hr. }
    exists l3, ic3. split; [exact E3|]. split.
    + rewrite <- !app_assoc in H3. exact H3.
    + split; [|discriminate]. intros _. destruct its as [|p its].
      * rewrite (Hnil eq_refl). exact Hic2.
      * apply Hic3. discriminate.
Qed.

End Lines.

(* ===================================================================== *)
(** * The lexer at the end of a line and in a recipe *)
(* ===================================================================== *)

Section LexLines.
Import GoStr Token Lex.
Local Open Scope char_scope.
Local Open Scope nat_scope.

Lemma peek_reading_any l pre cur r ic toks :
  reading l pre cur r ic toks ->
  peek l = match r with c :: _ => Some c | [] => eof end.
Proof.
  intros H. unfold peek. rewrite peekN_rest, (reading_rest _ _ _ _ _ _ H).
  destruct r; reflexivity.
Qed.

Lemma reading_slice l pre cur r ic toks :
  reading l pre cur r ic toks -> slice (input l) (start l) (pos l) = Ok cur.
Proof.
  intros (Hi & Hs & Hp & _). rewrite slice_ok by (rewrite ?Hi, ?length_app; lia).
  rewrite Hi, Hs, Hp. replace (length pre + length cur - length pre) with (length cur) by lia.
  rewrite drop_app_length, take_app_length. reflexivity.
Qed.

Lemma reading_newLexer text : reading (newLexer text false) [] [] text (true, 0) [].
Proof. repeat split. Qed.

(** The loop of [lexTopLevel] at the end of a line that is not empty: the
    newline is sent, and the blanks of the next line are skipped. *)
Lemma lexTopLevel_loop_newline fuel l pre trail gap r ic toks :
  reading l pre [] (trail ++ newline :: gap ++ r) ic toks ->
  ic.1 = false -> blanks trail -> blanks gap ->
  headIn [" "; Expand.tab; cr; newline; "\"] r = false ->
  exists l', lexTopLevel_loop (S fuel) l = Ok (None, l') /\
             reading l' (pre ++ trail ++ newline :: gap) [] r (true, length gap)
               (toks ++ [(tokenNewline, [newline])]) /\
             (gap <> [] -> startCol l' = length gap).
Proof.
  intros H Hic Htrail Hgap Hr. rewrite lexTopLevel_loop_S.
  destruct (skipRun_run [" "; Expand.tab; cr] trail l pre (newline :: gap ++ r) ic toks
              eq_refl H) as (l1 & -> & H1).
  { apply blanks_weaken; [reflexivity|reflexivity|exact Htrail]. }
  { reflexivity. }
  cbn [bind]. rewrite afterText_blanks in H1 by exact Htrail.
  rewrite (peek_reading _ _ _ _ _ _ _ H1).
  pose proof H1 as (_ & _ & _ & Hi & _ & _). cbn [fst] in Hi. rewrite Hi, Hic.
  replace (runeIs (Some newline) newline && negb false) with true by reflexivity.
  apply next_reading in H1. pose proof H1 as (_ & _ & _ & _ & _ & Hb & _). rewrite Hb.
  destruct (emit_reading tokenNewline _ _ _ _ _ _ H1) as (l2 & -> & H2).
  cbn [bind]. cbn [app] in H2.
  destruct (skipRun_run [" "; Expand.tab; cr; newline] gap l2 _ r _ _ eq_refl H2)
    as (l3 & E3 & H3).
  { apply blanks_weaken; [reflexivity|reflexivity|exact Hgap]. }
  { destruct r as [|x r]; [reflexivity|]. cbn [headIn] in Hr |- *.
    apply mem_cons_false in Hr as [R1 Hr]. apply mem_cons_false in Hr as [R2 Hr].
    apply mem_cons_false in Hr as [R3 Hr]. apply mem_cons_false in Hr as [R4 Hr].
    apply Ascii.eqb_neq in R1, R2, R3, R4. cbn. rewrite R1, R2, R3, R4. reflexivity. }
  assert (Hsc : gap <> [] -> startCol l3 = length gap).
  { intros Hne. rewrite afterText_blanks in H3 by exact Hgap.
    destruct (while_skip_startCol _ _ _ _ E3) as [->|Hsc].
    - destruct H2 as (_ & _ & Hp2 & _), H3 as (_ & _ & Hp3 & _).
      rewrite Hp2 in Hp3. destruct gap; [congruence|].
      rewrite !length_app in Hp3. cbn [length] in Hp3. rewrite ?length_app in Hp3.
      cbn [length] in Hp3. lia.
    - rewrite Hsc. destruct H3 as (_ & _ & _ & _ & -> & _).
      unfold afterByte. replace (Ascii.eqb newline newline) with true by reflexivity.
      reflexivity. }
  rewrite E3.
  cbn [bind]. rewrite afterText_blanks in H3 by exact Hgap.
  rewrite (peek_reading_any _ _ _ _ _ _ H3).
  replace (runeIs match r with c :: _ => Some c | [] => eof end "\") with false.
  2:{ destruct r as [|x r]; [reflexivity|]. cbn [headIn] in Hr.
      apply mem_cons_false in Hr as [_ Hr]. apply mem_cons_false in Hr as [_ Hr].
      apply mem_cons_false in Hr as [_ Hr]. apply mem_cons_false in Hr as [_ Hr].
      apply mem_cons_false in Hr as [R5 _]. apply Ascii.eqb_neq in R5. symmetry. exact R5. }
  cbn [andb]. exists l3. split; [reflexivity|]. split; [|exact Hsc].
  unfold afterByte in H3. cbn [fst snd] in H3.
  replace (Ascii.eqb newline newline) with true in H3 by reflexivity.
  cbn [fst snd] in H3. rewrite <- !app_assoc in H3. cbn [app] in H3. exact H3.
Qed.

Lemma lexRecipe_loop_startCol fuel : forall l l',
  lexRecipe_loop fuel l = Ok l' -> startCol l' = startCol l.
Proof.
  induction fuel as [|fuel IH]; intros l l' H; [discriminate|]. cbn [lexRecipe_loop] in H.
  destruct (acceptUntilOrEof _ l) as [l1| | | |] eqn:E1; cbn [bind] in H; try discriminate.
  destruct (acceptRun _ l1) as [l2| | | |] eqn:E2; cbn [bind] in H; try discriminate.
  apply while_next_startCol in E1, E2.
  destruct (negb (indented l2) || (col l2 =? 0)).
  - injection H as <-. congruence.
  - rewrite (IH _ _ H). congruence.
Qed.

(** The loop of [lexTopLevel] where nothing is left. *)
Lemma lexTopLevel_loop_end fuel l pre cur ic toks :
  reading l pre cur [] ic toks -> lexTopLevel_loop (S fuel) l = Ok (None, l).
Proof.
  intros H. rewrite lexTopLevel_loop_S.
  assert (Hskip : forall valid, mem (ascii_of_nat 0) valid = false -> skipRun valid l = Ok l).
  { intros valid Hv. unfold skipRun, rounds. cbn [while].
    rewrite (peek_reading_end _ _ _ _ _ H). unfold eof, runeIn. rewrite Hv. reflexivity. }
  rewrite Hskip by reflexivity. cbn [bind].
  rewrite (peek_reading_end _ _ _ _ _ H). cbn [runeIs eof andb bind].
  replace (Ascii.eqb (ascii_of_nat 0) newline) with false by reflexivity. cbn [andb bind].
  rewrite Hskip by reflexivity. cbn [bind].
  rewrite (peek_reading_end _ _ _ _ _ H). reflexivity.
Qed.

Lemma lexTopLevel_end fuel l pre cur ic toks :
  reading l pre cur [] ic toks -> ic.1 = false \/ ic.2 = 0 ->
  lexTopLevel (S fuel) l = Ok (None, l).
Proof.
  intros H Hic. rewrite lexTopLevel_S, (lexTopLevel_loop_end _ _ _ _ _ _ H). cbn [bind].
  pose proof H as (_ & _ & _ & Hi & Hc & _). rewrite Hi, Hc.
  replace (ic.1 && (0 <? ic.2)) with false
    by (destruct Hic as [-> | ->]; [reflexivity|apply eq_sym, andb_false_r]).
  rewrite (peek_reading_end _ _ _ _ _ H). reflexivity.
Qed.

(** The loop of [lexRecipe] over the lines of a recipe that ends with a
    newline. *)
Lemma lexRecipe_loop_lines lines :
  forall fuel l pre cur body ic toks,
    reading l pre cur (body ++ newline :: recipeText lines) ic toks ->
    Forall (fun c => mem c [newline] = false) body -> Forall recipeLine lines ->
    length lines < fuel ->
    exists l', lexRecipe_loop fuel l = Ok l' /\
               reading l' pre (cur ++ body ++ newline :: recipeText lines) [] (true, 0) toks.
Proof.
  induction lines as [|[ind b] lines IH]; intros fuel l pre cur body ic toks H Hbody Hl Hf;
    (destruct fuel as [|fuel]; [cbn in Hf; lia|]); cbn [lexRecipe_loop].
  - cbn [recipeText] in *.
    destruct (acceptUntilOrEof_run [newline] body l pre cur [newline] ic toks eq_refl H Hbody
                eq_refl) as (l1 & -> & H1).
    cbn [bind].
    destruct (acceptRun_run [" "; Expand.tab; newline; cr] [newline] l1 pre (cur ++ body) []
                _ toks eq_refl H1) as (l2 & -> & H2).
    { repeat constructor. }
    { reflexivity. }
    cbn [bind]. cbn [afterText fold_left] in H2. unfold afterByte at 1 in H2.
    replace (Ascii.eqb newline newline) with true in H2 by reflexivity.
    pose proof H2 as (_ & _ & _ & Hi & Hc & _). cbn [fst snd] in Hi, Hc. rewrite Hi, Hc.
    cbn. exists l2. split; [reflexivity|]. rewrite <- app_assoc in H2. exact H2.
  - cbn [recipeText] in *. inversion Hl as [|? ? Hline Hl']; subst.
    destruct Hline as (Hind & Hne & Hb & Hbn). cbn [fst snd] in *.
    destruct b as [|x b]; [contradiction|].
    destruct (acceptUntilOrEof_run [newline] body l pre cur
                (newline :: ind ++ (x :: b) ++ newline :: recipeText lines) ic toks
                eq_refl H Hbody eq_refl) as (l1 & -> & H1).
    cbn [bind].
    destruct (acceptRun_run [" "; Expand.tab; newline; cr] (newline :: ind) l1 pre (cur ++ body)
                ((x :: b) ++ newline :: recipeText lines) _ toks eq_refl H1)
      as (l2 & -> & H2).
    { constructor; [reflexivity|]. apply blanks_weaken; [reflexivity|reflexivity|exact Hind]. }
    { cbn [app headIn]. apply mem_cons_false in Hb as [B1 Hb].
      apply mem_cons_false in Hb as [B2 Hb]. apply mem_cons_false in Hb as [B3 Hb].
      apply mem_cons_false in Hb as [B4 _]. apply Ascii.eqb_neq in B1, B2, B3, B4.
      cbn. rewrite B1, B2, B3, B4. reflexivity. }
    cbn [bind]. cbn [afterText fold_left] in H2. unfold afterByte at 2 in H2.
    replace (Ascii.eqb newline newline) with true in H2 by reflexivity.
    fold (afterText ind (true, 0)) in H2. rewrite afterText_blanks in H2 by exact Hind.
    cbn [fst snd] in H2.
    pose proof H2 as (_ & _ & _ & Hi & Hc & _). cbn [fst snd] in Hi, Hc. rewrite Hi, Hc.
    replace (negb true || (0 + length ind =? 0)) with false.
    2:{ symmetry. cbn [negb orb]. apply Nat.eqb_neq. destruct ind; [congruence|]. cbn. lia. }
    destruct (IH fuel l2 pre ((cur ++ body) ++ newline :: ind) (x :: b) _ toks H2 Hbn Hl')
      as (l3 & E3 & H3).
    { cbn in Hf. lia. }
    exists l3. split; [exact E3|]. rewrite <- !app_assoc in H3. cbn [app] in H3 |- *.
    exact H3.
Qed.

(** The loop of [lexRecipe] on a last line that no newline ends. *)
Lemma lexRecipe_loop_last fuel l pre cur x body ic toks :
  reading l pre cur (x :: body) ic toks ->
  mem x [" "; Expand.tab; newline] = false -> Forall (fun c => mem c [newline] = false) body ->
  exists l' ic', lexRecipe_loop (S fuel) l = Ok l' /\
                 reading l' pre (cur ++ x :: body) [] ic' toks /\ ic'.1 = false.
Proof.
  intros H Hx Hbody. cbn [lexRecipe_loop].
  destruct (acceptUntilOrEof_run [newline] (x :: body) l pre cur [] ic toks eq_refl)
    as (l1 & -> & H1).
  { rewrite app_nil_r. exact H. }
  { constructor; [|exact Hbody]. apply mem_cons_false in Hx as [_ Hx].
    apply mem_cons_false in Hx as [_ Hx]. exact Hx. }
  { reflexivity. }
  cbn [bind].
  destruct (acceptRun_run [" "; Expand.tab; newline; cr] [] l1 pre (cur ++ x :: body) [] _ toks
              eq_refl H1) as (l2 & -> & H2); [constructor|reflexivity|].
  cbn [bind]. rewrite app_nil_r in H2.
  change (afterText [] (afterText (x :: body) ic)) with (afterText (x :: body) ic) in H2.
  pose proof (afterText_text x body ic Hx Hbody) as Hfalse.
  pose proof H2 as (_ & _ & _ & Hi & _ & _). rewrite Hi, Hfalse. cbn [negb orb].
  exists l2, (afterText (x :: body) ic). repeat split; try apply H2. exact Hfalse.
Qed.

(** At the end of the input on an indented line, the loop of [lexRecipe]
    does not end. *)
Lemma lexRecipe_loop_hangs fuel :
  forall l pre cur ic toks,
    reading l pre cur [] ic toks -> ic.1 = true -> 0 < ic.2 ->
    lexRecipe_loop fuel l = OutOfFuel.
Proof.
  induction fuel as [|fuel IH]; intros l pre cur ic toks H Hi Hc; [reflexivity|].
  cbn [lexRecipe_loop].
  destruct (acceptUntilOrEof_run [newline] [] l pre cur [] ic toks eq_refl H)
    as (l1 & -> & H1); [constructor|reflexivity|].
  cbn [bind]. cbn [afterText fold_left] in H1.
  destruct (acceptRun_run [" "; Expand.tab; newline; cr] [] l1 pre (cur ++ []) [] ic toks
              eq_refl H1) as (l2 & -> & H2); [constructor|reflexivity|].
  cbn [bind]. cbn [afterText fold_left] in H2.
  pose proof H2 as (_ & _ & _ & Hi2 & Hc2 & _). rewrite Hi2, Hc2, Hi.
  replace (negb true || (ic.2 =? 0)) with false
    by (symmetry; apply Nat.eqb_neq; lia).
  eapply IH; eassumption.
Qed.

Lemma onlyWhitespace_newline s r : onlyWhitespace (s ++ newline :: r) = false.
Proof.
  unfold onlyWhitespace. induction s as [|c s IH]; cbn [app IndexAny].
  - reflexivity.
  - destruct (mem c _); [reflexivity|].
    destruct (IndexAny (s ++ newline :: r) _); [reflexivity|discriminate].
Qed.

(** More rounds do not change a result. *)
Lemma lexTopLevel_loop_mono fuel :
  forall fuel' l x, fuel <= fuel' -> lexTopLevel_loop fuel l = Ok x ->
                    lexTopLevel_loop fuel' l = Ok x.
Proof.
  induction fuel as [|fuel IH]; intros fuel' l x Hle H; [discriminate|].
  destruct fuel' as [|fuel']; [lia|]. rewrite lexTopLevel_loop_S in H |- *.
  destruct (skipRun _ l) as [l1| | | |]; cbn [bind] in *; try discriminate.
  destruct (if runeIs (peek l1) newline && negb (indented l1)
            then _ else _) as [[[] l2]| | | |]; cbn [bind] in *; try discriminate.
  - exact H.
  - destruct (skipRun _ l2) as [l3| | | |]; cbn [bind] in *; try discriminate.
    destruct (runeIs (peek l3) "\" && runeIs (peekN l3 1) newline); [|exact H].
    apply IH; [lia|exact H].
Qed.

Lemma lexDoubleQuotedWord_loop_mono fuel :
  forall fuel' l x, fuel <= fuel' -> lexDoubleQuotedWord_loop fuel l = Ok x ->
                    lexDoubleQuotedWord_loop fuel' l = Ok x.
Proof.
  induction fuel as [|fuel IH]; intros fuel' l x Hle H; [discriminate|].
  destruct fuel' as [|fuel']; [lia|]. cbn [lexDoubleQuotedWord_loop] in H |- *.
  destruct (negb (runeIs (peek l) Expand.dquote) && negb (runeEq (peek l) eof)); [|exact H].
  destruct (acceptUntil _ l) as [l1| | | |]; cbn [bind] in *; try discriminate.
  destruct (accept ["\"] l1) as [escaped l2]. apply IH; [lia|exact H].
Qed.

Lemma lexRecipe_loop_mono fuel :
  forall fuel' l x, fuel <= fuel' -> lexRecipe_loop fuel l = Ok x ->
                    lexRecipe_loop fuel' l = Ok x.
Proof.
  induction fuel as [|fuel IH]; intros fuel' l x Hle H; [discriminate|].
  destruct fuel' as [|fuel']; [lia|]. cbn [lexRecipe_loop] in H |- *.
  destruct (acceptUntilOrEof _ l) as [l1| | | |]; cbn [bind] in *; try discriminate.
  destruct (acceptRun _ l1) as [l2| | | |]; cbn [bind] in *; try discriminate.
  destruct (negb (indented l2) || (col l2 =? 0)); [exact H|]. apply IH; [lia|exact H].
Qed.

Lemma call_mono state fuel fuel' l x :
  fuel <= fuel' -> call state fuel l = Ok x -> call state fuel' l = Ok x.
Proof.
  intros Hle. destruct state; cbn [call]; try (intros H; exact H).
  - rewrite !lexTopLevel_S.
    destruct (lexTopLevel_loop fuel l) as [y| | | |] eqn:E; cbn [bind]; try discriminate.
    rewrite (lexTopLevel_loop_mono _ _ _ _ Hle E). cbn [bind]. intros H; exact H.
  - unfold lexDoubleQuotedWord.
    destruct (lexDoubleQuotedWord_loop fuel (snd (next l))) as [y| | | |] eqn:E;
      cbn [bind]; try discriminate.
    rewrite (lexDoubleQuotedWord_loop_mono _ _ _ _ Hle E). cbn [bind]. intros H; exact H.
  - unfold lexRecipe.
    destruct (lexRecipe_loop fuel l) as [y| | | |] eqn:E; cbn [bind]; try discriminate.
    rewrite (lexRecipe_loop_mono _ _ _ _ Hle E). cbn [bind]. intros H; exact H.
Qed.

Lemma run_from_mono fuel :
  forall fuel' state l x, fuel <= fuel' -> run_from fuel state l = Ok x ->
                          run_from fuel' state l = Ok x.
Proof.
  induction fuel as [|fuel IH]; intros fuel' state l x Hle H; [discriminate|].
  destruct fuel' as [|fuel']; [lia|]. rewrite run_from_S in H |- *.
  destruct (call state fuel l) as [[st l1]| | | |] eqn:E; cbn [bind] in H; try discriminate.
  rewrite (call_mono state fuel fuel' l _ ltac:(lia) E). cbn [bind].
  destruct st as [s|]; [|exact H]. apply IH; [lia|exact H].
Qed.

(** From the top level at the end of the input on an indented line, the
    lexer does not stop. *)
Lemma run_from_hangs fuel l pre ic toks :
  reading l pre [] [] ic toks -> ic.1 = true -> 0 < ic.2 ->
  run_from fuel fun_lexTopLevel l = OutOfFuel.
Proof.
  intros H Hi Hc. destruct fuel as [|[|fuel]]; [reflexivity|reflexivity|].
  rewrite run_from_S. cbn [call].
  rewrite lexTopLevel_S, (lexTopLevel_loop_end _ _ _ _ _ _ H). cbn [bind].
  pose proof H as (_ & _ & _ & Hi' & Hc' & _). rewrite Hi', Hc', Hi.
  replace (0 <? ic.2) with true by (symmetry; apply Nat.ltb_lt; exact Hc).
  cbn [andb bind]. destruct fuel as [|fuel]; [reflexivity|].
  rewrite run_from_S. cbn [call]. unfold lexRecipe.
  rewrite (lexRecipe_loop_hangs _ _ _ _ _ _ H Hi Hc). reflexivity.
Qed.

End LexLines.

(* ===================================================================== *)
(** * What the lexer sends *)
(* ===================================================================== *)

Section LexResults.
Import GoStr Token Lex.
Local Open Scope char_scope.
Local Open Scope nat_scope.

Lemma endsWord_line_end trail r : blanks trail -> endsWord (trail ++ newline :: r).
Proof.
  intros H. destruct trail as [|c trail]; [reflexivity|].
  inversion H as [|? ? Hc _]; subst. cbn [app endsWord]. cbn in Hc |- *.
  apply orb_true_iff in Hc as [Hc|Hc]; [rewrite Hc; reflexivity|].
  apply orb_true_iff in Hc as [Hc|Hc]; [rewrite Hc; apply orb_true_r|discriminate].
Qed.

(** The lexer on the items of a first line, up to the newline. *)
Lemma run_header its trail r fuel :
  headSep its = [] -> spaced false its -> blanks trail ->
  exists l ic,
    run (2 * length its + fuel) (newLexer (lineText its ++ trail ++ newline :: r) false) =
      run_from fuel fun_lexTopLevel l /\
    reading l (lineText its) [] (trail ++ newline :: r) ic (map itemToken (map snd its)) /\
    (its <> [] -> ic.1 = false).
Proof.
  intros Hh Hsp Htrail. unfold run.
  destruct (run_from_items its fuel _ [] (trail ++ newline :: r) (true, 0) [] false
              (reading_newLexer _) Hsp) as (l & ic & E & H & Hic & _).
  { intros _. split; [reflexivity|exact Hh]. }
  { apply endsWord_line_end. exact Htrail. }
  exists l, ic. split; [exact E|]. split; [exact H|exact Hic].
Qed.

Lemma lex_from_run fuel fuel' text l :
  fuel <= fuel' -> run fuel (newLexer text false) = Ok l -> lex fuel' text = Ok (output l).
Proof.
  intros Hle H. unfold lex, run in *. rewrite (run_from_mono _ _ _ _ _ Hle H). reflexivity.
Qed.

(** X22: a first line of bare words, colons and equals signs, separated by
    blanks where two words meet, and ended by a newline: the lexer sends one
    token for each item, in order, and then the newline token. *)
Theorem lex_line (its : list (gostring * item)) (trail : gostring) (fuel : nat) :
  its <> [] -> headSep its = [] -> spaced false its -> blanks trail ->
  2 * length its + 2 <= fuel ->
  exists tokens,
    lex fuel (lineText its ++ trail ++ [newline]) = Ok tokens /\
    map tokenText tokens = map itemToken (map snd its) ++ [(tokenNewline, [newline])].
Proof.
  intros Hne Hh Hsp Htrail Hf.
  destruct (run_header its trail [] 2 Hh Hsp Htrail) as (l & ic & E & H & Hic).
  destruct (lexTopLevel_loop_newline 0 l _ trail [] [] ic _ H (Hic Hne) Htrail)
    as (l1 & E1 & H1 & _); [constructor|reflexivity|].
  assert (Hrun : run (2 * length its + 2) (newLexer (lineText its ++ trail ++ [newline]) false)
                 = Ok l1).
  { rewrite E, run_from_S. cbn [call]. rewrite lexTopLevel_S, E1. cbn [bind].
    pose proof H1 as (_ & _ & _ & Hi & Hc & _). rewrite Hi, Hc.
    cbn [fst snd andb length Nat.ltb Nat.leb].
    rewrite (peek_reading_end _ _ _ _ _ H1). reflexivity. }
  exists (output l1). split; [exact (lex_from_run _ _ _ _ Hf Hrun)|].
  apply H1.
Qed.

(** X23: a rule header followed by indented recipe lines that each end with a
    newline: after the tokens of the header and the newline token the lexer
    sends one recipe token; it holds the recipe from the end of the first
    indentation on, and its column is the width of that indentation. *)
Theorem lex_rule_recipe (its : list (gostring * item)) (trail ind body : gostring)
    (lines : list (gostring * gostring)) (fuel : nat) :
  its <> [] -> headSep its = [] -> spaced false its -> blanks trail ->
  Forall recipeLine ((ind, body) :: lines) ->
  2 * length its + length lines + 5 <= fuel ->
  exists tokens,
    lex fuel (lineText its ++ trail ++ newline :: recipeText ((ind, body) :: lines))
      = Ok tokens /\
    map tokenText tokens =
      map itemToken (map snd its) ++
      [(tokenNewline, [newline]); (tokenRecipe, body ++ newline :: recipeText lines)] /\
    forall t, last tokens = Some t -> Token.col t = length ind.
Proof.
  intros Hne Hh Hsp Htrail Hl Hf. cbn [recipeText].
  inversion Hl as [|? ? Hline Hl']; subst.
  destruct Hline as (Hind & Hine & Hb & Hbn). cbn [fst snd] in *.
  destruct body as [|x body]; [contradiction|].
  set (rest := (x :: body) ++ newline :: recipeText lines).
  destruct (run_header its trail (ind ++ rest) (length lines + 5) Hh Hsp Htrail)
    as (l & ic & E & H & Hic).
  destruct (lexTopLevel_loop_newline (length lines + 3) l _ trail ind rest ic _ H (Hic Hne)
              Htrail Hind) as (l1 & E1 & H1 & Hsc).
  { exact Hb. }
  destruct (lexRecipe_loop_lines lines (length lines + 3) l1 _ [] (x :: body) _ _ H1 Hbn Hl')
    as (l2 & E2 & H2); [lia|].
  change ([] ++ (x :: body) ++ newline :: recipeText lines) with rest in H2.
  destruct (emit_reading tokenRecipe _ _ _ _ _ _ H2) as (l3 & E3 & H3).
  destruct (emit_output _ _ _ _ _ _ _ _ H2 E3) as (rt & Hout & _ & _ & Hcol).
  rewrite (lexRecipe_loop_startCol _ _ _ E2), (Hsc Hine) in Hcol.
  assert (Hrun : run (2 * length its + (length lines + 5))
                   (newLexer (lineText its ++ trail ++ newline :: ind ++ rest) false) = Ok l3).
  { rewrite E. replace (length lines + 5) with (S (S (S (length lines + 2)))) by lia.
    rewrite run_from_S. cbn [call].
    replace (S (S (length lines + 2))) with (S (length lines + 3)) by lia.
    rewrite lexTopLevel_S, E1. cbn [bind].
    pose proof H1 as (_ & _ & _ & Hi & Hc & _). rewrite Hi, Hc. cbn [fst snd].
    replace (0 <? length ind) with true
      by (symmetry; apply Nat.ltb_lt; destruct ind; [congruence|cbn; lia]).
    cbn [andb bind]. rewrite run_from_S. cbn [call]. unfold lexRecipe.
    rewrite E2. cbn [bind]. rewrite (reading_slice _ _ _ _ _ _ H2). cbn [bind].
    unfold rest. rewrite onlyWhitespace_newline. cbn [negb]. rewrite E3. cbn [bind].
    replace (length lines + 3) with (S (S (length lines + 1))) by lia.
    rewrite run_from_S. cbn [call].
    rewrite (lexTopLevel_end _ _ _ _ _ _ H3) by (right; reflexivity). reflexivity. }
  exists (output l3). split; [|split].
  - refine (lex_from_run _ _ _ _ _ Hrun). lia.
  - destruct H3 as (_ & _ & _ & _ & _ & _ & ->). rewrite <- app_assoc. reflexivity.
  - intros t Ht. rewrite Hout, last_snoc in Ht. injection Ht as <-. exact Hcol.
Qed.

(** X24: a recipe of one line that no newline ends is sent only if it contains
    white space: [onlyWhitespace] is true of the texts without white space,
    so a recipe of one word is dropped. *)
Theorem lex_recipe_last_line (its : list (gostring * item)) (trail ind body : gostring)
    (fuel : nat) :
  its <> [] -> headSep its = [] -> spaced false its -> blanks trail ->
  recipeLine (ind, body) -> 2 * length its + 5 <= fuel ->
  exists tokens,
    lex fuel (lineText its ++ trail ++ newline :: ind ++ body) = Ok tokens /\
    map tokenText tokens =
      map itemToken (map snd its) ++
      (tokenNewline, [newline]) ::
      (if onlyWhitespace body then [] else [(tokenRecipe, body)]).
Proof.
  intros Hne Hh Hsp Htrail (Hind & Hine & Hb & Hbn) Hf. cbn [fst snd] in *.
  destruct body as [|x body]; [contradiction|].
  destruct (run_header its trail (ind ++ x :: body) 5 Hh Hsp Htrail) as (l & ic & E & H & Hic).
  destruct (lexTopLevel_loop_newline 3 l _ trail ind (x :: body) ic _ H (Hic Hne)
              Htrail Hind Hb) as (l1 & E1 & H1 & _).
  assert (Hx : mem x [" "; Expand.tab; newline] = false).
  { apply mem_cons_false in Hb as [B1 Hb]. apply mem_cons_false in Hb as [B2 Hb].
    apply mem_cons_false in Hb as [_ Hb]. apply mem_cons_false in Hb as [B4 _].
    apply Ascii.eqb_neq in B1, B2, B4. cbn. rewrite B1, B2, B4. reflexivity. }
  destruct (lexRecipe_loop_last 2 l1 _ [] x body _ _ H1 Hx (Forall_inv_tail Hbn))
    as (l2 & ic2 & E2 & H2 & Hic2).
  cbn [app] in H2.
  assert (Hrun : exists l3,
            run (2 * length its + 5)
              (newLexer (lineText its ++ trail ++ newline :: ind ++ x :: body) false) = Ok l3 /\
            map tokenText (output l3) =
              (map itemToken (map snd its) ++ [(tokenNewline, [newline])]) ++
              (if onlyWhitespace (x :: body) then [] else [(tokenRecipe, x :: body)])).
  { rewrite E, run_from_S. cbn [call]. rewrite lexTopLevel_S, E1. cbn [bind].
    pose proof H1 as (_ & _ & _ & Hi & Hc & _). rewrite Hi, Hc. cbn [fst snd].
    replace (0 <? length ind) with true
      by (symmetry; apply Nat.ltb_lt; destruct ind; [congruence|cbn; lia]).
    cbn [andb bind]. rewrite run_from_S. cbn [call]. unfold lexRecipe.
    rewrite E2. cbn [bind]. rewrite (reading_slice _ _ _ _ _ _ H2). cbn [bind].
    destruct (onlyWhitespace (x :: body)); cbn [negb].
    - cbn [bind]. rewrite run_from_S. cbn [call].
      rewrite (lexTopLevel_end _ _ _ _ _ _ H2) by (left; exact Hic2).
      exists l2. split; [reflexivity|]. rewrite app_nil_r. apply H2.
    - destruct (emit_reading tokenRecipe _ _ _ _ _ _ H2) as (l3 & -> & H3).
      cbn [bind]. rewrite run_from_S. cbn [call].
      rewrite (lexTopLevel_end _ _ _ _ _ _ H3) by (left; exact Hic2).
      exists l3. split; [reflexivity|]. apply H3. }
  destruct Hrun as (l3 & Hrun & Hout).
  exists (output l3). split; [exact (lex_from_run _ _ _ _ Hf Hrun)|].
  rewrite Hout, <- app_assoc. reflexivity.
Qed.

Lemma run_from_lexRecipe_hangs fuel l pre ic toks :
  reading l pre [] [] ic toks -> ic.1 = true -> 0 < ic.2 ->
  run_from fuel fun_lexRecipe l = OutOfFuel.
Proof.
  intros H Hi Hc. destruct fuel as [|fuel]; [reflexivity|].
  rewrite run_from_S. cbn [call]. unfold lexRecipe.
  rewrite (lexRecipe_loop_hangs _ _ _ _ _ _ H Hi Hc). reflexivity.
Qed.

Lemma lex_not_Ok fuel text :
  (forall l, run fuel (newLexer text false) <> Ok l) -> lex fuel text = OutOfFuel.
Proof.
  intros H. unfold lex. pose proof (run_inOrder fuel text false) as Hs.
  destruct (run fuel (newLexer text false)) as [l| | | |]; cbn in Hs |- *;
    try contradiction; [|reflexivity].
  exfalso. apply (H l). reflexivity.
Qed.

(** [lexTopLevel] at the start of a text of blanks: a recipe follows. *)
Lemma lexTopLevel_blank_text fuel gap :
  gap <> [] -> blanks gap ->
  exists l, lexTopLevel (S fuel) (newLexer gap false) = Ok (Some fun_lexRecipe, l) /\
            reading l gap [] [] (true, length gap) [].
Proof.
  intros Hgap Hblank. rewrite lexTopLevel_S, lexTopLevel_loop_S.
  pose proof (reading_newLexer gap) as H. rewrite <- (app_nil_r gap) in H at 2.
  destruct (skipRun_run [" "; Expand.tab; cr] gap _ [] [] _ _ eq_refl H) as (l1 & E1 & H1).
  { apply blanks_weaken; [reflexivity|reflexivity|exact Hblank]. }
  { reflexivity. }
  rewrite E1. cbn [bind].
  rewrite afterText_blanks in H1 by exact Hblank. cbn [fst snd app] in H1.
  rewrite (peek_reading_end _ _ _ _ _ H1).
  replace (runeIs eof newline) with false by reflexivity. cbn [andb bind].
  assert (Hskip : skipRun [" "; Expand.tab; cr; newline] l1 = Ok l1).
  { unfold skipRun, rounds. cbn [while]. rewrite (peek_reading_end _ _ _ _ _ H1).
    reflexivity. }
  rewrite Hskip. cbn [bind]. rewrite (peek_reading_end _ _ _ _ _ H1).
  replace (runeIs eof "\") with false by reflexivity. cbn [andb bind].
  pose proof H1 as (_ & _ & _ & Hi & Hc & _). cbn [fst snd] in Hi, Hc. rewrite Hi, Hc.
  replace (0 <? 0 + length gap) with true
    by (symmetry; apply Nat.ltb_lt; destruct gap; [congruence|cbn; lia]).
  cbn [andb]. exists l1. split; [reflexivity|exact H1].
Qed.

(** X25: the lexer does not stop on a text that is only blanks, or whose last
    line, after a first line of items, is only blanks: at the end of the
    input the loop of [lexRecipe] consumes nothing and goes on for ever. *)
Theorem lex_blank_last_line_hangs (gap : gostring) :
  gap <> [] -> blanks gap ->
  (forall fuel, lex fuel gap = OutOfFuel) /\
  (forall its trail fuel,
     its <> [] -> headSep its = [] -> spaced false its -> blanks trail ->
     lex fuel (lineText its ++ trail ++ newline :: gap) = OutOfFuel).
Proof.
  intros Hgap Hblank. split.
  - intros fuel. apply lex_not_Ok. intros l Hl.
    apply (run_from_mono _ (S (S fuel))) in Hl; [|lia].
    unfold run in Hl. rewrite run_from_S in Hl. cbn [call] in Hl.
    destruct (lexTopLevel_blank_text fuel gap Hgap Hblank) as (l1 & E1 & H1).
    rewrite E1 in Hl. cbn [bind] in Hl.
    rewrite (run_from_lexRecipe_hangs _ _ _ _ _ H1) in Hl;
      [discriminate|reflexivity|cbn; destruct gap; [congruence|cbn; lia]].
  - intros its trail fuel Hne Hh Hsp Htrail. apply lex_not_Ok. intros l0 Hl.
    apply (run_from_mono _ (2 * length its + S (S fuel))) in Hl; [|lia].
    fold (run (2 * length its + S (S fuel))
            (newLexer (lineText its ++ trail ++ newline :: gap) false)) in Hl.
    destruct (run_header its trail gap (S (S fuel)) Hh Hsp Htrail) as (l & ic & E & H & Hic).
    rewrite E in Hl. rewrite <- (app_nil_r gap) in H.
    destruct (lexTopLevel_loop_newline fuel l _ trail gap [] ic _ H (Hic Hne) Htrail Hblank
                eq_refl) as (l1 & E1 & H1 & _).
    rewrite run_from_S in Hl. cbn [call] in Hl. rewrite lexTopLevel_S, E1 in Hl.
    cbn [bind] in Hl.
    pose proof H1 as (_ & _ & _ & Hi & Hc & _). cbn [fst snd] in Hi, Hc. rewrite Hi, Hc in Hl.
    replace (0 <? length gap) with true in Hl
      by (symmetry; apply Nat.ltb_lt; destruct gap; [congruence|cbn; lia]).
    cbn [andb bind] in Hl.
    rewrite (run_from_lexRecipe_hangs _ _ _ _ _ H1) in Hl;
      [discriminate|reflexivity|cbn; destruct gap; [congruence|cbn; lia]].
Qed.

End LexResults.

(* ===================================================================== *)
(** * Assignments *)
(* ===================================================================== *)

Section Parser.
Import GoStr Token Rules Parse.
Local Open Scope char_scope.
Local Open Scope nat_scope.

Lemma appendToLast_snoc input x s : appendToLast (input ++ [x]) s = input ++ [x ++ s].
Proof.
  unfold appendToLast. destruct (input ++ [x]) eqn:E.
  - destruct input; discriminate.
  - rewrite <- E. rewrite length_app. cbn [length].
    replace (length input + 1 - 1) with (length input) by lia.
    rewrite take_app_length, last_last. reflexivity.
Qed.

Lemma glued_cons_nonempty t ts : glued (t :: ts) <> [].
Proof.
  cbn [glued head]. destruct (head ts); [|discriminate]. destruct (glued ts); [discriminate|].
  destruct (_ && _); discriminate.
Qed.

Lemma assignmentInput_step i prev t ts input x :
  0 < i ->
  assignmentInput (S i) prev (t :: ts) (input ++ [x]) =
  if isType tokenWord t && isType tokenWord prev
  then assignmentInput (S (S i)) t ts ((input ++ [x]) ++ [val t])
  else assignmentInput (S (S i)) t ts (input ++ [x ++ val t]).
Proof.
  intros Hi. cbn [assignmentInput].
  replace (1 <? S i) with true by (symmetry; apply Nat.ltb_lt; lia).
  rewrite length_app. cbn [length]. replace (length input + 1 =? 0) with false
    by (symmetry; apply Nat.eqb_neq; lia).
  rewrite appendToLast_snoc.
  destruct (isType tokenWord t), (isType tokenWord prev); reflexivity.
Qed.

Lemma assignmentInput_step1 i prev t ts x :
  0 < i ->
  assignmentInput (S i) prev (t :: ts) [x] =
  if isType tokenWord t && isType tokenWord prev
  then assignmentInput (S (S i)) t ts ([x] ++ [val t])
  else assignmentInput (S (S i)) t ts [x ++ val t].
Proof. exact (assignmentInput_step i prev t ts [] x). Qed.

(** The values gathered before the last one stay as they are. *)
Lemma assignmentInput_acc ts : forall i prev input x,
  0 < i ->
  assignmentInput (S i) prev ts (input ++ [x]) = input ++ assignmentInput (S i) prev ts [x].
Proof.
  induction ts as [|t ts IH]; intros i prev input x Hi; [reflexivity|].
  rewrite assignmentInput_step, assignmentInput_step1 by exact Hi.
  destruct (isType tokenWord t && isType tokenWord prev).
  - rewrite !IH by lia. rewrite <- app_assoc. reflexivity.
  - apply IH. lia.
Qed.

Lemma assignmentInput_head ts : forall i prev a x,
  0 < i ->
  assignmentInput (S i) prev ts [a ++ x] =
  match assignmentInput (S i) prev ts [x] with
  | g :: gs => (a ++ g) :: gs
  | [] => []
  end.
Proof.
  induction ts as [|t ts IH]; intros i prev a x Hi; [reflexivity|].
  rewrite !assignmentInput_step1 by exact Hi.
  destruct (isType tokenWord t && isType tokenWord prev).
  - rewrite !assignmentInput_acc by lia. reflexivity.
  - rewrite <- app_assoc. apply IH. lia.
Qed.

Lemma assignmentInput_glued ts : forall i t,
  0 < i -> assignmentInput (S i) t ts [val t] = glued (t :: ts).
Proof.
  induction ts as [|t' ts IH]; intros i t Hi; [reflexivity|].
  rewrite assignmentInput_step1 by exact Hi.
  change (glued (t :: t' :: ts))
    with (match glued (t' :: ts) with
          | g :: gs => if isType tokenWord t && isType tokenWord t'
                       then val t :: g :: gs else (val t ++ g) :: gs
          | [] => [val t]
          end).
  rewrite (andb_comm (isType tokenWord t)).
  destruct (isType tokenWord t' && isType tokenWord t).
  - rewrite assignmentInput_acc by lia.
    rewrite IH by lia. pose proof (glued_cons_nonempty t' ts) as Hne.
    destruct (glued (t' :: ts)); [congruence|reflexivity].
  - rewrite assignmentInput_head by lia. rewrite IH by lia.
    pose proof (glued_cons_nonempty t' ts) as Hne.
    destruct (glued (t' :: ts)); [congruence|reflexivity].
Qed.

Lemma assignmentInput_first t0 ts : assignmentInput 1 t0 ts [] = glued ts.
Proof.
  destruct ts as [|t ts]; [reflexivity|]. cbn [assignmentInput].
  replace (1 <? 1) with false by reflexivity. cbn [length Nat.eqb andb].
  rewrite orb_false_r.
  replace (if negb (isType tokenWord t) then [] ++ [val t] else [] ++ [val t])
    with [val t] by (destruct (negb _); reflexivity).
  apply assignmentInput_glued. lia.
Qed.

End Parser.

(* ===================================================================== *)
(** * What parsing keeps *)
(* ===================================================================== *)

Section ParserStates.
Import GoStr Token Rules Parse.
Local Open Scope char_scope.
Local Open Scope nat_scope.

Variable shellWords : gostring -> list gostring.
Variable regexpCompile : gostring -> option Regexp.regexp.
Variable sh : list gostring -> gostring * bool.
Variable readFile : gostring -> option gostring.
Variable Abs : gostring -> option gostring.
Variable Dir : gostring -> gostring.

(** X26: [executeAssignment] joins the values of the tokens after the name
    across every token that is no word (only two words in a row stay
    apart), expands each joined value and binds the name to the words; a name
    that is no variable name is an error, and nothing is bound. *)
Theorem executeAssignment_glues (fuel : nat) (rs : ruleSet) (t0 : token)
    (later : list token) :
  executeAssignment shellWords fuel rs (t0 :: later) =
  if Expand.isValidVarName (val t0) then
    let* vals := expandAll shellWords fuel (glued later) (vars rs) true [] in
    Ok (setVars (<[val t0 := vals]> (vars rs)) rs, None)
  else Ok (rs, Some t0).
Proof.
  unfold executeAssignment. rewrite assignmentInput_first.
  destruct (Expand.isValidVarName (val t0)); reflexivity.
Qed.

Lemma glued_words ts :
  Forall (fun t => isType tokenWord t = true) ts -> glued ts = map val ts.
Proof.
  induction 1 as [|t ts Ht Hts IH]; [reflexivity|]. cbn [glued map]. rewrite IH.
  destruct Hts as [|t' ts Ht' _]; [reflexivity|]. cbn [head map]. rewrite Ht, Ht'.
  reflexivity.
Qed.

Local Abbreviation parseInto := (Parse.parseInto shellWords regexpCompile sh readFile Abs Dir).
Local Abbreviation call := (Parse.call shellWords regexpCompile sh readFile Abs).
Local Abbreviation parseTokens := (Parse.parseTokens shellWords regexpCompile sh readFile Abs).

Section KeepsRules.

Variable rec : gostring -> ruleSet -> gostring -> result ruleSet.
Hypothesis rec_keeps : forall input rs path rs',
  rec input rs path = Ok rs' -> Rules.rules rs `prefix_of` Rules.rules rs'.

Lemma parseTopLevel_keeps p t st p' :
  parseTopLevel p t = Ok (st, p') -> rules p' = rules p.
Proof.
  unfold parseTopLevel, parseAssignmentOrTarget.
  destruct (typ t); intros H; try discriminate; injection H as <- <-; reflexivity.
Qed.

Lemma call_keeps state fuel p t st p' :
  call rec state fuel p t = Ok (st, p') ->
  Rules.rules (rules p) `prefix_of` Rules.rules (rules p').
Proof.
  destruct state; cbn [Parse.call].
  - intros H. rewrite (parseTopLevel_keeps _ _ _ _ H). reflexivity.
  - unfold parsePipeInclude. destruct (typ t); try discriminate;
      try (intros H; injection H as <- <-; reflexivity).
    destruct (length (tokenBuf p) =? 0); [discriminate|].
    destruct (pipeArgs _ _ _ _) as [args| | | |]; cbn [bind]; try discriminate.
    destruct (sh _) as [output success]. destruct (negb success); [discriminate|].
    destruct (rec output (rules p) (path p)) as [rs| | | |] eqn:E; cbn [bind];
      try discriminate.
    intros H; injection H as <- <-. cbn. apply (rec_keeps _ _ _ _ E).
  - unfold parseRedirInclude. destruct (typ t); try discriminate;
      try (intros H; injection H as <- <-; reflexivity).
    destruct (Expand.expand _ _ _ _ _) as [expanded| | | |]; cbn [bind]; try discriminate.
    destruct (readFile _) as [input|]; [|destruct (tokenBuf p); discriminate].
    destruct (Abs _) as [path'|]; [|discriminate].
    destruct (rec input (rules p) path') as [rs| | | |] eqn:E; cbn [bind]; try discriminate.
    intros H; injection H as <- <-. cbn. apply (rec_keeps _ _ _ _ E).
  - unfold parseEqualsOrTarget. destruct (typ t); try discriminate;
      intros H; injection H as <- <-; reflexivity.
  - unfold parseAssignment. destruct (typ t);
      try (intros H; injection H as <- <-; reflexivity).
    destruct (executeAssignment _ _ _ _) as [[rs err]| | | |] eqn:E; cbn [bind];
      try discriminate.
    destruct err; [discriminate|]. intros H; injection H as <- <-. cbn.
    unfold executeAssignment in E. destruct (tokenBuf p) as [|t0 later]; [discriminate|].
    destruct (negb _); [discriminate|].
    destruct (expandAll _ _ _ _ _ _); cbn [bind] in E; try discriminate.
    injection E as <-. reflexivity.
  - unfold parseTargets. destruct (typ t); try discriminate;
      intros H; injection H as <- <-; reflexivity.
  - unfold parseAttributesOrPrereqs. destruct (typ t); try discriminate;
      intros H; injection H as <- <-; reflexivity.
  - unfold parsePrereqs. destruct (typ t); try discriminate;
      intros H; injection H as <- <-; reflexivity.
  - unfold parseRecipe. destruct (assembleRule _ _ _ _ _) as [r| | | |]; cbn [bind];
      try discriminate.
    destruct (negb (isType tokenRecipe t)).
    + intros H. rewrite (parseTopLevel_keeps _ _ _ _ H). cbn.
      apply prefix_app_r. reflexivity.
    + intros H; injection H as <- <-. cbn. apply prefix_app_r. reflexivity.
Qed.

Lemma parseTokens_keeps fuel tokens : forall state p st p',
  parseTokens rec fuel state p tokens = Ok (st, p') ->
  Rules.rules (rules p) `prefix_of` Rules.rules (rules p').
Proof.
  induction tokens as [|t tokens IH]; intros state p st p' H; cbn [Parse.parseTokens] in H.
  - injection H as <- <-. reflexivity.
  - destruct (isType tokenError t); [discriminate|].
    destruct (call rec state fuel p t) as [[st1 p1]| | | |] eqn:E; cbn [bind] in H;
      try discriminate.
    etransitivity; [exact (call_keeps _ _ _ _ _ _ E)|exact (IH _ _ _ _ H)].
Qed.

End KeepsRules.

(** X27: when [parseInto] returns, the rules that were in the rule set are still
    there, at their indexes, and [mkfiledir] is bound to what it was bound
    to before, or to no word if it was not bound: an assignment to it in
    the file is lost. *)
Theorem parseInto_keeps_rules (fuel : nat) : forall input rs path rs',
  parseInto fuel input rs path = Ok rs' ->
  Rules.rules rs `prefix_of` Rules.rules rs' /\
  vars rs' !! str "mkfiledir" = Some (default [] (vars rs !! str "mkfiledir")).
Proof.
  induction fuel as [|fuel IH]; intros input rs path rs' H; [discriminate|].
  cbn [Parse.parseInto] in H.
  destruct (Lex.run fuel _) as [l| | | |]; cbn [bind] in H; try discriminate.
  destruct (parseTokens _ _ _ _ _) as [[st p]| | | |] eqn:E1; cbn [bind] in H;
    try discriminate.
  destruct (call _ st fuel p _) as [[st2 p2]| | | |] eqn:E2; cbn [bind] in H;
    try discriminate.
  injection H as <-. split.
  - apply parseTokens_keeps in E1; [|intros; eapply IH; eassumption].
    apply call_keeps in E2; [|intros; eapply IH; eassumption].
    cbn in *. etransitivity; eassumption.
  - cbn. apply lookup_insert_eq.
Qed.

End ParserStates.

(* ===================================================================== *)
(** * The parser on the tokens of a line *)
(* ===================================================================== *)

Section ParseLines.
Import GoStr Token Rules Lex Parse.
Local Open Scope char_scope.
Local Open Scope nat_scope.

Variable shellWords : gostring -> list gostring.
Variable regexpCompile : gostring -> option Regexp.regexp.
Variable sh : list gostring -> gostring * bool.
Variable readFile : gostring -> option gostring.
Variable Abs : gostring -> option gostring.
Variable Dir : gostring -> gostring.

Local Abbreviation parseInto := (Parse.parseInto shellWords regexpCompile sh readFile Abs Dir).
Local Abbreviation call := (Parse.call shellWords regexpCompile sh readFile Abs).
Local Abbreviation parseTokens := (Parse.parseTokens shellWords regexpCompile sh readFile Abs).

Lemma expand_plain fuel (s : gostring) vars backticks :
  s <> [] -> plainWord s ->
  Expand.expand shellWords (S (S fuel)) s vars backticks = Ok [s].
Proof.
  intros Hne Hs. cbn [Expand.expand].
  rewrite (expand_loop_plain_rest shellWords _ fuel [] s vars backticks [] [] Hs).
  cbn [app]. unfold Expand.finishParts. destruct s; [congruence|reflexivity].
Qed.

Lemma expandAll_plain fuel (ws : list gostring) vars backticks : forall acc,
  Forall (fun w => w <> [] /\ plainWord w) ws ->
  expandAll shellWords (S (S fuel)) ws vars backticks acc = Ok (acc ++ ws).
Proof.
  induction ws as [|w ws IH]; intros acc H; cbn [expandAll].
  - rewrite app_nil_r. reflexivity.
  - inversion H as [|? ? [Hne Hw] Hws]; subst. rewrite expand_plain by assumption.
    cbn [bind]. rewrite IH by exact Hws. rewrite <- app_assoc. reflexivity.
Qed.

Lemma expandRecipeSigils_plain (s : gostring) vars :
  Forall (fun x => recipePlain x = true) s -> Expand.expandRecipeSigils s vars = Ok s.
Proof.
  intros Hs. unfold Expand.expandRecipeSigils. rewrite expandRecipeSigils_loop_unfold.
  destruct s as [|x s]; [reflexivity|].
  replace (0 <? length (x :: s)) with true by reflexivity.
  rewrite sliceFrom_ok by lia. rewrite drop_0. cbn [bind].
  rewrite IndexAny_none by (apply recipePlain_mem; assumption). reflexivity.
Qed.

Lemma wordTokens_inv ts ws :
  map tokenText ts = map (fun w => (tokenWord, w)) ws -> wordTokens ts ws.
Proof.
  revert ws. induction ts as [|t ts IH]; intros [|w ws] H; try discriminate.
  - split; [constructor|reflexivity].
  - cbn [map] in H. injection H as Ht Hv Hm. destruct (IH _ Hm) as [H1 H2].
    split; [constructor; assumption|]. cbn [map]. rewrite Hv, H2. reflexivity.
Qed.

Section Steps.

Variable rec : gostring -> ruleSet -> gostring -> result ruleSet.

Lemma parseTokens_app fuel ts1 : forall state p ts2,
  parseTokens rec fuel state p (ts1 ++ ts2) =
  let* '(state, p) := parseTokens rec fuel state p ts1 in
  parseTokens rec fuel state p ts2.
Proof.
  induction ts1 as [|t ts1 IH]; intros state p ts2; [reflexivity|].
  cbn [app Parse.parseTokens]. destruct (isType tokenError t); [reflexivity|].
  destruct (call rec state fuel p t) as [[st1 p1]| | | |]; cbn [bind]; try reflexivity.
  apply IH.
Qed.

(** In a state that gathers words, the words are pushed. *)
Lemma parseTokens_words fuel state :
  (forall p t, typ t = tokenWord -> call rec state fuel p t = Ok (state, push t p)) ->
  forall ts p, Forall (fun t => typ t = tokenWord) ts ->
    parseTokens rec fuel state p ts = Ok (state, pushAll ts p).
Proof.
  intros Hstate. induction ts as [|t ts IH]; intros p H; cbn [Parse.parseTokens].
  - unfold pushAll. rewrite app_nil_r. destruct p; reflexivity.
  - inversion H as [|? ? Ht Hts]; subst. unfold isType. rewrite Ht.
    replace (bool_decide (tokenWord = tokenError)) with false by reflexivity.
    rewrite Hstate by exact Ht. cbn [bind]. rewrite IH by exact Hts.
    unfold pushAll, push. cbn. rewrite <- app_assoc. reflexivity.
Qed.

Lemma parseTokens_one fuel state p t :
  typ t <> tokenError ->
  parseTokens rec fuel state p [t] = call rec state fuel p t.
Proof.
  intros Ht. cbn [Parse.parseTokens]. unfold isType.
  rewrite bool_decide_eq_false_2 by exact Ht.
  destruct (call rec state fuel p t) as [[st1 p1]| | | |]; reflexivity.
Qed.

End Steps.

Lemma lex_run_inv fuel text tokens :
  lex fuel text = Ok tokens ->
  exists l, run fuel (newLexer text false) = Ok l /\ output l = tokens.
Proof.
  unfold lex. destruct (run fuel (newLexer text false)) as [l| | | |]; cbn [bind];
    try discriminate.
  intros H. injection H as <-. exists l. split; reflexivity.
Qed.

Lemma isValidVarName_bareWord name :
  name <> [] -> Expand.isValidVarName name = true -> bareWord name /\ plainWord name.
Proof.
  intros Hne Hv. apply isValidVarName_from_nameByte in Hv.
  assert (Hn : forall c, nameByte c = true ->
             mem c nonBareRunes = false /\ mem c [ascii_of_nat 0; "<"; "`"] = false /\
             plain c = true).
  { intros c Hc. unfold nameByte in Hc.
    assert (forall x, nameByte x = false -> c <> x) as Hx
      by (intros x Hx E; subst; unfold nameByte in Hx; congruence).
    repeat split.
    - unfold nonBareRunes. cbn. repeat (apply orb_false_iff; split);
        try reflexivity; apply Ascii.eqb_neq, Hx; reflexivity.
    - cbn. repeat (apply orb_false_iff; split);
        try reflexivity; apply Ascii.eqb_neq, Hx; reflexivity.
    - unfold plain. apply negb_true_iff. cbn. repeat (apply orb_false_iff; split);
        try reflexivity; apply Ascii.eqb_neq, Hx; reflexivity. }
  split; [split|].
  - destruct name as [|c name]; [congruence|]. inversion Hv; subst. apply Hn. assumption.
  - eapply Forall_impl; [exact Hv|]. intros c Hc. apply Hn. exact Hc.
  - eapply Forall_impl; [exact Hv|]. intros c Hc. apply Hn. exact Hc.
Qed.

End ParseLines.

(* ===================================================================== *)
(** * A mkfile of one statement *)
(* ===================================================================== *)

Section ParseMkfile.
Import GoStr Token Rules Lex Parse.
Local Open Scope char_scope.
Local Open Scope nat_scope.

Variable shellWords : gostring -> list gostring.
Variable regexpCompile : gostring -> option Regexp.regexp.
Variable sh : list gostring -> gostring * bool.
Variable readFile : gostring -> option gostring.
Variable Abs : gostring -> option gostring.
Variable Dir : gostring -> gostring.

Local Abbreviation parseInto := (Parse.parseInto shellWords regexpCompile sh readFile Abs Dir).
Local Abbreviation call := (Parse.call shellWords regexpCompile sh readFile Abs).
Local Abbreviation parseTokens := (Parse.parseTokens shellWords regexpCompile sh readFile Abs).
Local Abbreviation parse := (Parse.parse shellWords regexpCompile sh readFile Abs Dir).

Lemma itemToken_wordItems ws :
  map itemToken (map snd (wordItems ws)) = map (fun w => (tokenWord, w)) (map snd ws).
Proof. unfold wordItems. rewrite !map_map. reflexivity. Qed.

Lemma spaced_wordItems prev ws :
  spaced prev (wordItems ws) -> Forall (fun v => v.2 <> []) ws.
Proof.
  revert prev. induction ws as [|[s w] ws IH]; intros prev H; [constructor|].
  cbn [wordItems map spaced fst snd] in H. destruct H as (_ & [Hh _] & _ & H).
  constructor; [destruct w; [contradiction|discriminate]|]. exact (IH _ H).
Qed.

Lemma plain_nonempty (ws : list (gostring * gostring)) :
  Forall (fun v => v.2 <> []) ws -> Forall (fun v => plainWord v.2) ws ->
  Forall (fun w => w <> [] /\ plainWord w) (map snd ws).
Proof.
  intros H1 H2. apply Forall_map. rewrite Forall_forall in *.
  intros v Hv. split; [apply H1|apply H2]; exact Hv.
Qed.

(** X28: a mkfile that is one assignment [name = words] of plain words ended by
    a newline: [parse] returns a rule set without rules in which the name is
    bound to the words, in order. *)
Theorem parse_assignment (name sep0 : gostring) (values : list (gostring * gostring))
    (trail path : gostring) (env : gmap gostring (list gostring)) (fuel : nat) :
  let its := ([], Word name) :: (sep0, Assign) :: wordItems values in
  Expand.isValidVarName name = true -> spaced false its ->
  Forall (fun v => plainWord v.2) values -> blanks trail ->
  2 * length its + 2 < fuel ->
  parse fuel (lineText its ++ trail ++ [newline]) path env =
  Ok {| vars := afterParse (default [] (env !! str "mkfiledir"))
                  (<[name := map snd values]> (<[str "mkfiledir" := [Dir path]]> env));
        Rules.rules := []; targetRules := ∅ |}.
Proof.
  intros its Hname Hsp Hplain Htrail Hf.
  destruct fuel as [|fuel]; [lia|]. unfold Parse.parse. cbn [Parse.parseInto].
  destruct (lex_line its trail fuel) as (tokens & Hlex & Htoks);
    [discriminate|reflexivity|exact Hsp|exact Htrail|lia|].
  destruct (lex_run_inv _ _ _ Hlex) as (l & -> & Hout). cbn [bind]. rewrite Hout.
  subst its. cbn [map snd itemToken] in Htoks. rewrite itemToken_wordItems in Htoks.
  destruct tokens as [|t1 [|t2 rest]]; try discriminate.
  cbn [map app] in Htoks. injection Htoks as Ht1 Hv1 Ht2 Hv2 Hrest.
  apply map_eq_app in Hrest as (wts & tl & -> & Hwts & Htl).
  destruct tl as [|tn [|? ?]]; try discriminate. cbn [map] in Htl.
  injection Htl as Htn Hvn.
  apply wordTokens_inv in Hwts as [Hwty Hwval].
  cbn [Parse.parseTokens]. unfold isType at 1. rewrite Ht1.
  replace (bool_decide (tokenWord = tokenError)) with false by reflexivity.
  cbn [Parse.call]. unfold parseTopLevel. rewrite Ht1.
  unfold parseAssignmentOrTarget. cbn [bind].
  unfold isType at 1. rewrite Ht2.
  replace (bool_decide (tokenAssign = tokenError)) with false by reflexivity.
  cbn [Parse.call]. unfold parseEqualsOrTarget. rewrite Ht2. cbn [bind].
  rewrite parseTokens_app.
  rewrite (parseTokens_words shellWords regexpCompile sh readFile Abs _ fuel
             fun_parseAssignment) by
    (try exact Hwty; intros p t Ht; cbn [Parse.call]; unfold parseAssignment; rewrite Ht;
     reflexivity).
  cbn [bind]. rewrite parseTokens_one by (rewrite Htn; discriminate).
  cbn [Parse.call]. unfold parseAssignment. rewrite Htn.
  unfold pushAll, push. cbn [Parse.tokenBuf Parse.rules Parse.path app].
  unfold executeAssignment. rewrite Hv1, Hname. cbn [negb].
  rewrite assignmentInput_first, glued_words
    by (eapply Forall_impl; [exact Hwty|]; intros t Ht; unfold isType; rewrite Ht;
        reflexivity).
  rewrite Hwval.
  destruct fuel as [|[|fuel]]; [cbn in Hf; lia|cbn in Hf; lia|].
  cbn [spaced] in Hsp. destruct Hsp as (_ & _ & _ & _ & _ & _ & Hsp).
  rewrite expandAll_plain
    by (apply plain_nonempty; [eapply spaced_wordItems; exact Hsp|exact Hplain]).
  cbn [bind app]. unfold parseTopLevel. cbn [typ bind]. reflexivity.
Qed.

Lemma skipToColon_words tts : forall c rest i,
  Forall (fun t => typ t = tokenWord) tts -> typ c = tokenColon ->
  skipToColon (tts ++ c :: rest) i = i + length tts.
Proof.
  induction tts as [|t tts IH]; intros c rest i H Hc; cbn [app skipToColon length].
  - unfold isType. rewrite Hc. replace (bool_decide (tokenColon = tokenColon)) with true
      by reflexivity. lia.
  - inversion H as [|? ? Ht Hts]; subst. unfold isType. rewrite Ht.
    replace (bool_decide (tokenWord = tokenColon)) with false by reflexivity.
    rewrite IH by assumption. lia.
Qed.

Lemma skipToColon_none pts : forall i,
  Forall (fun t => typ t = tokenWord) pts -> skipToColon pts i = i + length pts.
Proof.
  induction pts as [|t pts IH]; intros i H; cbn [skipToColon length]; [lia|].
  inversion H as [|? ? Ht Hts]; subst. unfold isType. rewrite Ht.
  replace (bool_decide (tokenWord = tokenColon)) with false by reflexivity.
  rewrite IH by assumption. lia.
Qed.

Lemma recipeTargets_literal fuel vars tts : forall acc,
  Forall (fun t => val t <> [] /\ plainWord (val t) /\ IndexRune (val t) "%" = None) tts ->
  recipeTargets shellWords regexpCompile (S (S fuel)) tts vars false acc false =
  Ok (acc ++ map (fun t => literalTarget (val t)) tts, false).
Proof.
  induction tts as [|t tts IH]; intros acc H; cbn [recipeTargets map].
  - rewrite app_nil_r. reflexivity.
  - inversion H as [|? ? (Hne & Hp & Hi) Hts]; subst.
    rewrite expand_plain by assumption. cbn [bind Rules.parseTargets].
    unfold targetPattern. rewrite Hi. cbn [orb]. rewrite IH by exact Hts.
    rewrite <- app_assoc. reflexivity.
Qed.

(** The rule that [parseRecipe] assembles from plain targets and
    prerequisites around one colon. *)
Lemma assembleRule_plain fuel p t tts c pts recipe :
  tokenBuf p = tts ++ c :: pts ->
  Forall (fun t => typ t = tokenWord) tts -> typ c = tokenColon ->
  Forall (fun t => typ t = tokenWord) pts ->
  Forall (fun t => val t <> [] /\ plainWord (val t) /\ IndexRune (val t) "%" = None) tts ->
  Forall (fun w => w <> [] /\ plainWord w) (map val pts) ->
  (if isType tokenRecipe t then
     let* stripped := Recipe.stripIndentation (val t) (Token.col t) in
     Expand.expandRecipeSigils stripped (vars (rules p))
   else Ok []) = Ok recipe ->
  assembleRule shellWords regexpCompile (S (S fuel)) p t =
  Ok {| targets := map (fun t => literalTarget (val t)) tts; attributes := noAttribs;
        prereqs := map val pts; shell := []; recipe := recipe; command := [];
        isMeta := false; file := []; Rules.line := 0%Z |}.
Proof.
  intros Hbuf Htts Hc Hpts Htv Hpv Hrecipe. unfold assembleRule. rewrite Hbuf.
  rewrite (skipToColon_words tts c pts 0 Htts Hc). cbn [Nat.add].
  replace (drop (length tts + 1) (tts ++ c :: pts)) with pts
    by (rewrite drop_app_add'; [reflexivity|reflexivity]).
  rewrite skipToColon_none by exact Hpts.
  replace (length tts + 1 + length pts <? length (tts ++ c :: pts)) with false
    by (symmetry; apply Nat.ltb_ge; rewrite length_app; cbn [length]; lia).
  cbn [bind]. rewrite take_app_length.
  change (regex (attributes noRule)) with false.
  rewrite recipeTargets_literal by exact Htv. cbn [bind app].
  replace (drop (length tts + 1) (tts ++ c :: pts)) with pts
    by (rewrite drop_app_add'; [reflexivity|reflexivity]).
  rewrite expandAll_plain by exact Hpv. cbn [bind app].
  rewrite Hrecipe. reflexivity.
Qed.

Section Header.

Variable rec : gostring -> ruleSet -> gostring -> result ruleSet.

(** The parser on the tokens of a rule header and its newline: the tokens
    of the header are gathered, and the recipe is expected. *)
Lemma parseTokens_header fuel p tts c pts tn :
  tokenBuf p = [] -> tts <> [] ->
  Forall (fun t => typ t = tokenWord) tts -> typ c = tokenColon ->
  Forall (fun t => typ t = tokenWord) pts -> typ tn = tokenNewline ->
  parseTokens rec fuel fun_parseTopLevel p (tts ++ c :: pts ++ [tn]) =
  Ok (fun_parseRecipe, pushAll (tts ++ c :: pts) p).
Proof.
  intros Hbuf Hne Htts Hc Hpts Htn.
  destruct tts as [|t1 tts]; [congruence|]. inversion Htts as [|? ? Ht1 Htts']; subst.
  assert (Hend : forall q, tokenBuf q = tokenBuf p ++ t1 :: tts ++ [c] -> path q = path p ->
                   rules q = rules p ->
                   parseTokens rec fuel fun_parseAttributesOrPrereqs q (pts ++ [tn]) =
                   Ok (fun_parseRecipe, pushAll ((t1 :: tts) ++ c :: pts) p)).
  { intros q Hq Hqp Hqr. rewrite parseTokens_app.
    rewrite (parseTokens_words shellWords regexpCompile sh readFile Abs _ fuel
               fun_parseAttributesOrPrereqs) by
      (try exact Hpts; intros p' t Ht; cbn [Parse.call]; unfold parseAttributesOrPrereqs;
       rewrite Ht; reflexivity).
    cbn [bind]. rewrite parseTokens_one by (rewrite Htn; discriminate).
    cbn [Parse.call]. unfold parseAttributesOrPrereqs. rewrite Htn.
    unfold pushAll. cbn [Parse.tokenBuf Parse.rules Parse.path]. rewrite Hq, Hqp, Hqr.
    do 3 f_equal. rewrite <- app_assoc. f_equal. cbn [app]. f_equal.
    rewrite <- app_assoc. reflexivity. }
  cbn [app Parse.parseTokens]. unfold isType at 1. rewrite Ht1.
  replace (bool_decide (tokenWord = tokenError)) with false by reflexivity.
  cbn [Parse.call]. unfold parseTopLevel. rewrite Ht1. unfold parseAssignmentOrTarget.
  cbn [bind]. destruct tts as [|t2 tts].
  - cbn [app Parse.parseTokens]. unfold isType at 1. rewrite Hc.
    replace (bool_decide (tokenColon = tokenError)) with false by reflexivity.
    cbn [Parse.call]. unfold parseEqualsOrTarget. rewrite Hc. cbn [bind].
    apply Hend; unfold push; cbn [Parse.tokenBuf Parse.rules Parse.path];
      rewrite <- ?app_assoc; reflexivity.
  - inversion Htts' as [|? ? Ht2 Htts'']; subst.
    cbn [app Parse.parseTokens]. unfold isType at 1. rewrite Ht2.
    replace (bool_decide (tokenWord = tokenError)) with false by reflexivity.
    cbn [Parse.call]. unfold parseEqualsOrTarget. rewrite Ht2. cbn [bind].
    change (tts ++ c :: pts ++ [tn]) with (tts ++ [c] ++ pts ++ [tn]).
    rewrite parseTokens_app.
    rewrite (parseTokens_words shellWords regexpCompile sh readFile Abs _ fuel
               fun_parseTargets) by
      (try exact Htts''; intros p' t Ht; cbn [Parse.call]; unfold Parse.parseTargets;
       rewrite Ht; reflexivity).
    cbn [bind]. rewrite parseTokens_app.
    rewrite parseTokens_one by (rewrite Hc; discriminate).
    cbn [Parse.call]. unfold Parse.parseTargets. rewrite Hc. cbn [bind].
    apply Hend; unfold pushAll, push; cbn [Parse.tokenBuf Parse.rules Parse.path];
      rewrite <- ?app_assoc; reflexivity.
Qed.

End Header.

Lemma spaced_words its : forall prev s w,
  spaced prev its -> In (s, Word w) its -> w <> [].
Proof.
  induction its as [|[s' it] its IH]; intros prev s w H Hin; [contradiction|].
  cbn [spaced] in H. destruct H as (_ & Hit & _ & H). destruct Hin as [E|Hin].
  - injection E as -> ->. destruct Hit as [Hh _]. destruct w; [contradiction|discriminate].
  - exact (IH _ _ _ H Hin).
Qed.

Lemma recipe_head_not_blank x :
  mem x [" "; Expand.tab; cr; newline; "\"] = false -> blank x = false.
Proof.
  intros H. apply mem_cons_false in H as [H1 H]. apply mem_cons_false in H as [H2 H].
  apply mem_cons_false in H as [_ H]. apply mem_cons_false in H as [H4 _].
  unfold blank, mem. cbn [existsb]. rewrite !orb_false_iff.
  repeat split; try reflexivity; apply Ascii.eqb_neq; [exact H1|exact H2|exact H4].
Qed.

Lemma stripIndentation_recipeText n lines :
  Forall recipeLine lines ->
  Recipe.stripIndentation (recipeText lines) n = Ok (unindent n lines).
Proof.
  induction 1 as [|[ind body] lines (Hind & _ & Hh & Hb) _ IH]; cbn [recipeText unindent].
  - apply (stripIndentation_last [] n). constructor.
  - cbn [fst snd] in *. change Lex.newline with Recipe.newline in *.
    rewrite app_assoc, stripIndentation_line.
    2:{ apply Forall_app. split.
        - eapply Forall_impl; [exact Hind|]. intros c Hc E. subst. discriminate.
        - eapply Forall_impl; [exact Hb|]. intros c Hc E. subst. discriminate. }
    rewrite IH. cbn [bind]. rewrite <- app_assoc.
    rewrite stripLine_indent; [rewrite Nat.sub_0_r, <- !app_assoc; reflexivity|exact Hind|].
    destruct body as [|x body]; [contradiction|]. cbn [app].
    apply recipe_head_not_blank. exact Hh.
Qed.

Lemma stripIndentation_recipe ind body n lines :
  Forall recipeLine ((ind, body) :: lines) ->
  Recipe.stripIndentation (body ++ newline :: recipeText lines) n =
  Ok (body ++ newline :: unindent n lines).
Proof.
  intros H. inversion H as [|? ? (_ & _ & Hh & Hb) Hl]; subst. cbn [fst snd] in *.
  change Lex.newline with Recipe.newline in *.
  rewrite stripIndentation_line
    by (eapply Forall_impl; [exact Hb|]; intros c Hc E; subst; discriminate).
  change Recipe.newline with Lex.newline in *.
  rewrite stripIndentation_recipeText by exact Hl. cbn [bind].
  change Lex.newline with Recipe.newline in *.
  pose proof (stripLine_indent [] (body ++ [Recipe.newline]) 0 n) as Hs.
  rewrite drop_nil in Hs. cbn [app] in Hs. rewrite Hs; [|constructor|].
  - rewrite <- app_assoc. reflexivity.
  - destruct body as [|x body]; [contradiction|]. cbn [app].
    apply recipe_head_not_blank. exact Hh.
Qed.

Lemma recipePlain_unindent n lines :
  Forall (fun x => recipePlain x = true) (recipeText lines) ->
  Forall (fun x => recipePlain x = true) (unindent n lines).
Proof.
  induction lines as [|[ind body] lines IH]; intros H; cbn [recipeText unindent] in *;
    [constructor|].
  apply Forall_app in H as [H1 H]. apply Forall_app in H as [H2 H].
  inversion H as [|? ? H3 H4]; subst.
  apply Forall_app. split; [apply Forall_drop; exact H1|].
  apply Forall_app. split; [exact H2|]. constructor; [exact H3|]. apply IH. exact H4.
Qed.

Lemma rule_tokens (targets prereqs : list (gostring * gostring)) (sepc : gostring)
    (hdr : list token) :
  map tokenText hdr =
    map itemToken (map snd (wordItems targets ++ (sepc, Colon) :: wordItems prereqs)) ->
  exists tts c pts,
    hdr = tts ++ c :: pts /\ wordTokens tts (map snd targets) /\ typ c = tokenColon /\
    wordTokens pts (map snd prereqs).
Proof.
  rewrite map_app, map_app. cbn [map snd itemToken]. rewrite !itemToken_wordItems.
  intros H. apply map_eq_app in H as (tts & rest & -> & Htts & Hrest).
  destruct rest as [|c pts]; [discriminate|]. cbn [map] in Hrest.
  injection Hrest as Hc _ Hpts.
  exists tts, c, pts. split; [reflexivity|]. split; [apply wordTokens_inv; exact Htts|].
  split; [exact Hc|apply wordTokens_inv; exact Hpts].
Qed.

Lemma Forall_val (P : gostring -> Prop) ts (ws : list (gostring * gostring)) :
  map val ts = map snd ws -> Forall (fun v => P v.2) ws -> Forall (fun t => P (val t)) ts.
Proof.
  intros Hm H. apply Forall_map. rewrite Hm. apply Forall_map. exact H.
Qed.

(** X29: a mkfile that is one rule with plain targets and prerequisites around
    one colon, with a recipe of plain lines or without one: [parse] returns
    the rule set with this one rule added; its targets are literal patterns,
    and its recipe is the text from the end of the first indentation on,
    each later line without as many leading blanks as the first indentation
    has. *)
Theorem parse_rule (targets prereqs : list (gostring * gostring)) (sepc trail path : gostring)
    (lines : list (gostring * gostring)) (env : gmap gostring (list gostring))
    (fuel : nat) :
  let its := wordItems targets ++ (sepc, Colon) :: wordItems prereqs in
  targets <> [] -> headSep its = [] -> spaced false its ->
  Forall (fun v => plainWord v.2) targets -> Forall (fun v => plainWord v.2) prereqs ->
  Forall (fun v => IndexRune v.2 "%" = None) targets ->
  blanks trail -> Forall recipeLine lines ->
  Forall (fun x => recipePlain x = true) (recipeText lines) ->
  2 * length its + length lines + 5 < fuel ->
  parse fuel (lineText its ++ trail ++ newline :: recipeText lines) path env =
  Ok (add (emptyRuleSet (afterParse (default [] (env !! str "mkfiledir")) env))
        {| targets := map (fun v => literalTarget v.2) targets; attributes := noAttribs;
           prereqs := map snd prereqs; shell := []; recipe := recipeOf lines;
           command := []; isMeta := false; file := []; Rules.line := 0%Z |}).
Proof.
  intros its Hne Hh Hsp Hpt Hpp Hpc Htrail Hlines Hplain Hf.
  assert (Hits : its <> []) by (subst its; destruct targets; [congruence|discriminate]).
  assert (Htne : Forall (fun v => v.2 <> []) targets).
  { apply Forall_forall. intros [s w] Hin. apply list_elem_of_In in Hin.
    apply (spaced_words its false s w Hsp).
    subst its. apply in_or_app. left. unfold wordItems.
    apply (in_map (fun v => (v.1, Word v.2)) _ _ Hin). }
  assert (Hpne : Forall (fun v => v.2 <> []) prereqs).
  { apply Forall_forall. intros [s w] Hin. apply list_elem_of_In in Hin.
    apply (spaced_words its false s w Hsp).
    subst its. apply in_or_app. right. right. unfold wordItems.
    apply (in_map (fun v => (v.1, Word v.2)) _ _ Hin). }
  destruct fuel as [|fuel]; [lia|]. unfold Parse.parse. cbn [Parse.parseInto].
  destruct fuel as [|[|fuel]]; [cbn in Hf; lia|cbn in Hf; lia|].
  set (f := S (S fuel)) in *.
  assert (Hfinal : forall l (hdr : list token) tn (more : list token) recipe,
            run f (newLexer (lineText its ++ trail ++ newline :: recipeText lines) false)
              = Ok l ->
            output l = hdr ++ tn :: more ->
            map tokenText hdr = map itemToken (map snd its) ->
            typ tn = tokenNewline ->
            recipe = recipeOf lines ->
            (more = [] /\ lines = [] \/
             exists rt, more = [rt] /\ typ rt = tokenRecipe /\
               forall vars,
                 (let* stripped := Recipe.stripIndentation (val rt) (Token.col rt) in
                  Expand.expandRecipeSigils stripped vars) = Ok recipe) ->
            parseInto (S f) (lineText its ++ trail ++ newline :: recipeText lines)
              (emptyRuleSet env) path =
            Ok (add (emptyRuleSet (afterParse (default [] (env !! str "mkfiledir")) env))
                  {| targets := map (fun v => literalTarget v.2) targets;
                     attributes := noAttribs; prereqs := map snd prereqs; shell := [];
                     recipe := recipe; command := []; isMeta := false; file := [];
                     Rules.line := 0%Z |})).
  { intros l hdr tn more recipe Hrun Hout Hhdr Htn Hrecipe Hmore.
    cbn [Parse.parseInto]. rewrite Hrun. cbn [bind]. rewrite Hout.
    subst its. destruct (rule_tokens _ _ _ _ Hhdr) as (tts & c & pts & -> & [Ht1 Ht2] & Hc &
                                                        [Hp1 Hp2]).
    assert (Htts : tts <> []).
    { intros ->. destruct targets; [congruence|discriminate]. }
    set (p0 := {| path := path; tokenBuf := [];
                  rules := setVars (<[str "mkfiledir" := [Dir path]]> (vars (emptyRuleSet env)))
                             (emptyRuleSet env) |}).
    assert (Hasm : forall t rcp,
              (if isType tokenRecipe t then
                 let* stripped := Recipe.stripIndentation (val t) (Token.col t) in
                 Expand.expandRecipeSigils stripped (vars (rules p0))
               else Ok []) = Ok rcp ->
              assembleRule shellWords regexpCompile f (pushAll (tts ++ c :: pts) p0) t =
              Ok {| targets := map (fun v => literalTarget v.2) targets;
                    attributes := noAttribs; prereqs := map snd prereqs; shell := [];
                    recipe := rcp; command := []; isMeta := false; file := [];
                    Rules.line := 0%Z |}).
    { intros t rcp Hr. unfold f.
      rewrite (assembleRule_plain fuel _ t tts c pts rcp); try assumption.
      - rewrite Hp2. do 2 f_equal. rewrite <- (map_map val literalTarget), Ht2, map_map.
        reflexivity.
      - reflexivity.
      - apply Forall_forall. intros t' Hin.
        pose proof (Forall_val (fun w => w <> []) tts targets Ht2 Htne) as A1.
        pose proof (Forall_val plainWord tts targets Ht2 Hpt) as A2.
        pose proof (Forall_val (fun w => IndexRune w "%" = None) tts targets Ht2 Hpc) as A3.
        rewrite Forall_forall in A1, A2, A3. auto.
      - rewrite Hp2. apply plain_nonempty; assumption. }
    replace ((tts ++ c :: pts) ++ tn :: more) with ((tts ++ c :: pts ++ [tn]) ++ more)
      by (rewrite <- !app_assoc; cbn [app]; rewrite <- app_assoc; reflexivity).
    rewrite parseTokens_app.
    rewrite (parseTokens_header _ f p0 tts c pts tn eq_refl Htts Ht1 Hc Hp1 Htn).
    cbn [bind]. destruct Hmore as [[-> ->]|(rt & -> & Hrt & Hval)].
    - cbn [Parse.parseTokens bind Parse.call]. unfold parseRecipe.
      rewrite (Hasm _ []) by reflexivity. cbn [bind]. subst recipe.
      unfold isType. cbn [typ].
      replace (bool_decide (tokenNewline = tokenRecipe)) with false by reflexivity.
      cbn [negb]. unfold parseTopLevel. cbn [typ bind].
      subst p0. unfold setVars, add, emptyRuleSet, afterParse, clear, setRules, pushAll.
      cbn [Parse.path Parse.tokenBuf Parse.rules vars Rules.rules targetRules recipeOf].
      rewrite insert_insert_eq. reflexivity.
    - rewrite parseTokens_one by (rewrite Hrt; discriminate).
      cbn [Parse.call]. unfold parseRecipe.
      rewrite (Hasm rt recipe)
        by (unfold isType; rewrite Hrt;
            replace (bool_decide (tokenRecipe = tokenRecipe)) with true by reflexivity;
            apply Hval).
      cbn [bind]. unfold isType. rewrite Hrt.
      replace (bool_decide (tokenRecipe = tokenRecipe)) with true by reflexivity.
      cbn [negb bind Parse.call]. unfold parseTopLevel. cbn [typ bind].
      subst p0. unfold setVars, add, emptyRuleSet, afterParse, clear, setRules, pushAll.
      cbn [Parse.path Parse.tokenBuf Parse.rules vars Rules.rules targetRules recipeOf].
      rewrite insert_insert_eq. reflexivity. }
  destruct lines as [|[ind body] more].
  - cbn [recipeText] in *.
    destruct (lex_line its trail f) as (tokens & Hlex & Htoks);
      [exact Hits|exact Hh|exact Hsp|exact Htrail|cbn [length] in Hf; unfold f; lia|].
    destruct (lex_run_inv _ _ _ Hlex) as (l & Hrun & Hout).
    apply map_eq_app in Htoks as (hdr & tl & -> & Hhdr & Htl).
    destruct tl as [|tn [|? ?]]; try discriminate. cbn [map] in Htl. injection Htl as Htn _.
    apply (Hfinal l hdr tn [] _ Hrun Hout Hhdr Htn eq_refl). left. split; reflexivity.
  - destruct (lex_rule_recipe its trail ind body more f) as (tokens & Hlex & Htoks & Hcol);
      [exact Hits|exact Hh|exact Hsp|exact Htrail|exact Hlines|
       cbn [length] in Hf; unfold f; lia|].
    destruct (lex_run_inv _ _ _ Hlex) as (l & Hrun & Hout).
    apply map_eq_app in Htoks as (hdr & tl & -> & Hhdr & Htl).
    destruct tl as [|tn [|rt [|? ?]]]; try discriminate. cbn [map] in Htl.
    injection Htl as Htn _ Hrt Hrv.
    apply (Hfinal l hdr tn [rt] _ Hrun Hout Hhdr Htn eq_refl). right.
    exists rt. split; [reflexivity|]. split; [exact Hrt|]. intros vars.
    assert (Hlast : last (hdr ++ [tn; rt]) = Some rt).
    { change (hdr ++ [tn; rt]) with (hdr ++ [tn] ++ [rt]). rewrite app_assoc.
      apply last_snoc. }
    rewrite Hrv, (Hcol rt Hlast).
    rewrite (stripIndentation_recipe ind) by exact Hlines.
    cbn [bind recipeOf]. apply expandRecipeSigils_plain.
    cbn [recipeText] in Hplain. apply Forall_app in Hplain as [_ Hplain].
    apply Forall_app in Hplain as [Hb Hplain]. inversion Hplain as [|? ? Hn Hm]; subst.
    apply Forall_app. split; [exact Hb|]. constructor; [exact Hn|].
    apply recipePlain_unindent. exact Hm.
Qed.

End ParseMkfile.

(* ===================================================================== *)
(** * A last line without its newline *)
(* ===================================================================== *)

Section MissingNewline.
Import GoStr Token Rules Lex Parse.
Local Open Scope char_scope.
Local Open Scope nat_scope.

Variable shellWords : gostring -> list gostring.
Variable regexpCompile : gostring -> option Regexp.regexp.
Variable sh : list gostring -> gostring * bool.
Variable readFile : gostring -> option gostring.
Variable Abs : gostring -> option gostring.
Variable Dir : gostring -> gostring.

Lemma lexError_reading what l pre cur r ic toks :
  reading l pre cur r ic toks ->
  exists l', lexError what l = Ok l' /\
             reading l' (pre ++ cur) [] r ic (toks ++ [(tokenError, cur)]).
Proof.
  intros H. unfold lexError. apply emit_reading.
  destruct (eqb (errMsg l) []); exact H.
Qed.

(** [lexBareWord] on a word that the input ends with: the word is sent as
    an error. *)
Lemma lexBareWord_eof l pre w ic toks :
  reading l pre [] w ic toks -> bareWord w ->
  exists l', lexBareWord l = Ok (Some fun_lexTopLevel, l') /\
             reading l' (pre ++ w) [] [] (afterText w ic) (toks ++ [(tokenError, w)]).
Proof.
  intros H [Hh Hw]. unfold lexBareWord, acceptUntil.
  rewrite <- (app_nil_r w) in H.
  destruct (acceptUntilOrEof_run nonBareRunes w l pre [] [] ic toks eq_refl H Hw eq_refl)
    as (l1 & -> & H1).
  cbn [bind]. rewrite app_nil_l in H1. rewrite (peek_reading_end _ _ _ _ _ H1).
  replace (runeEq eof eof) with true by reflexivity.
  destruct (lexError_reading (eofWhileLooking nonBareRunes) _ _ _ _ _ _ H1)
    as (l2 & -> & H2).
  cbn [bind]. rewrite (peek_reading_end _ _ _ _ _ H2). cbn [runeIs eof].
  replace (start l2 <? pos l2) with false.
  2:{ destruct H2 as (_ & -> & -> & _). symmetry. apply Nat.ltb_ge. cbn [length]. lia. }
  exists l2. split; [reflexivity|exact H2].
Qed.

Lemma spaced_app its : forall prev sep it,
  spaced prev (its ++ [(sep, it)]) -> spaced prev its /\ blanks sep /\ okItem it.
Proof.
  induction its as [|[sep0 it0] its IH]; intros prev sep it H.
  - cbn [app spaced] in H. destruct H as (H1 & H2 & _). split; [exact I|auto].
  - cbn [app spaced] in H. destruct H as (H1 & H2 & H3 & H).
    destruct (IH _ _ _ H) as (Hits & Hb & Hok). split; [cbn [spaced]; auto|auto].
Qed.

(** A first line that a bare word ends, and no newline: the lexer sends the
    word as an error. *)
Lemma lex_missing_newline its sep w fuel :
  its <> [] -> headSep its = [] -> spaced false (its ++ [(sep, Word w)]) -> sep <> [] ->
  2 * length its + 4 <= fuel ->
  exists tokens,
    lex fuel (lineText its ++ sep ++ w) = Ok tokens /\
    map tokenText tokens = map itemToken (map snd its) ++ [(tokenError, w)].
Proof.
  intros Hne Hh Hsp Hsep Hf.
  apply spaced_app in Hsp as (Hits & Hblank & Hw). cbn [okItem] in Hw.
  destruct (run_from_items its 4 (newLexer (lineText its ++ sep ++ w) false) []
              (sep ++ w) (true, 0) [] false (reading_newLexer _) Hits)
    as (l & ic & E & H & Hic & _).
  { intros _. split; [reflexivity|exact Hh]. }
  { destruct sep as [|c sep]; [congruence|]. inversion Hblank as [|? ? Hc _]; subst.
    cbn [app endsWord]. cbn in Hc |- *.
    apply orb_true_iff in Hc as [Hc|Hc]; [rewrite Hc; reflexivity|].
    apply orb_true_iff in Hc as [Hc|Hc]; [rewrite Hc; apply orb_true_r|discriminate]. }
  cbn [app] in H.
  assert (H' : reading l (lineText its) [] (sep ++ itemText (Word w) ++ []) ic
                 (map itemToken (map snd its)))
    by (cbn [itemText]; rewrite app_nil_r; exact H).
  destruct (lexTopLevel_item 2 l _ sep (Word w) [] ic _ H' Hblank Hw) as (l1 & E1 & H1).
  { intros Ht. rewrite (Hic Hne) in Ht. discriminate. }
  cbn [itemText] in H1. rewrite app_nil_r in H1.
  destruct (lexBareWord_eof l1 _ w _ _ H1 Hw) as (l2 & E2 & H2).
  assert (Hfalse : (afterText w (ic.1, ic.2 + length sep)).1 = false).
  { destruct Hw as [Hh' Hw]. destruct w as [|x w]; [contradiction|].
    inversion Hw as [|? ? Hx Hw']; subst. apply afterText_text.
    - unfold nonBareRunes in Hx. cbn in Hx |- *.
      repeat (apply orb_false_iff in Hx as [? Hx]).
      repeat (apply orb_false_iff; split); assumption.
    - eapply Forall_impl; [exact Hw'|]. intros c Hc. unfold nonBareRunes in Hc.
      cbn in Hc |- *. repeat (apply orb_false_iff in Hc as [? Hc]).
      repeat (apply orb_false_iff; split); try assumption; reflexivity. }
  assert (Hrun : run (2 * length its + 4) (newLexer (lineText its ++ sep ++ w) false) = Ok l2).
  { unfold run. rewrite E, run_from_S. cbn [Lex.call]. rewrite E1. cbn [bind].
    rewrite run_from_S. cbn [Lex.call itemState]. rewrite E2. cbn [bind].
    rewrite run_from_S. cbn [Lex.call].
    rewrite (lexTopLevel_end _ _ _ _ _ _ H2) by (left; exact Hfalse). reflexivity. }
  exists (output l2). split; [exact (lex_from_run _ _ _ _ Hf Hrun)|]. apply H2.
Qed.

Local Abbreviation call := (Parse.call shellWords regexpCompile sh readFile Abs).
Local Abbreviation parseTokens := (Parse.parseTokens shellWords regexpCompile sh readFile Abs).

Section Items.

Variable rec : gostring -> ruleSet -> gostring -> result ruleSet.

(** Inside a statement, a word, a colon or an equals sign is taken, or it
    is a syntax error. *)
Lemma call_item state fuel p t :
  inStatement state -> itemType t ->
  call rec state fuel p t = Exit \/
  exists state' p', call rec state fuel p t = Ok (state', p') /\ inStatement state'.
Proof.
  intros Hs Ht. destruct state; try contradiction; cbn [Parse.call];
    unfold parseTopLevel, parseAssignmentOrTarget, parseEqualsOrTarget, parseAssignment,
      Parse.parseTargets, parseAttributesOrPrereqs, parsePrereqs, parseError;
    destruct Ht as [-> | [-> | ->]];
    first [left; reflexivity | right; eexists _, _; split; [reflexivity|exact I]].
Qed.

Lemma parseTokens_items fuel ts : forall state p,
  inStatement state -> Forall itemType ts ->
  parseTokens rec fuel state p ts = Exit \/
  exists state' p', parseTokens rec fuel state p ts = Ok (state', p').
Proof.
  induction ts as [|t ts IH]; intros state p Hs Hts; cbn [Parse.parseTokens].
  - right. eexists _, _. reflexivity.
  - inversion Hts as [|? ? Ht Hts']; subst.
    replace (isType tokenError t) with false
      by (unfold isType; destruct Ht as [-> | [-> | ->]]; reflexivity).
    destruct (call_item state fuel p t Hs Ht) as [-> | (state' & p' & -> & Hs')].
    + left. reflexivity.
    + cbn [bind]. apply IH; assumption.
Qed.

Lemma parseTokens_error fuel hdr e : forall p,
  Forall itemType hdr -> typ e = tokenError ->
  parseTokens rec fuel fun_parseTopLevel p (hdr ++ [e]) = Exit.
Proof.
  intros p Hhdr He. rewrite parseTokens_app.
  destruct (parseTokens_items fuel hdr fun_parseTopLevel p I Hhdr) as [-> | (st & p' & ->)].
  - reflexivity.
  - cbn [bind Parse.parseTokens]. unfold isType. rewrite He. reflexivity.
Qed.

End Items.

Lemma itemToken_itemType (ts : list token) (its : list item) :
  map tokenText ts = map itemToken its -> Forall itemType ts.
Proof.
  revert its. induction ts as [|t ts IH]; intros [|it its] H; try discriminate;
    [constructor|].
  cbn [map] in H. injection H as Ht Hm. constructor; [|exact (IH _ Hm)].
  unfold tokenText in Ht. unfold itemType.
  destruct it; cbn [itemToken] in Ht; injection Ht as -> _; auto.
Qed.

(** X30: a mkfile of one line of items whose last word, after blanks, no
    newline follows: [acceptUntil] finds the end of the input, the lexer
    sends the word as an error token after the tokens of the items before
    it, and [parseInto] ends the program with a syntax error. *)
Theorem parse_missing_newline (its : list (gostring * item)) (sep w path : gostring)
    (env : gmap gostring (list gostring)) (fuel : nat) :
  its <> [] -> headSep its = [] -> spaced false (its ++ [(sep, Word w)]) -> sep <> [] ->
  2 * length its + 4 < fuel ->
  (exists tokens,
     lex fuel (lineText its ++ sep ++ w) = Ok tokens /\
     map tokenText tokens = map itemToken (map snd its) ++ [(tokenError, w)]) /\
  Parse.parse shellWords regexpCompile sh readFile Abs Dir fuel (lineText its ++ sep ++ w)
    path env = Exit.
Proof.
  intros Hne Hh Hsp Hsep Hf. split.
  - apply lex_missing_newline; try assumption. lia.
  - destruct fuel as [|fuel]; [lia|].
    destruct (lex_missing_newline its sep w fuel Hne Hh Hsp Hsep ltac:(lia))
      as (tokens & Hlex & Htoks).
    destruct (lex_run_inv _ _ _ Hlex) as (l & Hrun & Hout).
    unfold Parse.parse. cbn [Parse.parseInto]. rewrite Hrun. cbn [bind]. rewrite Hout.
    apply map_eq_app in Htoks as (hdr & tl & -> & Hhdr & Htl).
    destruct tl as [|e [|? ?]]; try discriminate. cbn [map] in Htl. injection Htl as He _.
    rewrite parseTokens_error; [reflexivity| |exact He].
    eapply itemToken_itemType. exact Hhdr.
Qed.

End MissingNewline.

(* ===================================================================== *)
(** * Examples of the properties above *)
(* ===================================================================== *)

Section CoverageExamples.
Import GoStr Expand Rules Token Lex.
Local Open Scope char_scope.
Local Open Scope nat_scope.

Lemma expand_plain_word_witness :
  expand noWords 2 (str "main.c") ∅ true = Ok [str "main.c"].
Proof.
  exact (expand_plain_word noWords 0 (str "main.c") ∅ true ltac:(repeat constructor)).
Defined.

Lemma expand_single_quoted_witness :
  expand noWords 3 (str "a'b c'd") ∅ true = Ok [str "ab cd"].
Proof.
  exact (proj1 (expand_single_quoted noWords 0 (str "a") (str "b c") (str "d") ∅ true
                  ltac:(repeat constructor) ltac:(repeat (constructor; try discriminate))
                  ltac:(repeat constructor))).
Defined.



Lemma expand_double_quoted_witness :
  expand noWords 4 (str "a" ++ dquote :: str "b c" ++ dquote :: str "xd") ∅ true
  = Ok [str "ab cd"].
Proof.
  exact (expand_double_quoted noWords 0 (str "a") (str "b c") (str "xd") ∅ true
           ltac:(repeat constructor) ltac:(repeat constructor) ltac:(repeat constructor)).
Defined.

Lemma expand_back_quoted_witness :
  expand twoWords 3 (str "a`ls`b") ∅ true = Ok [str "ax"; str "yb"] /\
  expand twoWords 3 (str "a`ls") ∅ false = Ok [str "aa`ls"].
Proof.
  pose proof (expand_back_quoted twoWords 0 (str "a") (str "ls") (str "b") (str "ls") ∅
                ltac:(repeat constructor) ltac:(repeat (constructor; try discriminate))
                ltac:(repeat constructor)) as (H1 & _ & H3).
  split; [exact H1|exact H3].
Defined.



Lemma expandSuffixes_one_percent_witness :
  expandSuffixes 2 (str "%.c") (str "foo") = Ok (str "foo.c").
Proof.
  exact (proj1 (proj2 (expandSuffixes_one_percent 0 [] (str ".c") (str "foo")
                         ltac:(constructor) ltac:(repeat constructor)))).
Defined.



Lemma parseAttribs_shell_command_witness :
  shell (fst (Attribs.parseAttribs Parse.noRule [str "QSpython"; str "-u"]))
  = [str "python"; str "-u"].
Proof.
  exact (f_equal (fun x => shell (fst x))
           (proj1 (parseAttribs_shell_command Parse.noRule [] (str "Q") (str "python")
                     [str "-u"] ltac:(constructor) ltac:(repeat constructor)))).
Defined.

Lemma stripIndentation_lines_witness :
  Recipe.stripIndentation (Expand.tab :: Expand.tab :: str "cc") 1
  = Ok (Expand.tab :: str "cc").
Proof.
  exact (proj2 (stripIndentation_lines [Expand.tab; Expand.tab] (str "cc") [] 1
                  ltac:(repeat constructor) ltac:(repeat (constructor; try discriminate))
                  eq_refl)).
Defined.


Lemma cyclecheck_finds_cycles_witness :
  (acyclicFrom oneNode (str "a") /\ Graph.cyclecheck 2 oneNode (str "a") = Ok oneNode) \/
  (~ acyclicFrom oneNode (str "a") /\ Graph.cyclecheck 2 oneNode (str "a") = Exit).
Proof.
  apply (cyclecheck_finds_cycles 2 oneNode (str "a")).
  - intros x n Hx. unfold oneNode in Hx.
    apply lookup_insert_Some in Hx as [[_ <-]|[_ Hx]];
      [reflexivity|]. rewrite lookup_empty in Hx. discriminate.
  - intros x n e w Hx He. unfold oneNode in Hx.
    apply lookup_insert_Some in Hx as [[_ <-]|[_ Hx]].
    + inversion He.
    + rewrite lookup_empty in Hx. discriminate.
  - unfold oneNode. rewrite lookup_insert_eq. eexists. reflexivity.
  - vm_compute. lia.
Defined.

Lemma applyrules_graph_closed_witness :
  exists b,
    Graph.buildgraph_applyrules (fun _ => None) false 4 (add (emptyRuleSet ∅) fooHeaders)
      (str "foo.o") = Ok b /\
    closed (Graph.nodes b).
Proof.
  destruct (Graph.buildgraph_applyrules (fun _ => None) false 4
              (add (emptyRuleSet ∅) fooHeaders) (str "foo.o")) as [b| | | |] eqn:E;
    try (vm_compute in E; discriminate).
  exists b. split; [reflexivity|].
  exact (proj1 (proj2 (applyrules_graph_closed (fun _ => None) false _ 4 (str "foo.o") b E))).
Defined.

Lemma applyrules_rule_use_bound_witness :
  exists b,
    Graph.buildgraph_applyrules (fun _ => None) false 4 (add (emptyRuleSet ∅) fooHeaders)
      (str "foo.o") = Ok b /\
    Graph.rulecnt b = [0].
Proof.
  destruct (Graph.buildgraph_applyrules (fun _ => None) false 4
              (add (emptyRuleSet ∅) fooHeaders) (str "foo.o")) as [b| | | |] eqn:E;
    try (vm_compute in E; discriminate).
  exists b. split; [reflexivity|].
  exact (proj2 (applyrules_rule_use_bound (fun _ => None) false _ 4 (str "foo.o") b E)).
Defined.

Lemma allLine_spaced : spaced false allLine.
Proof.
  unfold allLine. cbn [spaced]. repeat split; try (repeat constructor; fail);
    try discriminate; try (intros H; discriminate H).
Defined.

Lemma lex_line_witness :
  exists tokens,
    lex 8 (str "all: a.o" ++ [newline]) = Ok tokens /\
    map tokenText tokens =
      [(tokenWord, str "all"); (tokenColon, str ":"); (tokenWord, str "a.o");
       (tokenNewline, [newline])].
Proof.
  exact (lex_line allLine [] 8 ltac:(discriminate) eq_refl allLine_spaced
           ltac:(constructor) ltac:(cbn; lia)).
Defined.

Lemma ccLine_recipeLine : recipeLine ccLine.
Proof.
  unfold recipeLine, ccLine. cbn [fst snd]. repeat split; try discriminate;
    repeat constructor.
Defined.

Lemma cleanLine_recipeLine : recipeLine cleanLine.
Proof.
  unfold recipeLine, cleanLine. cbn [fst snd]. repeat split; try discriminate;
    repeat constructor.
Defined.

Lemma lex_rule_recipe_witness :
  exists tokens,
    lex 11 (str "all: a.o" ++ newline :: Expand.tab :: str "cc -o all a.o" ++ [newline])
      = Ok tokens /\
    map tokenText tokens =
      [(tokenWord, str "all"); (tokenColon, str ":"); (tokenWord, str "a.o");
       (tokenNewline, [newline]); (tokenRecipe, str "cc -o all a.o" ++ [newline])] /\
    forall t, last tokens = Some t -> Token.col t = 1.
Proof.
  exact (lex_rule_recipe allLine [] [Expand.tab] (str "cc -o all a.o") [] 11
           ltac:(discriminate) eq_refl allLine_spaced ltac:(constructor)
           ltac:(constructor; [exact ccLine_recipeLine|constructor]) ltac:(cbn; lia)).
Defined.

Lemma lex_recipe_last_line_witness :
  exists tokens,
    lex 11 (str "all: a.o" ++ newline :: Expand.tab :: str "clean") = Ok tokens /\
    map tokenText tokens =
      [(tokenWord, str "all"); (tokenColon, str ":"); (tokenWord, str "a.o");
       (tokenNewline, [newline])].
Proof.
  exact (lex_recipe_last_line allLine [] [Expand.tab] (str "clean") 11
           ltac:(discriminate) eq_refl allLine_spaced ltac:(constructor)
           cleanLine_recipeLine ltac:(cbn; lia)).
Defined.

Lemma lex_blank_last_line_hangs_witness :
  lex 1000 (str "  ") = OutOfFuel /\
  lex 1000 (str "all: a.o" ++ newline :: str "  ") = OutOfFuel.
Proof.
  pose proof (lex_blank_last_line_hangs (str "  ") ltac:(discriminate)
                ltac:(repeat constructor)) as [H1 H2].
  split; [exact (H1 1000)|].
  exact (H2 allLine [] 1000 ltac:(discriminate) eq_refl allLine_spaced ltac:(constructor)).
Defined.

Lemma parseInto_keeps_rules_witness :
  exists rs,
    Parse.parseInto noWords noCompile noShell noFile noFile sameDir 12
      (str "mkfiledir = x" ++ [newline]) (emptyRuleSet ∅) (str "mkfile") = Ok rs /\
    vars rs !! str "mkfiledir" = Some [].
Proof.
  destruct (Parse.parseInto noWords noCompile noShell noFile noFile sameDir 12
              (str "mkfiledir = x" ++ [newline]) (emptyRuleSet ∅) (str "mkfile"))
    as [rs| | | |] eqn:E; try (vm_compute in E; discriminate).
  exists rs. split; [reflexivity|].
  exact (proj2 (parseInto_keeps_rules noWords noCompile noShell noFile noFile sameDir 12 _ _
                  _ rs E)).
Defined.

Lemma parse_assignment_witness :
  Parse.parse noWords noCompile noShell noFile noFile sameDir 12
    (str "CC = gcc -O2" ++ [newline]) (str "mkfile") ∅
  = Ok {| vars := afterParse [] (<[str "CC" := [str "gcc"; str "-O2"]]>
                                   (<[str "mkfiledir" := [str "mkfile"]]> ∅));
          Rules.rules := []; targetRules := ∅ |}.
Proof.
  exact (parse_assignment noWords noCompile noShell noFile noFile sameDir (str "CC") [" "]
           [([" "], str "gcc"); ([" "], str "-O2")] [] (str "mkfile") ∅ 12 eq_refl
           ltac:(cbn [spaced wordItems map fst snd]; repeat split;
                 try (repeat constructor; fail); try discriminate;
                 try (intros H; discriminate H))
           ltac:(repeat constructor) ltac:(constructor) ltac:(cbn; lia)).
Defined.

Lemma parse_rule_witness :
  Parse.parse noWords noCompile noShell noFile noFile sameDir 14
    (str "all: a.o" ++ newline :: Expand.tab :: str "cc -o all a.o" ++ [newline])
    (str "mkfile") ∅
  = Ok (add (emptyRuleSet (afterParse [] ∅))
          {| targets := [literalTarget (str "all")]; attributes := noAttribs;
             prereqs := [str "a.o"]; shell := []; recipe := str "cc -o all a.o" ++ [newline];
             command := []; isMeta := false; file := []; Rules.line := 0%Z |}).
Proof.
  exact (parse_rule noWords noCompile noShell noFile noFile sameDir
           [([], str "all")] [([" "], str "a.o")] [] [] (str "mkfile") [ccLine] ∅ 14
           ltac:(discriminate) eq_refl allLine_spaced
           ltac:(repeat constructor) ltac:(repeat constructor) ltac:(repeat constructor)
           ltac:(constructor) ltac:(constructor; [exact ccLine_recipeLine|constructor])
           ltac:(repeat constructor) ltac:(cbn; lia)).
Defined.

Lemma parse_missing_newline_witness :
  (exists tokens,
     lex 9 (str "all: a.o") = Ok tokens /\
     map tokenText tokens =
     [(tokenWord, str "all"); (tokenColon, str ":"); (tokenError, str "a.o")]) /\
  Parse.parse noWords noCompile noShell noFile noFile sameDir 9 (str "all: a.o")
    (str "mkfile") ∅ = Exit.
Proof.
  exact (parse_missing_newline noWords noCompile noShell noFile noFile sameDir
           [([], Word (str "all")); ([], Colon)] [" "] (str "a.o") (str "mkfile") ∅ 9
           ltac:(discriminate) eq_refl allLine_spaced ltac:(discriminate)
           ltac:(cbn; lia)).
Defined.

End CoverageExamples.
